(** * Batimetric automation: the coordinate parsers, the Mercator envelope,
      the batched, layer-retrying depth lookup and the coordinate form of
      [src/pages/index.tsx].

    The development embeds the TypeScript functions as Rocq functions:

    - JavaScript strings are sequences of UTF-16 code units, numbers are
      IEEE 754 binary64 values (Rocq's primitive floats); the numbers the
      page only counts with (layer indices, the batch size, the wkid, an
      HTTP status) are integers of [Z];
    - the host functions the page relies on ([parseFloat], [parseInt],
      [String.prototype.replace], [trim], [Math.round], [RegExp.prototype.exec],
      [Number.prototype.toString], [Array.prototype.filter] and [forEach])
      are modelled after ECMAScript, [Math.log] and [Math.tan], which
      ECMAScript leaves implementation-approximated, are parameters;
    - the network is an oracle that answers a request knowing every request
      sent before it;
    - [runInBatches] threads the work queue, the result list, the requests
      sent and the delays awaited through its [while] loop, which is run
      for a bounded number of iterations ([fuel]); what the page writes on
      the console is left out;
    - a handler of the form is the function from the coordinates of the
      rendering it belongs to to the coordinates it sets. *)

From Stdlib Require Import ZArith NArith List Bool Lia Ascii String.
From Stdlib Require Import Permutation.
From Stdlib Require Import Floats.PrimFloat Floats.SpecFloat Floats.FloatOps.
From Stdlib Require Floats.FloatAxioms.
Import ListNotations.

#[local] Set Warnings "-inexact-float".
#[local] Open Scope Z_scope.

(* ===================================================================== *)
(** * The JavaScript host                                                *)
(* ===================================================================== *)

Module JS.

(** ** Strings *)

Definition code_unit := N.
Definition jsstring := list code_unit.

(** An ASCII literal as a JavaScript string. *)
Definition str (s : string) : jsstring :=
  List.map N_of_ascii (list_ascii_of_string s).

Definition cu_eqb (a b : code_unit) : bool := N.eqb a b.

Fixpoint jsstring_eqb (s t : jsstring) : bool :=
  match s, t with
  | [], [] => true
  | a :: s', b :: t' => cu_eqb a b && jsstring_eqb s' t'
  | _, _ => false
  end.

(** ECMAScript WhiteSpace and LineTerminator code points, the set that
    [trim] strips and that [\s] matches. *)
Definition isWhiteSpace (c : code_unit) : bool :=
  let c := Z.of_N c in
  ((9 <=? c) && (c <=? 13)) || (c =? 32) || (c =? 160) || (c =? 5760)
  || ((8192 <=? c) && (c <=? 8202)) || (c =? 8232) || (c =? 8233)
  || (c =? 8239) || (c =? 8287) || (c =? 12288) || (c =? 65279).

Definition isDigit (c : code_unit) : bool :=
  (48 <=? Z.of_N c) && (Z.of_N c <=? 57).

Definition digitValue (c : code_unit) : Z := Z.of_N c - 48.

Fixpoint trimStart (s : jsstring) : jsstring :=
  match s with
  | c :: s' => if isWhiteSpace c then trimStart s' else s
  | [] => []
  end.

Definition trimEnd (s : jsstring) : jsstring := rev (trimStart (rev s)).

Definition trim (s : jsstring) : jsstring := trimEnd (trimStart s).

Fixpoint startsWith (p s : jsstring) : option jsstring :=
  match p, s with
  | [], _ => Some s
  | a :: p', b :: s' => if cu_eqb a b then startsWith p' s' else None
  | _ :: _, [] => None
  end.

(** [s.replace(pat, by)] with a string pattern: only the first occurrence
    is replaced. *)
Fixpoint replace (pat by_ s : jsstring) : jsstring :=
  match startsWith pat s with
  | Some rest => by_ ++ rest
  | None => match s with
            | [] => []
            | c :: s' => c :: replace pat by_ s'
            end
  end.

(** [toUpperCase] on the Basic Latin letters; other code units are kept. *)
Definition toUpperCase (s : jsstring) : jsstring :=
  List.map (fun c => if (97 <=? Z.of_N c) && (Z.of_N c <=? 122)
                     then (c - 32)%N else c) s.

(** ** Numbers *)

Definition number := float.

Definition isNaN (x : number) : bool := is_nan x.

(** The binary64 value nearest to an integer. *)
Definition ofZ (n : Z) : number := SF2Prim (binary_normalize prec emax n 0 false).

(** The binary64 value nearest (ties to even) to the positive rational
    [p / q]: the quotient is computed with at least 55 significant bits and
    a sticky last bit, and that is rounded once. *)
Definition roundRatio (neg : bool) (p q : Z) : number :=
  if (p <=? 0) || (q <=? 0) then (if neg then neg_zero else zero)
  else
    let k := Z.max 0 (56 + Z.log2_up q - Z.log2 p) in
    let n := p * 2 ^ k in
    let m := 2 * (n / q) + (if n mod q =? 0 then 0 else 1) in
    SF2Prim (binary_normalize prec emax (if neg then - m else m) (- k - 1) neg).

(** The value of a decimal digit string. *)
Definition digitsValue (ds : jsstring) : Z :=
  fold_left (fun acc c => 10 * acc + digitValue c) ds 0.

Fixpoint spanDigits (s : jsstring) : jsstring * jsstring :=
  match s with
  | c :: s' => if isDigit c then let (ds, r) := spanDigits s' in (c :: ds, r)
               else ([], s)
  | [] => ([], [])
  end.

(** ExponentPart, when one is complete at the head of [s]. *)
Definition exponentPart (s : jsstring) : Z :=
  match s with
  | c :: s' =>
      if (c =? 101)%N || (c =? 69)%N then
        match s' with
        | sg :: s'' =>
            if (sg =? 43)%N then digitsValue (fst (spanDigits s''))
            else if (sg =? 45)%N then - digitsValue (fst (spanDigits s''))
            else digitsValue (fst (spanDigits s'))
        | [] => 0
        end
      else 0
  | [] => 0
  end.

(** The longest prefix that is a StrUnsignedDecimalLiteral, as its value. *)
Definition unsignedDecimal (neg : bool) (s : jsstring) : number :=
  match startsWith (str "Infinity") s with
  | Some _ => if neg then neg_infinity else infinity
  | None =>
      let (ip, r) := spanDigits s in
      let '(fp, r') :=
        match r with
        | c :: r1 => if (c =? 46)%N then
                       let (fp, r2) := spanDigits r1 in
                       match ip, fp with
                       | [], [] => ([], r)
                       | _, _ => (fp, r2)
                       end
                     else ([], r)
        | [] => ([], r)
        end in
      match ip, fp with
      | [], [] => nan
      | _, _ =>
          let e := exponentPart r' - Z.of_nat (List.length fp) in
          let m := digitsValue (ip ++ fp) in
          if 0 <=? e then roundRatio neg (m * 10 ^ e) 1
          else roundRatio neg m (10 ^ (- e))
      end
  end.

(** [parseFloat]: leading white space is skipped, then the longest prefix
    that is a StrDecimalLiteral is converted, all its digits counting;
    [NaN] when there is none. *)
Definition parseFloat (s : jsstring) : number :=
  match trimStart s with
  | c :: s' =>
      if (c =? 43)%N then unsignedDecimal false s'
      else if (c =? 45)%N then unsignedDecimal true s'
      else unsignedDecimal false (c :: s')
  | [] => nan
  end.

(** [parseInt(s, 10)]. *)
Definition parseInt10 (s : jsstring) : number :=
  let digits (neg : bool) (t : jsstring) :=
    match fst (spanDigits t) with
    | [] => nan
    | ds => let n := digitsValue ds in
            if (n =? 0) && neg then neg_zero else ofZ (if neg then - n else n)
    end in
  match trimStart s with
  | c :: s' =>
      if (c =? 43)%N then digits false s'
      else if (c =? 45)%N then digits true s'
      else digits false (c :: s')
  | [] => nan
  end.

(** [Math.round]: the nearest integer, ties towards plus infinity; the
    sign of a zero result is the sign of the argument. *)
Definition Math_round (x : number) : number :=
  match Prim2SF x with
  | S754_finite s m e =>
      if 0 <=? e then x
      else
        let v := if s then Z.neg m else Z.pos m in
        let n := (2 * v + 2 ^ (- e)) / 2 ^ (1 - e) in
        if n =? 0 then (if s then neg_zero else zero) else ofZ n
  | _ => x
  end.

(** ** Number to string

    [Number::toString(x)] in radix 10 prints the fewest decimal digits
    [s] (there are [k] of them) and the position [n] of the point such
    that the decimal [s * 10^(n-k)] is converted back to [x]; when more
    than one [s] does, ECMAScript recommends the one nearest to [x], which
    is what is computed here. *)

(** The decimal digits of a natural number, most significant first. *)
Fixpoint digitsOf (fuel : nat) (n : Z) (acc : jsstring) : jsstring :=
  match fuel with
  | O => acc
  | S fuel' =>
      let acc := Z.to_N (n mod 10 + 48) :: acc in
      if n <? 10 then acc else digitsOf fuel' (n / 10) acc
  end.

Definition decimalDigits (n : Z) : jsstring :=
  digitsOf (S (Z.to_nat (Z.log2 n))) n [].

(** [10^n <= p / q], for positive [p] and [q]. *)
Definition tenPowLe (n p q : Z) : bool :=
  if 0 <=? n then q * 10 ^ n <=? p else q <=? p * 10 ^ (- n).

(** The [n] with [10^(n-1) <= p / q < 10^n], looked for upwards from 1
    or downwards from 0; it is not further from there than the binary
    logarithm of [p], and of [q]. *)
Fixpoint magnitudeUp (fuel : nat) (n p q : Z) : Z :=
  match fuel with
  | O => n
  | S fuel' => if tenPowLe n p q then magnitudeUp fuel' (n + 1) p q else n
  end.

Fixpoint magnitudeDown (fuel : nat) (n p q : Z) : Z :=
  match fuel with
  | O => n
  | S fuel' =>
      if tenPowLe (n - 1) p q then n else magnitudeDown fuel' (n - 1) p q
  end.

Definition magnitude (p q : Z) : Z :=
  if tenPowLe 0 p q then magnitudeUp (S (Z.to_nat (Z.log2 p))) 1 p q
  else magnitudeDown (S (Z.to_nat (Z.log2 q))) 0 p q.

(** Whether the decimal [s * 10^(n-k)] is converted to [x], that is,
    whether [x] is the binary64 value nearest to it. *)
Definition denotes (x : number) (s n k : Z) : bool :=
  PrimFloat.eqb
    (if k <=? n then roundRatio false (s * 10 ^ (n - k)) 1
     else roundRatio false s (10 ^ (k - n)))
    x.

(** The digits [s] and the position [n] of the point for [k] digits: of
    the two [k]-digit decimals around [p / q], the one that is converted
    to [x]; the nearer one (the even one, at equal distance) if both
    are. *)
Definition candidate (x : number) (p q n k : Z) : option (Z * Z) :=
  let '(num, den) :=
    if n <=? k then (p * 10 ^ (k - n), q) else (p, q * 10 ^ (n - k)) in
  let (lo, below) := Z.div_eucl num den in
  let above := den - below in
  let up := if lo + 1 =? 10 ^ k then (10 ^ (k - 1), n + 1) else (lo + 1, n) in
  let lo_ok := denotes x lo n k in
  let up_ok := denotes x (fst up) (snd up) k in
  if lo_ok && up_ok then
    if below <? above then Some (lo, n)
    else if above <? below then Some up
    else if Z.even lo then Some (lo, n) else Some up
  else if lo_ok then Some (lo, n)
  else if up_ok then Some up
  else None.

(** The fewest digits that denote [x]: [k], [k + 1], ... digits are tried
    in turn, for [fuel] more turns. *)
Fixpoint shortest (fuel : nat) (x : number) (p q n k : Z) : Z * Z * Z :=
  match candidate x p q n k with
  | Some (s, n') => (s, n', k)
  | None =>
      match fuel with
      | O => (p * 10 ^ (k - n) / q, n, k)
      | S fuel' => shortest fuel' x p q n (k + 1)
      end
  end.

Definition zeros (n : Z) : jsstring := repeat 48%N (Z.to_nat n).

(** The text of the decimal [s * 10^(n-k)], [s] of [k] digits: plain when
    the point is at most 21 places after or 6 places before the first
    digit, with an exponent otherwise. *)
Definition decimalText (s n k : Z) : jsstring :=
  let ds := decimalDigits s in
  if (-5 <=? n) && (n <=? 21) then
    if k <=? n then ds ++ zeros (n - k)
    else if 0 <? n then
      firstn (Z.to_nat n) ds ++ str "." ++ skipn (Z.to_nat n) ds
    else str "0." ++ zeros (- n) ++ ds
  else
    let e := n - 1 in
    (match ds with
     | [] => []
     | [d] => [d]
     | d :: rest => d :: str "." ++ rest
     end)
    ++ str "e" ++ (if e <? 0 then str "-" else str "+")
    ++ decimalDigits (Z.abs e).

(** The value of [x] is [p / q]; the search for its digits ends at the
    latest with the digits of that value itself, which has no digit
    further than [Z.max (- e) 0] places after the point. *)
Definition Number_toString (x : number) : jsstring :=
  match Prim2SF x with
  | S754_nan => str "NaN"
  | S754_zero _ => str "0"
  | S754_infinity sign => (if sign then str "-" else []) ++ str "Infinity"
  | S754_finite sign m e =>
      let p := Z.pos m * 2 ^ (Z.max e 0) in
      let q := 2 ^ (Z.max (- e) 0) in
      let n0 := magnitude p q in
      let '(s, n, k) :=
        shortest (Z.to_nat (n0 + Z.max (- e) 0)) (abs x) p q n0 1 in
      (if sign then str "-" else []) ++ decimalText s n k
  end.

(** [array.filter((x, i) => p(x, i))], the indices counted from [i]. *)
Fixpoint filterFrom {A : Type} (p : A -> Z -> bool) (i : Z) (l : list A)
  : list A :=
  match l with
  | [] => []
  | x :: l' =>
      if p x i then x :: filterFrom p (i + 1) l' else filterFrom p (i + 1) l'
  end.

Definition Array_filter {A : Type} (p : A -> Z -> bool) (l : list A) : list A :=
  filterFrom p 0 l.

(** [array.forEach((x, i) => ...)] for a callback that updates a state
    [S], the indices counted from [i]. *)
Fixpoint forEachFrom {A S : Type} (f : S -> A -> Z -> S) (i : Z) (l : list A)
    (s : S) : S :=
  match l with
  | [] => s
  | x :: l' => forEachFrom f (i + 1) l' (f s x i)
  end.

Definition Array_forEach {A S : Type} (f : S -> A -> Z -> S) (l : list A)
    (s : S) : S :=
  forEachFrom f 0 l s.

(** ** Regular expressions

    The backtracking matcher of ECMAScript, in continuation-passing style:
    a pattern is matched against the rest of the input and hands what it
    leaves, with the captures made so far, to its continuation; the first
    success in priority order is the result. *)

Inductive regex : Type :=
| RChar (p : code_unit -> bool)
| RSeq (r1 r2 : regex)
| RQuant (r : regex) (min : nat) (max : option nat)
| RGroup (i : nat) (r : regex).

Definition captures := nat -> option jsstring.

Definition noCaptures : captures := fun _ => None.

Definition setCapture (i : nat) (v : option jsstring) (c : captures) : captures :=
  fun j => if Nat.eqb j i then v else c j.

Fixpoint groupsOf (r : regex) : list nat :=
  match r with
  | RChar _ => []
  | RSeq r1 r2 => groupsOf r1 ++ groupsOf r2
  | RQuant r _ _ => groupsOf r
  | RGroup i r => i :: groupsOf r
  end.

Definition clearCaptures (gs : list nat) (c : captures) : captures :=
  fold_left (fun c i => setCapture i None c) gs c.

Section Matcher.

Context {R : Type}.

Definition continuation := jsstring -> captures -> option R.

Fixpoint rmatch (r : regex) (s : jsstring) (c : captures) (k : continuation)
    {struct r} : option R :=
  match r with
  | RChar p =>
      match s with
      | x :: s' => if p x then k s' c else None
      | [] => None
      end
  | RSeq r1 r2 => rmatch r1 s c (fun s' c' => rmatch r2 s' c' k)
  | RGroup i r1 =>
      rmatch r1 s c
        (fun s' c' =>
           k s' (setCapture i
                   (Some (firstn (List.length s - List.length s') s)) c'))
  | RQuant r1 lo hi =>
      (* greedy repetition: [n] iterations may still be taken, [lo] of
         them are still owed; captures inside are reset at each
         iteration and an optional iteration must consume input *)
      (fix rep (n lo : nat) (s : jsstring) (c : captures) {struct n}
         : option R :=
         match n with
         | O => match lo with O => k s c | S _ => None end
         | S n' =>
             let c0 := clearCaptures (groupsOf r1) c in
             match lo with
             | S lo' => rmatch r1 s c0 (fun s' c' => rep n' lo' s' c')
             | O =>
                 match rmatch r1 s c0
                         (fun s' c' =>
                            if Nat.eqb (List.length s') (List.length s)
                            then None else rep n' O s' c') with
                 | Some res => Some res
                 | None => k s c
                 end
             end
         end)
        (match hi with Some h => h | None => (lo + List.length s)%nat end)
        lo s c
  end.

End Matcher.

(** [regex.exec(s)] for a pattern without the [g] or [y] flag: the match
    at the leftmost position that has one, as the matched text and the
    captures. *)
Fixpoint exec (r : regex) (s : jsstring) : option (jsstring * captures) :=
  match rmatch r s noCaptures
          (fun s' c => Some (firstn (List.length s - List.length s') s, c)) with
  | Some m => Some m
  | None => match s with
            | [] => None
            | _ :: s' => exec r s'
            end
  end.

(** Pattern syntax. *)
Definition lit (c : N) : regex := RChar (cu_eqb c).
Definition digit : regex := RChar isDigit.                      (* \d *)
Definition space : regex := RChar isWhiteSpace.                 (* \s *)
Definition opt (r : regex) : regex := RQuant r 0 (Some 1%nat).  (* r? *)
Definition star (r : regex) : regex := RQuant r 0 None.         (* r* *)
Definition plus (r : regex) : regex := RQuant r 1 None.         (* r+ *)
Definition rep (r : regex) (lo hi : nat) : regex := RQuant r lo (Some hi).

(** A class of Basic Latin letters under the [i] flag: a code unit matches
    when its canonical (upper case) form is in the class; no code unit
    outside Basic Latin is canonicalised into it. *)
Definition oneOfIgnoreCase (cls : jsstring) : regex :=
  RChar (fun c => existsb (fun u => match toUpperCase [c] with
                                    | [c'] => cu_eqb c' u
                                    | _ => false
                                    end) cls).

End JS.

Declare Scope regex_scope.
Delimit Scope regex_scope with re.
Infix "·" := JS.RSeq (at level 60, right associativity) : regex_scope.

Import JS.

(** Exceptions: a call returns a value or throws. *)
Inductive JSError : Type :=
| ApiError (status : Z)              (* Error(`Erro na API: ${res.status}`) *)
| NetworkFailure                     (* [fetch] rejected *)
| BodySyntaxError                    (* [res.json()] rejected *)
| FormatError (coordinate : jsstring).
                       (* Error(`Formato de coordenada inválido: ${coordinate}`) *)

Inductive Exn (A : Type) : Type :=
| Return (a : A)
| Throw (e : JSError).
Arguments Return {A} a.
Arguments Throw {A} e.

(** [x ?? d] *)
Definition nullish {A : Type} (x : option A) (d : A) : A :=
  match x with Some a => a | None => d end.
Infix "??" := nullish (at level 45, left associativity).

(* ===================================================================== *)
(** * interfaces                                                         *)
(* ===================================================================== *)

Record Coordinate : Type := {
  latitude : jsstring;
  longitude : jsstring
}.

Record Wkid : Type := { wkid : Z }.

Record Envelope : Type := {
  xmin : number;
  ymin : number;
  xmax : number;
  ymax : number;
  spatialReference : Wkid
}.

Inductive AttributeValue : Type :=
| AString (s : jsstring)
| ANumber (n : number)
| ANull.

(** [Record<string, string | number | null>], keys in insertion order. *)
Definition AttributeType := list (jsstring * AttributeValue).

Record Attribute : Type := { attributes : AttributeType }.

Definition FieldAliases := list (jsstring * jsstring).

Record Field : Type := {
  name : jsstring;
  type : jsstring;
  alias : jsstring;
  length : Z
}.

Record BatimetriaResponse : Type := {
  displayFieldName : jsstring;
  features : list Attribute;
  fieldAliases : FieldAliases;
  fields : list Field
}.

(** Modelled from the spec: [CoordinateWithLayer] is imported from
    [~/interfaces] and its declaration is not among the sources.  It is a
    [Coordinate] together with the layer being tried; the page reads the
    layer as [coord.mapLayerId ?? 0], so the property is optional.  The
    spread [{...coord, mapLayerId: n}] is [withLayer coord n]. *)
Record CoordinateWithLayer : Type := withLayer {
  coordinate : Coordinate;
  mapLayerId : option Z
}.

(** [Result.coord] is declared a [Coordinate]; [runInBatches] stores the
    queued task there, which carries its [mapLayerId] along. *)
Record Result : Type := {
  coord : CoordinateWithLayer;
  result_features : list Attribute
}.

(** A row of the position report, by the headers that the CSV parser
    gives its columns; [csv_blank] is the column headed by the empty string
    and [RELATORIO_DE_POSICOES] the one headed by the title of the
    report. *)
Record CsvSchema : Type := {
  csv_blank : option jsstring;
  _1 : option jsstring;
  RELATORIO_DE_POSICOES : option jsstring;
  _2 : option jsstring;
  _3 : option jsstring; (* Latitude *)
  _4 : option jsstring;
  _5 : option jsstring;
  _6 : option jsstring; (* Longitude *)
  _7 : option jsstring;
  _8 : option jsstring;
  _9 : option jsstring;
  _10 : option jsstring;
  _11 : option jsstring;
  _12 : option jsstring;
  _13 : option jsstring;
  _14 : option jsstring;
  _15 : option jsstring;
  _16 : option jsstring
}.

(* ===================================================================== *)
(** * utils/constants                                                    *)
(* ===================================================================== *)

#[local] Open Scope float_scope.

Definition API_URL : jsstring :=
  str "https://geoportal.sgb.gov.br/server/rest/services/geologia_marinha/batimetria/MapServer/dynamicLayer/query?".
Definition WKID : Z := 102100.
Definition RADIUS : number := 6378137.0.
Definition MAX_CONCURRENT_REQUESTS : Z := 5.

Definition REQ_LIMIT_PER_MIN : number := 60.
Definition BATCH_SIZE : number := 10.
Definition BATCH_DELAY : number := (60 / (REQ_LIMIT_PER_MIN / BATCH_SIZE)) * 1000.

(* ===================================================================== *)
(** * pages/index                                                        *)
(* ===================================================================== *)

Definition Math_PI : number := 3.141592653589793.

Definition parseCoordinate (value : jsstring) : option number :=
  let parsed := parseFloat (replace (str ",") (str ".") value) in
  if isNaN parsed then None else Some parsed.

(** The request parameters; [geometry] and [layer] stand for their JSON
    texts. *)
Record URLSearchParams : Type := {
  f : jsstring;
  returnGeometry : jsstring;
  spatialRel : jsstring;
  geometry : Envelope;
  geometryType : jsstring;
  inSR : jsstring;
  outFields : jsstring;
  outSR : jsstring;
  layer : Z
}.

Definition returnSearchParams (envelope : Envelope) (mapLayerId : Z)
  : URLSearchParams :=
  {| f := str "json";
     returnGeometry := str "false";
     spatialRel := str "esriSpatialRelIntersects";
     geometry := envelope;
     geometryType := str "esriGeometryEnvelope";
     inSR := str "102100";
     outFields := str "profundida";
     outSR := str "102100";
     layer := mapLayerId |}.

(** What [fetch] settles to: a rejection, or a response with its [ok] flag,
    its status and its body read by [res.json()]; the body has the type the
    page casts it to, or is not JSON at all ([None]). *)
Inductive FetchSettled : Type :=
| Rejected
| Response (ok : bool) (status : Z) (json : option BatimetriaResponse).

Definition degreeSign : code_unit := 176%N.
Definition apostrophe : code_unit := 39%N.
Definition quotationMark : code_unit := 34%N.
Definition fullStop : code_unit := 46%N.

(** The pattern of [parseStringCoordinate],
    [/(\d{1,3})°\s*(\d{1,2})'?(\d{1,2}(?:\.\d+)?)?Q?([NSEW])/i]
    where [Q] is the quotation mark. *)
Definition coordinateRegex : regex :=
  (RGroup 1 (rep digit 1 3) · lit degreeSign · star space
   · RGroup 2 (rep digit 1 2) · opt (lit apostrophe)
   · opt (RGroup 3 (rep digit 1 2 · opt (lit fullStop · plus digit)))
   · opt (lit quotationMark)
   · RGroup 4 (oneOfIgnoreCase (str "NSEW")))%re.

(** [!g] for a capture: undefined or the empty string. *)
Definition falsy (g : option jsstring) : bool :=
  match g with
  | None | Some [] => true
  | Some (_ :: _) => false
  end.

Definition parseStringCoordinate (coordinate : jsstring) : Exn number :=
  match exec coordinateRegex (trim coordinate) with
  | None => Throw (FormatError coordinate)
  | Some (_, m) =>
      if falsy (m 1%nat) || falsy (m 2%nat) || falsy (m 3%nat) || falsy (m 4%nat)
      then Throw (FormatError coordinate)
      else
        let degrees := parseInt10 (m 1%nat ?? []) in
        let minutes := parseInt10 (m 2%nat ?? []) in
        let seconds := parseFloat (m 3%nat ?? []) in
        let direction := toUpperCase (m 4%nat ?? []) in
        let decimal := degrees + minutes / 60 + seconds / 3600 in
        let decimal :=
          if jsstring_eqb direction (str "S") || jsstring_eqb direction (str "W")
          then decimal * -1 else decimal in
        (* Arredonda para duas casas decimais *)
        Return (Math_round (decimal * 100) / 100)
  end.

(** The handlers of the form.  Each is given the [coordinates] of the
    rendering it belongs to and returns the array it passes to
    [setCoordinates]. *)

Definition addCoordinate (coordinates : list Coordinate)
    (latValue lonValue : option jsstring) : list Coordinate :=
  let latValue := latValue ?? [] in
  let lonValue := lonValue ?? [] in
  coordinates ++ [ {| latitude := latValue; longitude := lonValue |} ].

Definition removeCoordinate (coordinates : list Coordinate) (index : Z)
  : list Coordinate :=
  Array_filter (fun _ i => negb (i =? index)%Z) coordinates.

(** The property that [updateCoordinate] sets. *)
Inductive CoordinateKey : Type :=
| key_latitude
| key_longitude.

Definition setKey (coord : Coordinate) (field : CoordinateKey)
    (value : jsstring) : Coordinate :=
  match field with
  | key_latitude => {| latitude := value; longitude := longitude coord |}
  | key_longitude => {| latitude := latitude coord; longitude := value |}
  end.

(** [newCoords[index]![field] = value] on the copy [newCoords] of the
    array: when there is no element at [index] the assignment throws a
    [TypeError] and [setCoordinates] is not reached ([None]). *)
Definition updateCoordinate (coordinates : list Coordinate) (index : Z)
    (field : CoordinateKey) (value : jsstring) : option (list Coordinate) :=
  let newCoords := coordinates in
  match (if (0 <=? index)%Z then nth_error newCoords (Z.to_nat index)
         else None) with
  | Some coord =>
      Some (firstn (Z.to_nat index) newCoords
            ++ setKey coord field value
            :: skipn (S (Z.to_nat index)) newCoords)
  | None => None
  end.

(** The callback of [results.data.forEach] in [displayCsvValues], as the
    [newCoordinates] it leaves. *)
Definition csvRow (newCoordinates : list Coordinate) (row : CsvSchema)
    (index : Z) : list Coordinate :=
  if (2 <? index)%Z then
    let lat := _3 row in
    let lon := _6 row in
    if negb (falsy lat) && negb (falsy lon) then
      match parseStringCoordinate (lat ?? []) with
      | Return parsedLat =>
          match parseStringCoordinate (lon ?? []) with
          | Return parsedLon =>
              newCoordinates
              ++ [ {| latitude := Number_toString parsedLat;
                      longitude := Number_toString parsedLon |} ]
          | Throw e => newCoordinates
          end
      | Throw e => newCoordinates
      end
    else newCoordinates
  else newCoordinates.

(** [displayCsvValues(results)] for [results.data], as the update it
    passes to [setCoordinates], applied to the state [prev]. *)
Definition displayCsvValues (data : list CsvSchema) (prev : list Coordinate)
  : list Coordinate :=
  let newCoordinates := Array_forEach csvRow data [] in
  (* Atualize o estado apenas uma vez *)
  prev ++ newCoordinates.

(** The events of the form that change its coordinates: a change of the
    latitude or longitude input of a row, a click on the button that
    removes a row, a click on the button that adds a row, and the end of
    the parsing of an uploaded CSV file. *)
Inductive FormEvent : Type :=
| onChange (index : nat) (field : CoordinateKey) (value : jsstring)
| onClickRemove (index : nat)
| onClickAdd
| onCsvComplete (data : list CsvSchema).

(** Whether the rendering for [coordinates] has the control of an event:
    [coordinates.map] renders the two inputs of every row and, when
    [coordinates.length > 1], its remove button. *)
Definition rendered (coordinates : list Coordinate) (e : FormEvent) : bool :=
  match e with
  | onChange index _ _ => (index <? List.length coordinates)%nat
  | onClickRemove index =>
      (index <? List.length coordinates)%nat
      && (1 <? List.length coordinates)%nat
  | onClickAdd => true
  | onCsvComplete _ => true
  end.

(** The coordinates after the handler of an event has run. *)
Definition handle (coordinates : list Coordinate) (e : FormEvent)
  : list Coordinate :=
  match e with
  | onChange index field value =>
      match updateCoordinate coordinates (Z.of_nat index) field value with
      | Some newCoords => newCoords
      | None => coordinates
      end
  | onClickRemove index => removeCoordinate coordinates (Z.of_nat index)
  | onClickAdd => addCoordinate coordinates None None
  | onCsvComplete data => displayCsvValues data coordinates
  end.

(** The state that [useState] starts the coordinates with. *)
Definition initialCoordinates : list Coordinate :=
  [ {| latitude := []; longitude := [] |} ].

(** What the page takes from its environment: [Math.log] and [Math.tan] of
    the host and, for the service, what a request settles to given the
    requests sent before it. *)
Record Host : Type := {
  Math_log : number -> number;
  Math_tan : number -> number;
  fetch : list URLSearchParams -> URLSearchParams -> FetchSettled
}.

Section Page.

Variable host : Host.

Definition calcXValue (longitude : number) : number :=
  RADIUS * ((longitude * Math_PI) / 180).

Definition calcYValue (latitude : number) : number :=
  RADIUS * Math_log host (Math_tan host (Math_PI / 4 + (latitude * Math_PI) / 180 / 2)).

Definition returnEnvelope (x y deltaMeters : number) : Envelope :=
  {| xmin := x - deltaMeters;
     ymin := y - deltaMeters;
     xmax := x + deltaMeters;
     ymax := y + deltaMeters;
     spatialReference := {| wkid := WKID |} |}.

Definition latLonToEnvelope (latitude longitude : number)
    (deltaMeters : option number) : Envelope :=
  let deltaMeters := deltaMeters ?? 1000 in
  let x := calcXValue longitude in
  let y := calcYValue latitude in
  returnEnvelope x y deltaMeters.

(** One request: the outcome and the requests sent so far. *)
Definition fetchDepthForEnvelope (sent : list URLSearchParams)
    (envelope : Envelope) (mapLayerId : Z)
  : Exn BatimetriaResponse * list URLSearchParams :=
  let params := returnSearchParams envelope mapLayerId in
  let sent' := (sent ++ [params])%list in
  match fetch host sent params with
  | Rejected => (Throw NetworkFailure, sent')
  | Response ok status json =>
      if negb ok then (Throw (ApiError status), sent')
      else match json with
           | Some body => (Return body, sent')
           | None => (Throw BodySyntaxError, sent')
           end
  end.

#[local] Open Scope Z_scope.

(** The body of [batch.map(async (coord) => ...)] for one task. *)
Definition batchPromise (sent : list URLSearchParams)
    (coord : CoordinateWithLayer) : Result * list URLSearchParams :=
  let lat := parseCoordinate (latitude (coordinate coord)) in
  let lon := parseCoordinate (longitude (coordinate coord)) in
  match lat, lon with
  | Some lat, Some lon =>
      let envelope := latLonToEnvelope lat lon None in
      match fetchDepthForEnvelope sent envelope (mapLayerId coord ?? 0) with
      | (Return res, sent') =>
          ({| coord := coord; result_features := features res |}, sent')
      | (Throw err, sent') =>
          ({| coord := coord; result_features := [] |}, sent')
      end
  | _, _ => ({| coord := coord; result_features := [] |}, sent)
  end.

(** [Promise.all(batch.map(...))]: the requests leave in batch order and
    the outcomes come back in batch order. *)
Fixpoint batchPromises (sent : list URLSearchParams)
    (batch : list CoordinateWithLayer)
  : list Result * list URLSearchParams :=
  match batch with
  | [] => ([], sent)
  | coord :: batch' =>
      let (result, sent1) := batchPromise sent coord in
      let (results, sent2) := batchPromises sent1 batch' in
      (result :: results, sent2)
  end.

(** The state of the [while] loop: the two arrays, the requests sent and
    the timers awaited. *)
Record Scheduler : Type := {
  queue : list CoordinateWithLayer;
  results : list Result;
  sent : list URLSearchParams;
  slept : list number
}.

(** The body of [for (const result of batchResults)]. *)
Definition requeueOrPush (qr : list CoordinateWithLayer * list Result)
    (result : Result) : list CoordinateWithLayer * list Result :=
  let (queue, results) := qr in
  if (List.length (result_features result) =? 0)%nat
     && (mapLayerId (coord result) ?? 0 <? 5)
  then
    (* Reenfileira no início com mapLayerId incrementado *)
    (withLayer (coordinate (coord result))
               (Some (mapLayerId (coord result) ?? 0 + 1)) :: queue,
     results)
  else (queue, (results ++ [result])%list).

(** One iteration of the [while] loop. *)
Definition iteration (batchSize : Z) (st : Scheduler) : Scheduler :=
  let n := Z.to_nat batchSize in
  (* retira os primeiros `batchSize` itens *)
  let batch := firstn n (queue st) in
  let queue1 := skipn n (queue st) in
  let (batchResults, sent1) := batchPromises (sent st) batch in
  let (queue2, results2) :=
    fold_left requeueOrPush batchResults (queue1, results st) in
  {| queue := queue2;
     results := results2;
     sent := sent1;
     slept := match queue2 with
              | [] => slept st
              | _ :: _ => (slept st ++ [BATCH_DELAY])%list
              end |}.

(** The [while] loop, run for at most [fuel] iterations. *)
Fixpoint while (fuel : nat) (batchSize : Z) (st : Scheduler)
  : option Scheduler :=
  match queue st with
  | [] => Some st
  | _ :: _ =>
      match fuel with
      | O => None
      | S fuel' => while fuel' batchSize (iteration batchSize st)
      end
  end.

Definition start (coordinates : list Coordinate) : Scheduler :=
  {| queue := List.map (fun coord => withLayer coord (Some 0)) coordinates;
     results := [];
     sent := [];
     slept := [] |}.

Definition runInBatches (fuel : nat) (coordinates : list Coordinate)
    (batchSize : option Z) : option (list Result) :=
  let batchSize := batchSize ?? 10 in
  option_map results (while fuel batchSize (start coordinates)).

(** [handleSubmit]: the results the page displays for the coordinates of
    its form. *)
Definition handleSubmit (fuel : nat) (coordinates : list Coordinate)
  : option (list Result) :=
  runInBatches fuel coordinates (Some MAX_CONCURRENT_REQUESTS).

End Page.

#[local] Open Scope Z_scope.

(* ===================================================================== *)
(** * The scheduler with provenance                                      *)
(* ===================================================================== *)

(** The same loop over tasks that carry the index of the input coordinate
    they descend from, recording every run of the batch body.  Forgetting
    the indices and the record gives back [runInBatches] ([erase_while]
    below); the indices only serve to say "the same coordinate". *)
Module Ghost.

(** One run of the batch body: whose task it was, the requests sent
    before it, the result it returned and the requests sent after it. *)
Record Attempt : Type := {
  at_id : nat;
  at_task : CoordinateWithLayer;
  at_sent : list URLSearchParams;
  at_result : Result;
  at_sent' : list URLSearchParams
}.

Record State : Type := {
  gqueue : list (nat * CoordinateWithLayer);
  gresults : list (nat * Result);
  gsent : list URLSearchParams;
  gslept : list number;
  gtrace : list Attempt
}.

Definition erase (st : State) : Scheduler :=
  {| queue := List.map snd (gqueue st);
     results := List.map snd (gresults st);
     sent := gsent st;
     slept := gslept st |}.

Definition outcome (a : Attempt) : nat * Result := (at_id a, at_result a).

Definition attemptsOf (i : nat) (trace : list Attempt) : list Attempt :=
  filter (fun a => Nat.eqb (at_id a) i) trace.

Section Ghost.

Variable host : Host.

Definition attempt (sent : list URLSearchParams)
    (t : nat * CoordinateWithLayer) : Attempt :=
  let (result, sent') :=
    batchPromise host sent (snd t) in
  {| at_id := fst t; at_task := snd t; at_sent := sent;
     at_result := result; at_sent' := sent' |}.

Fixpoint attempts (sent : list URLSearchParams)
    (batch : list (nat * CoordinateWithLayer))
  : list Attempt * list URLSearchParams :=
  match batch with
  | [] => ([], sent)
  | t :: batch' =>
      let a := attempt sent t in
      let (rest, sent2) := attempts (at_sent' a) batch' in
      (a :: rest, sent2)
  end.

Definition requeueOrPush
    (qr : list (nat * CoordinateWithLayer) * list (nat * Result))
    (result : nat * Result)
  : list (nat * CoordinateWithLayer) * list (nat * Result) :=
  let (queue, results) := qr in
  if (List.length (result_features (snd result)) =? 0)%nat
     && (mapLayerId (coord (snd result)) ?? 0 <? 5)
  then
    ((fst result,
      withLayer (coordinate (coord (snd result)))
                (Some (mapLayerId (coord (snd result)) ?? 0 + 1)))
     :: queue,
     results)
  else (queue, (results ++ [result])%list).

Definition iteration (batchSize : Z) (st : State) : State :=
  let n := Z.to_nat batchSize in
  let batch := firstn n (gqueue st) in
  let queue1 := skipn n (gqueue st) in
  let (batchAttempts, sent1) := attempts (gsent st) batch in
  let (queue2, results2) :=
    fold_left requeueOrPush (List.map outcome batchAttempts)
              (queue1, gresults st) in
  {| gqueue := queue2;
     gresults := results2;
     gsent := sent1;
     gslept := match queue2 with
               | [] => gslept st
               | _ :: _ => (gslept st ++ [BATCH_DELAY])%list
               end;
     gtrace := (gtrace st ++ batchAttempts)%list |}.

Fixpoint while (fuel : nat) (batchSize : Z) (st : State) : option State :=
  match gqueue st with
  | [] => Some st
  | _ :: _ =>
      match fuel with
      | O => None
      | S fuel' => while fuel' batchSize (iteration batchSize st)
      end
  end.

Definition start (coordinates : list Coordinate) : State :=
  {| gqueue := combine (seq 0 (List.length coordinates))
                       (List.map (fun coord => withLayer coord (Some 0))
                                 coordinates);
     gresults := [];
     gsent := [];
     gslept := [];
     gtrace := [] |}.

(** A recorded attempt is a run of the batch body. *)
Definition recorded (a : Attempt) : Prop :=
  batchPromise host (at_sent a) (at_task a)
  = (at_result a, at_sent' a).

End Ghost.

(** The task of coordinate [c] at layer [k]. *)
Definition task (c : Coordinate) (k : nat) : CoordinateWithLayer :=
  withLayer c (Some (Z.of_nat k)).

Definition empty (a : Attempt) : Prop := result_features (at_result a) = [].

(** [k] attempts so far, at layers [0 .. k-1], none of which found a
    feature. *)
Definition retried (c : Coordinate) (k : nat) (atts : list Attempt) : Prop :=
  List.map at_task atts = List.map (task c) (seq 0 k) /\ Forall empty atts.

(** A coordinate waiting in the queue at layer [k]. *)
Definition waiting (coordinates : list Coordinate) (trace : list Attempt)
    (t : nat * CoordinateWithLayer) : Prop :=
  exists c k,
    nth_error coordinates (fst t) = Some c /\ snd t = task c k /\
    (k <= 5)%nat /\ retried c k (attemptsOf (fst t) trace).

(** A coordinate resolved at layer [k]: its attempts are those at layers
    [0 .. k], the last one produced its result, and either that result
    has features or [k] is the last layer. *)
Definition resolved (coordinates : list Coordinate) (trace : list Attempt)
    (r : nat * Result) : Prop :=
  exists c k before a,
    nth_error coordinates (fst r) = Some c /\
    attemptsOf (fst r) trace = (before ++ [a])%list /\
    retried c k before /\
    at_task a = task c k /\ at_result a = snd r /\
    coord (snd r) = task c k /\ (k <= 5)%nat /\
    (result_features (snd r) <> [] \/ k = 5%nat).

End Ghost.

(* ===================================================================== *)
(** * Notions used to state the properties of the parsers                *)
(* ===================================================================== *)

(** What a pattern matches: [sem r w c c'] when [r] can match the text [w]
    and turn the captures [c] into [c']. *)
Fixpoint sem (r : regex) (w : jsstring) (c c' : captures) {struct r} : Prop :=
  match r with
  | RChar p => exists x, w = [x] /\ p x = true /\ c' = c
  | RSeq r1 r2 =>
      exists w1 w2 c1, w = w1 ++ w2 /\ sem r1 w1 c c1 /\ sem r2 w2 c1 c'
  | RGroup i r1 =>
      exists c1, sem r1 w c c1 /\ c' = setCapture i (Some w) c1
  | RQuant r1 lo hi =>
      let reps :=
        fix reps (n lo : nat) (w : jsstring) (c c' : captures) {struct n}
          : Prop :=
          match n with
          | O => lo = O /\ w = [] /\ c' = c
          | S n' =>
              (lo = O /\ w = [] /\ c' = c)
              \/ exists w1 w2 c1,
                   w = w1 ++ w2
                   /\ sem r1 w1 (clearCaptures (groupsOf r1) c) c1
                   /\ reps n' (Nat.pred lo) w2 c1 c'
          end in
      match hi with
      | Some h => reps h lo w c c'
      | None => exists n, reps n lo w c c'
      end
  end.

Definition digits (w : jsstring) : Prop := Forall (fun c => isDigit c = true) w.
Definition whiteSpace (w : jsstring) : Prop := Forall (fun c => isWhiteSpace c = true) w.
Definition hemisphere (h : code_unit) : Prop :=
  In h (str "NSEWnsew").

(** The seconds of a coordinate text: one or two digits and, possibly, a
    full stop followed by digits. *)
Definition secondsText (t : jsstring) : Prop :=
  exists s f, t = s ++ f /\ digits s /\ (1 <= List.length s <= 2)%nat
              /\ (f = [] \/ exists fd, f = fullStop :: fd /\ digits fd /\ fd <> []).

(** A match of [coordinateRegex]: the text matched and the four groups. *)
Definition coordinateMatch (text : jsstring) (m : captures) : Prop :=
  exists degrees space minutes apostrophe' quotation letter,
    text = degrees ++ [degreeSign] ++ space ++ minutes ++ apostrophe'
           ++ (m 3%nat ?? []) ++ quotation ++ [letter]
    /\ digits degrees /\ (1 <= List.length degrees <= 3)%nat
    /\ whiteSpace space
    /\ digits minutes /\ (1 <= List.length minutes <= 2)%nat
    /\ (apostrophe' = [] \/ apostrophe' = [apostrophe])
    /\ match m 3%nat with Some t => secondsText t | None => True end
    /\ (quotation = [] \/ quotation = [quotationMark])
    /\ hemisphere letter
    /\ m 1%nat = Some degrees /\ m 2%nat = Some minutes
    /\ m 4%nat = Some [letter].

(** The next code unit, if any, is not in the class [p]. *)
Definition stopsAt (p : code_unit -> bool) (rest : jsstring) : Prop :=
  match rest with
  | [] => True
  | y :: _ => p y = false
  end.

Definition southOrWest (letter : code_unit) : bool :=
  existsb (cu_eqb letter) (str "SWsw").

(** The pattern of [parseDMS] as the specification writes it,
    [D{1,3}° M{1,2}' S(.S)?Q [NSEW]] with [Q] the quotation mark and the
    letter in either case, read generously: a blank of the pattern stands
    for optional white space, [S] for any number of digits, and the pattern
    may be found anywhere in the trimmed text. *)
Definition specPattern : regex :=
  (rep digit 1 3 · lit degreeSign · star space
   · rep digit 1 2 · lit apostrophe · star space
   · plus digit · opt (lit fullStop · plus digit) · lit quotationMark
   · star space · oneOfIgnoreCase (str "NSEW"))%re.

Definition matchesSpecPattern (text : jsstring) : Prop :=
  exec specPattern (trim text) <> None.

(** The examples: the coordinate text of the specification and one without
    the apostrophe and the quotation mark. *)
Definition dmsExample : jsstring :=
  str "23" ++ [degreeSign] ++ str "12'30.5" ++ [quotationMark] ++ str "S".
Definition dmsUnmarked : jsstring :=
  str "23" ++ [degreeSign] ++ str "1230S".

Definition comma : code_unit := 44%N.



(** The binary64 value nearest to the decimal with the integer digits
    [ip] and the fraction digits [fp]. *)
Definition decimalNumber (ip fp : jsstring) : number :=
  roundRatio false (digitsValue (ip ++ fp)) (10 ^ Z.of_nat (List.length fp)).

(** The fraction of a decimal text: nothing, or a full stop and the
    digits. *)
Definition fractionText (fp : jsstring) : jsstring :=
  match fp with
  | [] => []
  | _ :: _ => fullStop :: fp
  end.


(** The example with degrees of three digits, in the western
    hemisphere. *)
Definition dmsWest : jsstring :=
  str "123" ++ [degreeSign] ++ str "12'30.5" ++ [quotationMark] ++ str "W".

(* ===================================================================== *)
(** * Notions used to state the properties of the envelope               *)
(* ===================================================================== *)

(** The value of a finite number in units of [2^-1074], the least
    positive binary64 value (every finite binary64 value is a whole number
    of them); 0 for the others. *)
Definition SFfixed (f : spec_float) : Z :=
  match f with
  | S754_finite s m e => (if s then -1 else 1) * (Z.pos m * 2 ^ (e + 1074))
  | _ => 0
  end.

Definition SFfin (f : spec_float) : bool :=
  match f with
  | S754_finite _ _ _ | S754_zero _ => true
  | _ => false
  end.

Definition fixedPoint (x : number) : Z := SFfixed (Prim2SF x).
Definition isFinite (x : number) : bool := SFfin (Prim2SF x).

(** The number [n] in units of [2^-1074]. *)
Definition units (n : Z) : Z := n * 2 ^ 1074.

(** [lo] and [hi] are finite and at 1000, less than [2^-23], below and
    above [mid]. *)
Definition centered (lo mid hi : number) : Prop :=
  isFinite lo = true /\ isFinite mid = true /\ isFinite hi = true
  /\ Z.abs (fixedPoint mid - fixedPoint lo - units 1000) < 2 ^ (1074 - 23)
  /\ Z.abs (fixedPoint hi - fixedPoint mid - units 1000) < 2 ^ (1074 - 23).

(** Whether a shifted mantissa has lost a bit. *)
Definition inexact (mrs : shr_record) : bool := shr_r mrs || shr_s mrs.

(** The binary64 value of the sign [s], the rounded mantissa [m1] (at
    most [2^53]) and the exponent [e]. *)
Definition rounded (s : bool) (m1 e : Z) : spec_float :=
  if m1 =? 0 then S754_zero s
  else
    let (m2, e2) := if m1 =? 2 ^ 53 then (2 ^ 52, e + 1) else (m1, e) in
    if e2 <=? 971 then S754_finite s (Z.to_pos m2) e2 else S754_infinity s.

(** The exponent of the last place of a value of at most [2^k], from
    -1074. *)
Definition lastPlace (k : Z) : Z := Z.max (k - 52) (-1074) + 1074.

(* ===================================================================== *)
(** * Notions used to state the properties of the scheduler              *)
(* ===================================================================== *)

(** The test of [requeueOrPush] and the task it puts back. *)
Definition retries (r : nat * Result) : bool :=
  (List.length (result_features (snd r)) =? 0)%nat
  && (mapLayerId (coord (snd r)) ?? 0 <? 5).

Definition requeued (r : nat * Result) : nat * CoordinateWithLayer :=
  (fst r, withLayer (coordinate (coord (snd r)))
                    (Some (mapLayerId (coord (snd r)) ?? 0 + 1))).

(** The measure of the loop: the number of times a task can still be
    taken from the queue, summed over the queue. *)
Definition weight (t : CoordinateWithLayer) : nat :=
  S (Z.to_nat (5 - (mapLayerId t ?? 0))).

Definition remaining (q : list CoordinateWithLayer) : nat :=
  list_sum (List.map weight q).

(** What holds of the scheduler between two iterations: every input
    coordinate is either waiting in the queue or resolved in the results,
    exactly once, with the attempts on record that brought it there. *)
Record invariant (host : Host) (coordinates : list Coordinate)
    (st : Ghost.State) : Prop := {
  inv_ids :
    Permutation (List.map fst (Ghost.gqueue st) ++ List.map fst (Ghost.gresults st))
                (seq 0 (List.length coordinates));
  inv_queue :
    Forall (Ghost.waiting coordinates (Ghost.gtrace st)) (Ghost.gqueue st);
  inv_results :
    Forall (Ghost.resolved coordinates (Ghost.gtrace st)) (Ghost.gresults st);
  inv_trace : Forall (Ghost.recorded host) (Ghost.gtrace st);
  inv_known :
    Forall (fun a => (Ghost.at_id a < List.length coordinates)%nat)
           (Ghost.gtrace st)
}.

(** [finished host coordinates batchSize st]: given fuel for six iterations
    per coordinate, or more, the loop with provenance ends in [st], the
    loop of the page ends in [st] without its provenance, and
    [runInBatches] returns the results of [st]. *)
Definition finished (host : Host) (coordinates : list Coordinate)
    (batchSize : option Z) (st : Ghost.State) : Prop :=
  forall fuel, (6 * List.length coordinates <= fuel)%nat ->
    Ghost.while host fuel (batchSize ?? 10) (Ghost.start coordinates) = Some st
    /\ while host fuel (batchSize ?? 10) (start coordinates) = Some (Ghost.erase st)
    /\ runInBatches host fuel coordinates batchSize
       = Some (List.map snd (Ghost.gresults st)).

(** Inputs for closed examples: the coordinates of the scenario, and a host
    whose service answers every request with an empty feature list
    ([runInBatches] never looks inside an envelope, so the host's
    logarithm and tangent are placeholders). *)
Definition belem : Coordinate :=
  {| latitude := str "-2.21"; longitude := str "-47.43" |}.
Definition malformed : Coordinate :=
  {| latitude := str "abc"; longitude := str "-47.43" |}.
Definition noData : BatimetriaResponse :=
  {| displayFieldName := str "profundida"; features := [];
     fieldAliases := []; fields := [] |}.
Definition noDataHost : Host :=
  {| Math_log := fun x => x;
     Math_tan := fun x => x;
     fetch := fun _ _ => Response true 200 (Some noData) |}.

(** A host whose service has a depth reading on layer 2 only. *)
Definition depthReading : BatimetriaResponse :=
  {| displayFieldName := str "profundida";
     features := [ {| attributes := [(str "profundida", ANumber (-35)%float)] |} ];
     fieldAliases := [(str "profundida", str "profundida")];
     fields := [] |}.
Definition depthHost : Host :=
  {| Math_log := fun x => x;
     Math_tan := fun x => x;
     fetch := fun _ params =>
                if (layer params =? 2)%Z
                then Response true 200 (Some depthReading)
                else Response true 200 (Some noData) |}.

(* ===================================================================== *)
(** * Notions used to state the properties of the form                   *)
(* ===================================================================== *)

(** The states of the form: what a sequence of events, each on a control
    of the rendering it happens in, makes of the initial coordinates. *)
Inductive reachable : list Coordinate -> Prop :=
| reachable_initial : reachable initialCoordinates
| reachable_event coordinates e :
    reachable coordinates -> rendered coordinates e = true ->
    reachable (handle coordinates e).

(** What a row of the report contributes to the form. *)
Definition imported (row : CsvSchema) : list Coordinate :=
  match _3 row, _6 row with
  | Some lat, Some lon =>
      match parseStringCoordinate lat, parseStringCoordinate lon with
      | Return parsedLat, Return parsedLon =>
          [ {| latitude := Number_toString parsedLat;
               longitude := Number_toString parsedLon |} ]
      | _, _ => []
      end
  | _, _ => []
  end.

(** A number with the sign of zero dropped: what is read back from the
    text of a number. *)
Definition positiveZero (x : number) : number := if is_zero x then zero else x.

(** A text that does not start with a digit. *)
Definition notDigit (r : jsstring) : Prop :=
  match r with [] => True | c :: _ => isDigit c = false end.

(** The characters of the text of a decimal. *)
Definition decimalChar (c : code_unit) : Prop :=
  isDigit c = true \/ c = 46%N \/ c = 101%N \/ c = 43%N \/ c = 45%N.

(** The value that [parseFloat] gives to the digits [m] with the exponent
    [e]. *)
Definition decimalValue (m e : Z) : number :=
  if 0 <=? e then roundRatio false (m * 10 ^ e) 1
  else roundRatio false m (10 ^ (- e)).

(** [n] is the position of the point for [p / q]:
    [10^(n-1) <= p / q < 10^n]. *)
Definition isMagnitude (p q n : Z) : Prop :=
  tenPowLe (n - 1) p q = true /\ tenPowLe n p q = false.

(** A row of the report with a latitude and a longitude column and nothing
    else, and a longitude text. *)
Definition reportRow (lat lon : option jsstring) : CsvSchema :=
  {| csv_blank := None; _1 := None; RELATORIO_DE_POSICOES := None; _2 := None;
     _3 := lat; _4 := None; _5 := None; _6 := lon; _7 := None; _8 := None;
     _9 := None; _10 := None; _11 := None; _12 := None; _13 := None;
     _14 := None; _15 := None; _16 := None |}.

Definition dmsLongitude : jsstring :=
  str "47" ++ [degreeSign] ++ str "25'48" ++ [quotationMark] ++ str "W".

(** The value a call returns, if it returns. *)
Definition returned {A : Type} (r : Exn A) : option A :=
  match r with
  | Return v => Some v
  | Throw _ => None
  end.

(** A text without a digit. *)
Definition digitless (w : jsstring) : Prop :=
  Forall (fun c => isDigit c = false) w.

(** A text that neither starts nor ends with white space. *)
Definition trimmed (w : jsstring) : Prop :=
  (exists c w', w = c :: w' /\ isWhiteSpace c = false)
  /\ (exists w' c, w = w' ++ [c] /\ isWhiteSpace c = false).

(** A text that starts with three digits. *)
Definition startsWithThreeDigits (w : jsstring) : Prop :=
  exists a b c rest, w = a :: b :: c :: rest /\ digits [a; b; c].

(** Coordinate texts of the northern hemisphere, the second with degrees
    of three digits. *)
Definition dmsNorth : jsstring :=
  str "23" ++ [degreeSign] ++ str "12'30.5" ++ [quotationMark] ++ str "N".
Definition dmsThreeDigits : jsstring :=
  str "234" ++ [degreeSign] ++ str "12'30.5" ++ [quotationMark] ++ str "N".

(** A host with the tangent and the logarithm of zero that ECMAScript
    requires. *)
Definition poleHost : Host :=
  {| Math_log := fun x => if (x =? 0)%float then neg_infinity else x;
     Math_tan := fun x => x;
     fetch := fun _ _ => Rejected |}.

(* ===================================================================== *)
(** * Notions used to state further properties of the scheduler          *)
(* ===================================================================== *)

(** The test of the loop on a result, and the task it then puts back. *)
Definition retry (r : Result) : bool :=
  (List.length (result_features r) =? 0)%nat
  && (mapLayerId (coord r) ?? 0 <? 5).

Definition nextLayer (r : Result) : CoordinateWithLayer :=
  withLayer (coordinate (coord r)) (Some (mapLayerId (coord r) ?? 0 + 1)).

(** A coordinate whose latitude and longitude both parse. *)
Definition wellFormed (c : Coordinate) : bool :=
  match parseCoordinate (latitude c), parseCoordinate (longitude c) with
  | Some _, Some _ => true
  | _, _ => false
  end.

(** The scheduler after [n] iterations of its loop (an iteration on an
    empty queue changes nothing). *)
Definition after (host : Host) (batchSize : Z) (coordinates : list Coordinate)
    (n : nat) : Scheduler :=
  Nat.iter n (iteration host batchSize) (start coordinates).

(** What is still to be done for the well-formed coordinates of a
    queue. *)
Definition lookupsLeft (q : list CoordinateWithLayer) : nat :=
  remaining (filter (fun t => wellFormed (coordinate t)) q).

(** A request that the page may send for [coordinates]: the query for the
    envelope of one of them, at a layer from 0 to 5. *)
Definition requestFor (host : Host) (coordinates : list Coordinate)
    (params : URLSearchParams) : Prop :=
  exists c lat lon k,
    In c coordinates
    /\ parseCoordinate (latitude c) = Some lat
    /\ parseCoordinate (longitude c) = Some lon
    /\ 0 <= k <= 5
    /\ params = returnSearchParams (latLonToEnvelope host lat lon None) k.

(** A task of the queue for [coordinates]. *)
Definition taskFor (coordinates : list Coordinate) (t : CoordinateWithLayer)
  : Prop :=
  In (coordinate t) coordinates
  /\ exists k, mapLayerId t = Some k /\ 0 <= k <= 5.

(** Pacing: the requests sent fit in one batch more than the delays
    awaited; while the queue is not empty, every batch sent so far has
    been followed by its delay; every delay is [BATCH_DELAY]. *)
Definition paced (batchSize : Z) (st : Scheduler) : Prop :=
  (List.length (sent st)
   <= Z.to_nat batchSize * (List.length (slept st) + 1))%nat
  /\ (queue st <> [] ->
      (List.length (sent st) <= Z.to_nat batchSize * List.length (slept st))%nat)
  /\ Forall (fun delay => delay = BATCH_DELAY) (slept st).

(** A host whose service has a depth reading for every request. *)
Definition dataHost : Host :=
  {| Math_log := fun x => x;
     Math_tan := fun x => x;
     fetch := fun _ _ => Response true 200 (Some depthReading) |}.

(* ===================================================================== *)
(** * Properties of the scheduler                                        *)
(* ===================================================================== *)
Section SchedulerFacts.

Variable host : Host.

(** ** The batch body *)

Lemma batchPromise_coord sent t : coord (fst (batchPromise host sent t)) = t.
Proof.
  unfold batchPromise.
  destruct (parseCoordinate (latitude (coordinate t))); [|reflexivity].
  destruct (parseCoordinate (longitude (coordinate t))); [|reflexivity].
  destruct (fetchDepthForEnvelope _ _ _ _) as [[res|err] sent']; reflexivity.
Qed.

Lemma gattempt_recorded sent t : Ghost.recorded host (Ghost.attempt host sent t).
Proof.
  unfold Ghost.recorded, Ghost.attempt.
  destruct (batchPromise host sent (snd t)) as [r s'] eqn:E. simpl. exact E.
Qed.

Lemma recorded_coord a :
  Ghost.recorded host a -> coord (Ghost.at_result a) = Ghost.at_task a.
Proof.
  unfold Ghost.recorded. intros H.
  pose proof (batchPromise_coord (Ghost.at_sent a) (Ghost.at_task a)) as C.
  rewrite H in C. exact C.
Qed.

Lemma gattempts_recorded sent batch :
  Forall (Ghost.recorded host) (fst (Ghost.attempts host sent batch)).
Proof.
  revert sent. induction batch as [|t batch IH]; intros sent; simpl; [constructor|].
  destruct (Ghost.attempts host _ batch) as [rest s2] eqn:E. simpl.
  constructor.
  - apply gattempt_recorded.
  - specialize (IH (Ghost.at_sent' (Ghost.attempt host sent t))). rewrite E in IH. exact IH.
Qed.

(** ** Forgetting the provenance *)

Lemma erase_attempts sent batch :
  batchPromises host sent (List.map snd batch)
  = (List.map snd (List.map Ghost.outcome (fst (Ghost.attempts host sent batch))),
     snd (Ghost.attempts host sent batch)).
Proof.
  revert sent. induction batch as [|t batch IH]; intros sent; simpl; [reflexivity|].
  unfold Ghost.attempt at 1 3.
  destruct (batchPromise host sent (snd t)) as [r s1] eqn:E1.
  unfold Ghost.attempt. rewrite E1. simpl.
  rewrite IH.
  destruct (Ghost.attempts host s1 batch) as [rest s2]. reflexivity.
Qed.

Lemma erase_requeueOrPush rs q out :
  let qr := fold_left Ghost.requeueOrPush rs (q, out) in
  fold_left requeueOrPush (List.map snd rs) (List.map snd q, List.map snd out)
  = (List.map snd (fst qr), List.map snd (snd qr)).
Proof.
  revert q out. induction rs as [|r rs IH]; intros q out; simpl; [reflexivity|].
  destruct ((List.length (result_features (snd r)) =? 0)%nat
            && (mapLayerId (coord (snd r)) ?? 0 <? 5)) eqn:E.
  - rewrite <- IH. reflexivity.
  - rewrite <- IH. rewrite map_app. reflexivity.
Qed.

Lemma erase_iteration batchSize st :
  Ghost.erase (Ghost.iteration host batchSize st) = iteration host batchSize (Ghost.erase st).
Proof.
  unfold Ghost.iteration, iteration, Ghost.erase at 2. simpl.
  rewrite firstn_map, skipn_map.
  rewrite erase_attempts.
  destruct (Ghost.attempts host (Ghost.gsent st) _) as [atts s1]. simpl.
  pose proof (erase_requeueOrPush (List.map Ghost.outcome atts)
                (skipn (Z.to_nat batchSize) (Ghost.gqueue st))
                (Ghost.gresults st)) as H.
  simpl in H. rewrite H.
  destruct (fold_left Ghost.requeueOrPush _ _) as [q2 r2]. simpl.
  unfold Ghost.erase. simpl. f_equal.
  destruct q2; reflexivity.
Qed.

Lemma erase_while fuel batchSize st :
  while host fuel batchSize (Ghost.erase st)
  = option_map Ghost.erase (Ghost.while host fuel batchSize st).
Proof.
  revert st. induction fuel as [|fuel IH]; intros st; simpl.
  - destruct (Ghost.gqueue st); reflexivity.
  - destruct (Ghost.gqueue st) eqn:E; simpl; [reflexivity|].
    rewrite <- erase_iteration. apply IH.
Qed.

Lemma erase_start coordinates :
  Ghost.erase (Ghost.start coordinates) = start coordinates.
Proof.
  unfold Ghost.erase, Ghost.start, start. simpl. f_equal.
  rewrite <- (length_map (fun coord => withLayer coord (Some 0)) coordinates).
  generalize (List.map (fun coord => withLayer coord (Some 0)) coordinates).
  intros l. generalize 0%nat. induction l; intros n; simpl; f_equal; auto.
Qed.

End SchedulerFacts.

(** ** Lists *)

Lemma filter_split {A} (p : A -> bool) (l : list A) :
  Permutation (filter p l ++ filter (fun x => negb (p x)) l) l.
Proof.
  induction l as [|x l IH]; simpl; [constructor|].
  destruct (p x); simpl.
  - constructor. exact IH.
  - apply Permutation_sym, Permutation_cons_app, Permutation_sym, IH.
Qed.

Lemma attemptsOf_app i l1 l2 :
  Ghost.attemptsOf i (l1 ++ l2) = Ghost.attemptsOf i l1 ++ Ghost.attemptsOf i l2.
Proof. apply filter_app. Qed.

Lemma attemptsOf_absent i l :
  ~ In i (List.map Ghost.at_id l) -> Ghost.attemptsOf i l = [].
Proof.
  induction l as [|a l IH]; simpl; intros H; [reflexivity|].
  destruct (Nat.eqb_spec (Ghost.at_id a) i) as [E|E].
  - exfalso. apply H. left. exact E.
  - apply IH. intros HI. apply H. right. exact HI.
Qed.

Lemma attemptsOf_unique a l :
  NoDup (List.map Ghost.at_id l) -> In a l ->
  Ghost.attemptsOf (Ghost.at_id a) l = [a].
Proof.
  induction l as [|b l IH]; simpl; intros ND HI; [contradiction|].
  inversion ND as [|? ? Hnotin ND']; subst.
  destruct HI as [->|HI].
  - rewrite Nat.eqb_refl. f_equal. apply attemptsOf_absent. exact Hnotin.
  - destruct (Nat.eqb_spec (Ghost.at_id b) (Ghost.at_id a)) as [E|E].
    + exfalso. apply Hnotin. rewrite E. apply in_map. exact HI.
    + apply IH; assumption.
Qed.

Lemma fold_requeueOrPush rs q out :
  fold_left Ghost.requeueOrPush rs (q, out)
  = (rev (List.map requeued (filter retries rs)) ++ q,
     out ++ filter (fun r => negb (retries r)) rs).
Proof.
  revert q out. induction rs as [|r rs IH]; intros q out; simpl.
  - rewrite app_nil_r. reflexivity.
  - fold (retries r). destruct (retries r); simpl; rewrite IH.
    + rewrite <- app_assoc. reflexivity.
    + rewrite <- app_assoc. reflexivity.
Qed.

Section SchedulerRuns.

Variable host : Host.

Lemma gattempts_batch sent batch :
  List.map (fun a => (Ghost.at_id a, Ghost.at_task a)) (fst (Ghost.attempts host sent batch))
  = batch.
Proof.
  revert sent. induction batch as [|t batch IH]; intros sent; simpl; [reflexivity|].
  destruct (Ghost.attempts host _ batch) as [rest s2] eqn:E. simpl.
  f_equal.
  - unfold Ghost.attempt.
    destruct (batchPromise host sent (snd t)). simpl. destruct t; reflexivity.
  - specialize (IH (Ghost.at_sent' (Ghost.attempt host sent t))).
    rewrite E in IH. exact IH.
Qed.

(** The iteration host, with the fold unfolded. *)
Lemma giteration_eq batchSize st :
  let n := Z.to_nat batchSize in
  let atts := fst (Ghost.attempts host (Ghost.gsent st) (firstn n (Ghost.gqueue st))) in
  let outs := List.map Ghost.outcome atts in
  Ghost.gqueue (Ghost.iteration host batchSize st)
  = rev (List.map requeued (filter retries outs)) ++ skipn n (Ghost.gqueue st)
  /\ Ghost.gresults (Ghost.iteration host batchSize st)
     = Ghost.gresults st ++ filter (fun r => negb (retries r)) outs
  /\ Ghost.gtrace (Ghost.iteration host batchSize st) = Ghost.gtrace st ++ atts.
Proof.
  unfold Ghost.iteration. simpl.
  destruct (Ghost.attempts host _ _) as [atts s1]. simpl.
  rewrite fold_requeueOrPush. simpl. auto.
Qed.

(** ** Termination *)

Lemma remaining_cons t q : remaining (t :: q) = (weight t + remaining q)%nat.
Proof. reflexivity. Qed.

Lemma weight_requeued outs :
  (remaining (List.map snd (List.map requeued (filter retries outs)))
   + List.length outs
   <= remaining (List.map (fun r => coord (snd r)) outs))%nat.
Proof.
  induction outs as [|r outs IH]; [simpl; lia|].
  cbn [filter List.map List.length]. rewrite remaining_cons.
  destruct (retries r) eqn:E.
  - cbn [List.map]. rewrite remaining_cons.
    unfold retries in E. apply andb_prop in E. destruct E as [_ E].
    apply Z.ltb_lt in E.
    assert (W : (weight (snd (requeued r)) + 1 = weight (coord (snd r)))%nat).
    { unfold weight, requeued. cbn [snd mapLayerId nullish]. lia. }
    lia.
  - unfold weight. lia.
Qed.

Lemma remaining_app q1 q2 : remaining (q1 ++ q2) = (remaining q1 + remaining q2)%nat.
Proof. unfold remaining. rewrite map_app, list_sum_app. reflexivity. Qed.

Lemma remaining_rev q : remaining (rev q) = remaining q.
Proof.
  induction q as [|t q IH]; simpl; [reflexivity|].
  rewrite remaining_app, IH. unfold remaining. simpl. lia.
Qed.

Lemma giteration_decreases batchSize st :
  0 < batchSize -> Ghost.gqueue st <> [] ->
  (remaining (List.map snd (Ghost.gqueue (Ghost.iteration host batchSize st)))
   < remaining (List.map snd (Ghost.gqueue st)))%nat.
Proof.
  intros Hb Hq.
  destruct (giteration_eq batchSize st) as (Eq & _ & _). rewrite Eq. clear Eq.
  set (n := Z.to_nat batchSize).
  set (batch := firstn n (Ghost.gqueue st)).
  set (atts := fst (Ghost.attempts host (Ghost.gsent st) batch)).
  assert (Hs : remaining (List.map snd (Ghost.gqueue st))
               = (remaining (List.map snd batch)
                  + remaining (List.map snd (skipn n (Ghost.gqueue st))))%nat).
  { rewrite <- remaining_app, <- map_app. unfold batch.
    rewrite firstn_skipn. reflexivity. }
  rewrite Hs, map_app, remaining_app, map_rev, remaining_rev.
  pose proof (weight_requeued (List.map Ghost.outcome atts)) as W.
  assert (Hc : List.map (fun r => coord (snd r)) (List.map Ghost.outcome atts)
               = List.map snd batch).
  { rewrite map_map. simpl.
    transitivity (List.map snd (List.map (fun a => (Ghost.at_id a, Ghost.at_task a)) atts)).
    2:{ unfold atts. rewrite gattempts_batch. reflexivity. }
    rewrite map_map. simpl.
    apply map_ext_in. intros a Ha.
    apply (recorded_coord host).
    pose proof (gattempts_recorded host (Ghost.gsent st) batch) as R.
    rewrite Forall_forall in R. apply R. exact Ha. }
  rewrite Hc in W.
  assert (Hl : (0 < List.length (List.map Ghost.outcome atts))%nat).
  { rewrite length_map.
    rewrite <- (length_map (fun a => (Ghost.at_id a, Ghost.at_task a))).
    unfold atts. rewrite gattempts_batch. unfold batch.
    destruct (Ghost.gqueue st); [congruence|].
    destruct n eqn:En; [subst n; lia|]. simpl. lia. }
  lia.
Qed.

Lemma gwhile_terminates batchSize fuel st :
  0 < batchSize ->
  (remaining (List.map snd (Ghost.gqueue st)) <= fuel)%nat ->
  exists st', Ghost.while host fuel batchSize st = Some st'.
Proof.
  intros Hb. revert st. induction fuel as [|fuel IH]; intros st Hm.
  - destruct (Ghost.gqueue st) as [|t q] eqn:E; simpl; rewrite E.
    + eauto.
    + unfold remaining, weight in Hm. simpl in Hm. lia.
  - simpl. destruct (Ghost.gqueue st) as [|t q] eqn:E; [eauto|].
    apply IH.
    pose proof (giteration_decreases batchSize st Hb) as D.
    rewrite E in D. specialize (D ltac:(discriminate)). lia.
Qed.

Lemma gwhile_more_fuel batchSize fuel fuel' st st' :
  (fuel <= fuel')%nat ->
  Ghost.while host fuel batchSize st = Some st' -> Ghost.while host fuel' batchSize st = Some st'.
Proof.
  revert fuel' st. induction fuel as [|fuel IH]; intros fuel' st Hle H.
  - simpl in H. destruct (Ghost.gqueue st) eqn:E; [|discriminate].
    destruct fuel'; simpl; rewrite E; exact H.
  - destruct fuel'; [lia|]. simpl in *.
    destruct (Ghost.gqueue st); [exact H|].
    apply IH; [lia|exact H].
Qed.

Lemma gwhile_empties batchSize fuel st st' :
  Ghost.while host fuel batchSize st = Some st' -> Ghost.gqueue st' = [].
Proof.
  revert st. induction fuel as [|fuel IH]; intros st H; simpl in H.
  - destruct (Ghost.gqueue st) eqn:E; [|discriminate]. congruence.
  - destruct (Ghost.gqueue st) eqn:E; [congruence|]. eapply IH, H.
Qed.

Lemma remaining_start coordinates :
  remaining (List.map snd (Ghost.gqueue (Ghost.start coordinates)))
  = (6 * List.length coordinates)%nat.
Proof.
  change (List.map snd (Ghost.gqueue (Ghost.start coordinates)))
    with (queue (Ghost.erase (Ghost.start coordinates))).
  rewrite erase_start. unfold start. cbn [queue].
  induction coordinates as [|c cs IH]; [reflexivity|].
  cbn [List.map List.length]. rewrite remaining_cons, IH.
  unfold weight. cbn [mapLayerId nullish]. lia.
Qed.

End SchedulerRuns.

Lemma NoDup_app_disjoint {A} (l1 l2 : list A) a :
  NoDup (l1 ++ l2) -> In a l1 -> ~ In a l2.
Proof.
  induction l1 as [|x l1 IH]; simpl; intros ND H1 H2; [contradiction|].
  inversion ND as [|? ? Hx ND']; subst.
  destruct H1 as [->|H1].
  - apply Hx. apply in_or_app. right. exact H2.
  - exact (IH ND' H1 H2).
Qed.

Lemma map_fst_combine {A B} (s : list A) (l : list B) :
  List.length s = List.length l -> List.map fst (combine s l) = s.
Proof.
  revert l. induction s as [|x s IH]; intros [|y l] H; simpl in *; try reflexivity; try discriminate.
  f_equal. apply IH. lia.
Qed.

Lemma in_combine_seq {A B} (f : A -> B) (cs : list A) a i t :
  In (i, t) (combine (seq a (List.length cs)) (List.map f cs)) ->
  exists c, nth_error cs (i - a) = Some c /\ t = f c /\ (a <= i)%nat.
Proof.
  revert a. induction cs as [|c cs IH]; intros a H; simpl in H; [contradiction|].
  destruct H as [H|H].
  - inversion H; subst. exists c. rewrite Nat.sub_diag. auto.
  - apply IH in H. destruct H as (c' & Hn & Ht & Hle).
    exists c'. split; [|split; [exact Ht|lia]].
    replace (i - a)%nat with (S (i - S a)) by lia. exact Hn.
Qed.

Section Invariant.

Variable host : Host.

Lemma invariant_start coordinates : invariant host coordinates (Ghost.start coordinates).
Proof.
  constructor; simpl.
  - rewrite app_nil_r, map_fst_combine; [reflexivity|].
    rewrite length_seq, length_map. reflexivity.
  - apply Forall_forall. intros [i t] H.
    apply in_combine_seq in H. destruct H as (c & Hn & Ht & _).
    rewrite Nat.sub_0_r in Hn.
    exists c, 0%nat. simpl. repeat split; auto. lia.
  - constructor.
  - constructor.
  - constructor.
Qed.

(** An outcome that is requeued: its coordinate moves on to the next
    layer, with one more empty attempt behind it. *)
Lemma waiting_requeued coordinates trace atts a :
  NoDup (List.map Ghost.at_id atts) -> In a atts -> (Ghost.recorded host) a ->
  Ghost.waiting coordinates trace (Ghost.at_id a, Ghost.at_task a) ->
  retries (Ghost.outcome a) = true ->
  Ghost.waiting coordinates (trace ++ atts) (requeued (Ghost.outcome a)).
Proof.
  intros ND Ha Hr (c & k & Hn & Ht & Hk & Hmap & Hall) Hre.
  simpl in Hn, Ht, Hmap, Hall.
  unfold retries in Hre. apply andb_prop in Hre. destruct Hre as [He Hl].
  apply Nat.eqb_eq in He. apply Z.ltb_lt in Hl.
  simpl in He, Hl. rewrite (recorded_coord _ _ Hr), Ht in Hl. simpl in Hl.
  exists c, (S k). unfold requeued. simpl.
  rewrite (recorded_coord _ _ Hr), Ht. simpl.
  split; [exact Hn|]. split; [|split; [lia|]].
  - unfold Ghost.task. f_equal. f_equal. lia.
  - rewrite attemptsOf_app, (attemptsOf_unique a atts ND Ha).
    split.
    + rewrite map_app, seq_S, map_app, Hmap. simpl. rewrite Ht. reflexivity.
    + apply Forall_app. split; [exact Hall|].
      constructor; [|constructor].
      unfold Ghost.empty. apply length_zero_iff_nil. exact He.
Qed.

Lemma resolved_pushed coordinates trace atts a :
  NoDup (List.map Ghost.at_id atts) -> In a atts -> (Ghost.recorded host) a ->
  Ghost.waiting coordinates trace (Ghost.at_id a, Ghost.at_task a) ->
  retries (Ghost.outcome a) = false ->
  Ghost.resolved coordinates (trace ++ atts) (Ghost.outcome a).
Proof.
  intros ND Ha Hr (c & k & Hn & Ht & Hk & Hret) Hre.
  simpl in Hn, Ht, Hret.
  exists c, k, (Ghost.attemptsOf (Ghost.at_id a) trace), a. simpl.
  rewrite attemptsOf_app, (attemptsOf_unique a atts ND Ha).
  rewrite (recorded_coord _ _ Hr).
  repeat split; auto; try apply Hret.
  unfold retries in Hre. simpl in Hre.
  rewrite (recorded_coord _ _ Hr), Ht in Hre. simpl in Hre.
  apply andb_false_iff in Hre. destruct Hre as [He|Hl].
  - left. intros E. rewrite E in He. discriminate.
  - right. apply Z.ltb_ge in Hl. lia.
Qed.

Lemma waiting_untouched coordinates trace atts t :
  ~ In (fst t) (List.map Ghost.at_id atts) ->
  Ghost.waiting coordinates trace t -> Ghost.waiting coordinates (trace ++ atts) t.
Proof.
  intros Hn (c & k & H). exists c, k.
  rewrite attemptsOf_app, (attemptsOf_absent _ _ Hn), app_nil_r. exact H.
Qed.

Lemma resolved_untouched coordinates trace atts r :
  ~ In (fst r) (List.map Ghost.at_id atts) ->
  Ghost.resolved coordinates trace r -> Ghost.resolved coordinates (trace ++ atts) r.
Proof.
  intros Hn (c & k & before & a & H). exists c, k, before, a.
  rewrite attemptsOf_app, (attemptsOf_absent _ _ Hn), app_nil_r. exact H.
Qed.

Lemma invariant_iteration coordinates batchSize st :
  invariant host coordinates st -> invariant host coordinates (Ghost.iteration host batchSize st).
Proof.
  intros [Hids Hq Hres Htr Hkn].
  destruct (giteration_eq host batchSize st) as (Eq & Er & Et).
  set (n := Z.to_nat batchSize) in *.
  set (batch := firstn n (Ghost.gqueue st)) in *.
  set (rest := skipn n (Ghost.gqueue st)) in *.
  set (atts := fst (Ghost.attempts host (Ghost.gsent st) batch)) in *.
  assert (Hsplit : Ghost.gqueue st = batch ++ rest)
    by (symmetry; apply firstn_skipn).
  assert (Hbatch : List.map (fun a => (Ghost.at_id a, Ghost.at_task a)) atts = batch)
    by apply gattempts_batch.
  assert (Hidb : List.map Ghost.at_id atts = List.map fst batch).
  { rewrite <- Hbatch, map_map. reflexivity. }
  assert (Hrec : Forall (Ghost.recorded host) atts) by apply gattempts_recorded.
  assert (ND : NoDup (List.map fst (Ghost.gqueue st)
                      ++ List.map fst (Ghost.gresults st))).
  { eapply Permutation_NoDup; [apply Permutation_sym, Hids|apply seq_NoDup]. }
  assert (NDq : NoDup (List.map fst batch ++ List.map fst rest)).
  { rewrite <- map_app, <- Hsplit. eapply NoDup_app_remove_r, ND. }
  assert (NDa : NoDup (List.map Ghost.at_id atts)).
  { rewrite Hidb. eapply NoDup_app_remove_r, NDq. }
  assert (Hwait : forall a, In a atts ->
            Ghost.waiting coordinates (Ghost.gtrace st) (Ghost.at_id a, Ghost.at_task a)).
  { intros a Ha. rewrite Forall_forall in Hq. apply Hq.
    rewrite Hsplit. apply in_or_app. left. rewrite <- Hbatch.
    apply (in_map (fun a => (Ghost.at_id a, Ghost.at_task a))). exact Ha. }
  rewrite Forall_forall in Hrec.
  constructor; rewrite ?Eq, ?Er, ?Et.
  - (* the indices *)
    rewrite !map_app, map_rev, map_map.
    change (fun x => fst (requeued x)) with (@fst nat Result).
    eapply Permutation_trans; [|exact Hids].
    rewrite Hsplit, map_app.
    set (outs := List.map Ghost.outcome atts).
    assert (Ho : List.map fst batch = List.map fst outs).
    { rewrite <- Hidb. unfold outs. rewrite map_map. reflexivity. }
    rewrite Ho.
    rewrite <- (Permutation_rev (List.map fst (filter retries outs))).
    rewrite <- !app_assoc.
    rewrite (Permutation_app_comm (List.map fst (Ghost.gresults st))).
    rewrite !app_assoc.
    apply Permutation_app_tail.
    rewrite <- !app_assoc.
    rewrite (Permutation_app_comm (List.map fst rest)).
    rewrite !app_assoc.
    apply Permutation_app_tail.
    rewrite <- map_app. apply Permutation_map, filter_split.
  - (* the queue *)
    apply Forall_app. split.
    + apply Forall_rev, Forall_map, Forall_forall. intros r Hr.
      apply filter_In in Hr. destruct Hr as [Hr Hre].
      apply in_map_iff in Hr. destruct Hr as (a & <- & Ha).
      apply waiting_requeued; auto.
    + apply Forall_forall. intros t Ht.
      apply waiting_untouched.
      * rewrite Hidb. intros Hin.
        eapply (NoDup_app_disjoint _ _ (fst t) NDq); [exact Hin|].
        apply in_map. exact Ht.
      * rewrite Forall_forall in Hq. apply Hq. rewrite Hsplit.
        apply in_or_app. right. exact Ht.
  - (* the results *)
    apply Forall_app. split.
    + apply Forall_forall. intros r Hr.
      apply resolved_untouched.
      * rewrite Hidb. intros Hin.
        eapply (NoDup_app_disjoint _ _ (fst r) ND).
        -- rewrite Hsplit, map_app. apply in_or_app. left. exact Hin.
        -- apply in_map. exact Hr.
      * rewrite Forall_forall in Hres. apply Hres. exact Hr.
    + apply Forall_forall. intros r Hr.
      apply filter_In in Hr. destruct Hr as [Hr Hre].
      apply in_map_iff in Hr. destruct Hr as (a & <- & Ha).
      apply negb_true_iff in Hre.
      apply resolved_pushed; auto.
  - (* the record *)
    apply Forall_app. split; [exact Htr|]. apply Forall_forall. exact Hrec.
  - (* the indices on record *)
    apply Forall_app. split; [exact Hkn|]. apply Forall_forall. intros a Ha.
    apply (in_seq (List.length coordinates) 0 (Ghost.at_id a)).
    eapply Permutation_in; [exact Hids|].
    apply in_or_app. left. rewrite Hsplit, map_app. apply in_or_app. left.
    rewrite <- Hidb. apply in_map. exact Ha.
Qed.

Lemma invariant_while coordinates batchSize fuel st st' :
  invariant host coordinates st -> Ghost.while host fuel batchSize st = Some st' ->
  invariant host coordinates st'.
Proof.
  revert st. induction fuel as [|fuel IH]; intros st Hi H; simpl in H.
  - destruct (Ghost.gqueue st); [|discriminate]. congruence.
  - destruct (Ghost.gqueue st); [congruence|].
    eapply IH; [|exact H]. apply invariant_iteration. exact Hi.
Qed.

End Invariant.

Lemma map_Some_inj {A} (l l' : list A) : List.map Some l = List.map Some l' -> l = l'.
Proof.
  revert l'. induction l as [|x l IH]; intros [|y l'] H; simpl in H;
    try reflexivity; try discriminate.
  inversion H. f_equal. apply IH. assumption.
Qed.

Section SchedulerClaims.

Variable host : Host.

Lemma run_finishes coordinates batchSize :
  0 < batchSize ?? 10 ->
  exists st,
    finished host coordinates batchSize st
    /\ Ghost.gqueue st = [] /\ invariant host coordinates st.
Proof.
  intros Hb.
  destruct (gwhile_terminates host (batchSize ?? 10)
              (6 * List.length coordinates) (Ghost.start coordinates) Hb) as [st Hst].
  { rewrite remaining_start. lia. }
  exists st. split; [|split].
  - intros fuel Hfuel.
    pose proof (gwhile_more_fuel host _ _ _ _ _ Hfuel Hst) as Hst'.
    split; [exact Hst'|].
    assert (W : while host fuel (batchSize ?? 10) (start coordinates)
                = Some (Ghost.erase st)).
    { rewrite <- erase_start, (erase_while host), Hst'. reflexivity. }
    split; [exact W|]. unfold runInBatches. rewrite W. reflexivity.
  - eapply gwhile_empties, Hst.
  - eapply invariant_while; [apply invariant_start|exact Hst].
Qed.

Lemma finished_resolved coordinates st i c :
  invariant host coordinates st -> Ghost.gqueue st = [] ->
  nth_error coordinates i = Some c ->
  exists r k before a,
    In (i, r) (Ghost.gresults st)
    /\ Ghost.attemptsOf i (Ghost.gtrace st) = before ++ [a]
    /\ Ghost.retried c k before
    /\ Ghost.at_task a = Ghost.task c k /\ Ghost.at_result a = r
    /\ coord r = Ghost.task c k /\ (k <= 5)%nat
    /\ (result_features r <> [] \/ k = 5%nat).
Proof.
  intros [Hids _ Hres _ _] Hq Hn.
  rewrite Hq in Hids. simpl in Hids.
  assert (Hi : In i (List.map fst (Ghost.gresults st))).
  { eapply Permutation_in; [apply Permutation_sym, Hids|].
    apply in_seq. split; [lia|]. simpl. apply nth_error_Some. congruence. }
  apply in_map_iff in Hi. destruct Hi as ([i' r] & Hfst & Hin). simpl in Hfst. subst i'.
  rewrite Forall_forall in Hres.
  destruct (Hres _ Hin) as (c' & k & before & a & Hn' & Hat & Hret & Ht & Hr & Hc & Hk & Hf).
  simpl in *. rewrite Hn in Hn'. inversion Hn'; subst c'.
  exists r, k, before, a. repeat split; auto; apply Hret.
Qed.

Lemma retried_tasks c k before a :
  Ghost.retried c k before -> Ghost.at_task a = Ghost.task c k ->
  List.map Ghost.at_task (before ++ [a]) = List.map (Ghost.task c) (seq 0 (S k)).
Proof.
  intros [Hm _] Ht. rewrite map_app, seq_S, map_app, Hm. simpl. rewrite Ht. reflexivity.
Qed.

Lemma attemptsOf_In i a trace :
  In a (Ghost.attemptsOf i trace) <-> In a trace /\ Ghost.at_id a = i.
Proof.
  unfold Ghost.attemptsOf. rewrite filter_In, Nat.eqb_eq. reflexivity.
Qed.

(** The batch body on a coordinate that does not parse. *)
Lemma batchPromise_malformed sent t :
  parseCoordinate (latitude (coordinate t)) = None
  \/ parseCoordinate (longitude (coordinate t)) = None ->
  batchPromise host sent t = ({| coord := t; result_features := [] |}, sent).
Proof.
  unfold batchPromise. intros [H|H]; rewrite H.
  - reflexivity.
  - destruct (parseCoordinate (latitude (coordinate t))); reflexivity.
Qed.

(** The batch body on a coordinate whose request is answered with a body. *)
Lemma batchPromise_answered sent t lat lon status body :
  parseCoordinate (latitude (coordinate t)) = Some lat ->
  parseCoordinate (longitude (coordinate t)) = Some lon ->
  fetch host sent (returnSearchParams (latLonToEnvelope host lat lon None)
                                      (mapLayerId t ?? 0))
  = Response true status (Some body) ->
  batchPromise host sent t
  = ({| coord := t; result_features := features body |},
     sent ++ [returnSearchParams (latLonToEnvelope host lat lon None)
                                 (mapLayerId t ?? 0)]).
Proof.
  intros Hlat Hlon Hf. unfold batchPromise, fetchDepthForEnvelope.
  rewrite Hlat, Hlon, Hf. reflexivity.
Qed.

Lemma requeueOrPush_cases q rs r :
  requeueOrPush (q, rs) r = (q, rs ++ [r])
  \/ (mapLayerId (coord r) ?? 0 < 5
      /\ requeueOrPush (q, rs) r
         = (withLayer (coordinate (coord r))
                      (Some (mapLayerId (coord r) ?? 0 + 1)) :: q, rs)).
Proof.
  unfold requeueOrPush.
  destruct (List.length (result_features r) =? 0)%nat; simpl; [|left; reflexivity].
  destruct (Z.ltb_spec (mapLayerId (coord r) ?? 0) 5); [right|left]; auto.
Qed.

(** With a batch size below one nothing is ever taken from the queue: the
    loop does not end on a queue that is not empty. *)
Lemma while_needs_a_batch fuel batchSize :
  batchSize <= 0 ->
  forall st, queue st <> [] -> while host fuel batchSize st = None.
Proof.
  intros Hb. induction fuel as [|fuel IH]; intros st Hq.
  - simpl. destruct (queue st); [contradiction|reflexivity].
  - simpl. destruct (queue st) as [|t q] eqn:E; [contradiction|].
    apply IH. unfold iteration.
    replace (Z.to_nat batchSize) with O by lia.
    simpl. rewrite E. discriminate.
Qed.

Lemma finished_results coordinates st :
  invariant host coordinates st -> Ghost.gqueue st = [] ->
  List.length (Ghost.gresults st) = List.length coordinates
  /\ Permutation (List.map (fun r => coordinate (coord r))
                           (List.map snd (Ghost.gresults st))) coordinates.
Proof.
  intros Hinv Hq.
  assert (Hp : Permutation (List.map (fun r => coordinate (coord r))
                              (List.map snd (Ghost.gresults st))) coordinates).
  { destruct Hinv as [Hids _ Hres _ _]. rewrite Hq in Hids. simpl in Hids.
    assert (E : List.map (fun r => Some (coordinate (coord r)))
                  (List.map snd (Ghost.gresults st))
                = List.map (nth_error coordinates) (List.map fst (Ghost.gresults st))).
    { rewrite !map_map. apply map_ext_in. intros [i r] Hin.
      rewrite Forall_forall in Hres.
      destruct (Hres _ Hin) as (c & k & _ & _ & Hn & _ & _ & _ & _ & Hc & _).
      simpl in *. rewrite Hn, Hc. reflexivity. }
    apply (Permutation_map (nth_error coordinates)) in Hids.
    rewrite <- E in Hids.
    assert (S : List.map (nth_error coordinates) (seq 0 (List.length coordinates))
                = List.map Some coordinates).
    { clear. induction coordinates as [|c cs IH]; [reflexivity|].
      simpl. f_equal. rewrite <- seq_shift, map_map. exact IH. }
    rewrite S in Hids.
    rewrite <- (map_map (fun r => coordinate (coord r)) Some) in Hids.
    apply Permutation_map_inv in Hids. destruct Hids as (l3 & E3 & P3).
    apply map_Some_inj in E3. rewrite E3. apply Permutation_sym, P3. }
  split; [|exact Hp].
  apply Permutation_length in Hp. rewrite !length_map in Hp. exact Hp.
Qed.

(** The page submits with batches of five: for every list of coordinates
    and every behaviour of the service it gets one result per coordinate. *)
Corollary handleSubmit_returns coordinates :
  exists results,
    (forall fuel, (6 * List.length coordinates <= fuel)%nat ->
                  handleSubmit host fuel coordinates = Some results)
    /\ List.length results = List.length coordinates.
Proof.
  destruct (run_finishes coordinates (Some MAX_CONCURRENT_REQUESTS) eq_refl)
    as (st & Hrun & Hq & Hinv).
  exists (List.map snd (Ghost.gresults st)). split.
  - intros fuel Hfuel. apply (Hrun fuel Hfuel).
  - rewrite length_map. apply (finished_results _ _ Hinv Hq).
Qed.

(** C3: for every list of N coordinates, [runInBatches] returns (given
    fuel for six iterations per coordinate, or more) a list of exactly N
    results whose coordinates are, as a multiset, the input coordinates;
    the order may differ.  This holds whatever the service answers and
    whether or not the coordinates parse, for every batch size of at least
    one (the page passes 5, the default is 10). *)
Theorem runInBatches_one_result_per_coordinate coordinates batchSize :
  0 < batchSize ?? 10 ->
  exists results,
    (forall fuel, (6 * List.length coordinates <= fuel)%nat ->
                  runInBatches host fuel coordinates batchSize = Some results)
    /\ List.length results = List.length coordinates
    /\ Permutation (List.map (fun r => coordinate (coord r)) results) coordinates.
Proof.
  intros Hb. destruct (run_finishes coordinates batchSize Hb) as (st & Hrun & Hq & Hinv).
  exists (List.map snd (Ghost.gresults st)).
  split; [intros fuel Hfuel; apply (Hrun fuel Hfuel)|].
  rewrite length_map. apply finished_results; assumption.
Qed.

(** C1, as amended: every input coordinate is attempted at the consecutive
    layers 0, 1, ..., k for some k <= 5, so the layer index grows by one per
    retry and stays within 0..5; a coordinate all of whose attempts come
    back without features is attempted exactly six times, at layers 0 to 5,
    and then gets its terminal result, with no features, at layer 5. *)
Theorem layer_attempts_zero_to_five coordinates batchSize :
  0 < batchSize ?? 10 ->
  exists st,
    finished host coordinates batchSize st
    /\ forall i c, nth_error coordinates i = Some c ->
         exists k,
           (k <= 5)%nat
           /\ List.map Ghost.at_task (Ghost.attemptsOf i (Ghost.gtrace st))
              = List.map (Ghost.task c) (seq 0 (S k))
           /\ (Forall Ghost.empty (Ghost.attemptsOf i (Ghost.gtrace st)) ->
               k = 5%nat
               /\ In (i, {| coord := Ghost.task c 5; result_features := [] |})
                     (Ghost.gresults st)).
Proof.
  intros Hb. destruct (run_finishes coordinates batchSize Hb) as (st & Hrun & Hq & Hinv).
  exists st. split; [exact Hrun|].
  intros i c Hn.
  destruct (finished_resolved _ _ _ _ Hinv Hq Hn)
    as (r & k & before & a & Hin & Hat & Hret & Ht & Hr & Hc & Hk & Hf).
  exists k. split; [exact Hk|]. split.
  - rewrite Hat. apply retried_tasks; assumption.
  - intros Hall. rewrite Hat in Hall. apply Forall_app in Hall.
    destruct Hall as [_ Ha]. inversion Ha as [|? ? He _]; subst.
    unfold Ghost.empty in He.
    destruct Hf as [Hf|Hf]; [contradiction|]. subst k.
    split; [reflexivity|].
    destruct (Ghost.at_result a) as [rc rf] eqn:Er. simpl in *. subst. exact Hin.
Qed.

(** C2, as amended: a coordinate whose latitude or longitude does not
    parse never causes a request (each of its attempts leaves the requests
    sent unchanged) and each of its attempts comes back without features;
    it goes through the same retry rule as any such outcome: it is taken
    from the queue six times, at layers 0 to 5, and its terminal result,
    with no features, is pushed at layer 5. *)
Theorem malformed_coordinate_takes_six_turns coordinates batchSize :
  0 < batchSize ?? 10 ->
  exists st,
    finished host coordinates batchSize st
    /\ forall i c, nth_error coordinates i = Some c ->
         parseCoordinate (latitude c) = None
         \/ parseCoordinate (longitude c) = None ->
         List.map Ghost.at_task (Ghost.attemptsOf i (Ghost.gtrace st))
         = List.map (Ghost.task c) (seq 0 6)
         /\ Forall (fun a => Ghost.at_sent' a = Ghost.at_sent a /\ Ghost.empty a)
                   (Ghost.attemptsOf i (Ghost.gtrace st))
         /\ In (i, {| coord := Ghost.task c 5; result_features := [] |})
               (Ghost.gresults st).
Proof.
  intros Hb. destruct (run_finishes coordinates batchSize Hb) as (st & Hrun & Hq & Hinv).
  exists st. split; [exact Hrun|].
  intros i c Hn Hbad.
  destruct (finished_resolved _ _ _ _ Hinv Hq Hn)
    as (r & k & before & a & Hin & Hat & Hret & Ht & Hr & Hc & Hk & Hf).
  pose proof (retried_tasks c k before a Hret Ht) as Htasks. rewrite <- Hat in Htasks.
  assert (Hall : Forall (fun a => Ghost.at_sent' a = Ghost.at_sent a /\ Ghost.empty a)
                        (Ghost.attemptsOf i (Ghost.gtrace st))).
  { apply Forall_forall. intros b Hb'.
    assert (Hrec : Ghost.recorded host b).
    { destruct Hinv as [_ _ _ Htr _]. rewrite Forall_forall in Htr.
      apply Htr. apply attemptsOf_In in Hb'. apply Hb'. }
    assert (Hcb : coordinate (Ghost.at_task b) = c).
    { apply (in_map Ghost.at_task) in Hb'. rewrite Htasks in Hb'.
      apply in_map_iff in Hb'. destruct Hb' as (j & <- & _). reflexivity. }
    unfold Ghost.recorded in Hrec.
    rewrite batchPromise_malformed in Hrec by (rewrite Hcb; exact Hbad).
    inversion Hrec as [[Hres Hsent]]. unfold Ghost.empty. rewrite <- Hres. auto. }
  assert (Hk5 : k = 5%nat).
  { destruct Hf as [Hf|Hf]; [|exact Hf]. exfalso. apply Hf.
    rewrite Hat in Hall. apply Forall_app in Hall. destruct Hall as [_ Ha].
    inversion Ha as [|? ? [_ He] _]; subst. exact He. }
  subst k. split; [exact Htasks|]. split; [exact Hall|].
  rewrite Hat in Hall. apply Forall_app in Hall. destruct Hall as [_ Ha].
  inversion Ha as [|? ? [_ He] _]; subst. unfold Ghost.empty in He.
  destruct (Ghost.at_result a) as [rc rf] eqn:Er. simpl in *. subst. exact Hin.
Qed.

(** C4: whenever an attempt's request is answered with a body whose
    feature list is not empty, the result pairing that task with exactly
    those features is in the output list, and that attempt is the last one
    made for its coordinate. *)
Theorem features_found_are_final coordinates batchSize :
  0 < batchSize ?? 10 ->
  exists st,
    finished host coordinates batchSize st
    /\ forall a lat lon status body,
         In a (Ghost.gtrace st) ->
         parseCoordinate (latitude (coordinate (Ghost.at_task a))) = Some lat ->
         parseCoordinate (longitude (coordinate (Ghost.at_task a))) = Some lon ->
         fetch host (Ghost.at_sent a)
               (returnSearchParams (latLonToEnvelope host lat lon None)
                                   (mapLayerId (Ghost.at_task a) ?? 0))
         = Response true status (Some body) ->
         features body <> [] ->
         In (Ghost.at_id a,
             {| coord := Ghost.at_task a; result_features := features body |})
            (Ghost.gresults st)
         /\ exists before,
              Ghost.attemptsOf (Ghost.at_id a) (Ghost.gtrace st) = before ++ [a].
Proof.
  intros Hb. destruct (run_finishes coordinates batchSize Hb) as (st & Hrun & Hq & Hinv).
  exists st. split; [exact Hrun|].
  intros a lat lon status body Ha Hlat Hlon Hfetch Hne.
  assert (Hrec : Ghost.recorded host a).
  { destruct Hinv as [_ _ _ Htr _]. rewrite Forall_forall in Htr. apply Htr, Ha. }
  unfold Ghost.recorded in Hrec.
  rewrite (batchPromise_answered _ _ _ _ _ _ Hlat Hlon Hfetch) in Hrec.
  inversion Hrec as [[Hres Hsent]].
  assert (Hid : (Ghost.at_id a < List.length coordinates)%nat).
  { destruct Hinv as [_ _ _ _ Hkn]. rewrite Forall_forall in Hkn. apply Hkn, Ha. }
  destruct (nth_error coordinates (Ghost.at_id a)) as [c|] eqn:Hn;
    [|apply nth_error_None in Hn; lia].
  destruct (finished_resolved _ _ _ _ Hinv Hq Hn)
    as (r & k & before & a' & Hin & Hat & [_ Hemp] & Ht & Hr & Hc & Hk & Hf).
  assert (Hmem : In a (before ++ [a'])).
  { rewrite <- Hat. apply attemptsOf_In. auto. }
  apply in_app_or in Hmem. destruct Hmem as [Hmem|[Hmem|[]]].
  - exfalso. rewrite Forall_forall in Hemp. specialize (Hemp _ Hmem).
    unfold Ghost.empty in Hemp. rewrite <- Hres in Hemp. simpl in Hemp. contradiction.
  - subst a'. split; [|exists before; exact Hat].
    rewrite Hres, Hr. exact Hin.
Qed.

(** C5: the loop body either pushes a result or requeues its coordinate
    with the layer increased by exactly one, the latter only while the
    layer is below 5; for every input list the loop ends, with an empty
    queue, within six iterations per coordinate, and no coordinate is
    taken from the queue more than six times. *)
Theorem runInBatches_terminates coordinates batchSize :
  0 < batchSize ?? 10 ->
  (forall q rs r,
      requeueOrPush (q, rs) r = (q, rs ++ [r])
      \/ (mapLayerId (coord r) ?? 0 < 5
          /\ requeueOrPush (q, rs) r
             = (withLayer (coordinate (coord r))
                          (Some (mapLayerId (coord r) ?? 0 + 1)) :: q, rs)))
  /\ exists st,
       finished host coordinates batchSize st
       /\ queue (Ghost.erase st) = []
       /\ forall i, (List.length (Ghost.attemptsOf i (Ghost.gtrace st)) <= 6)%nat.
Proof.
  intros Hb. split; [apply requeueOrPush_cases|].
  destruct (run_finishes coordinates batchSize Hb) as (st & Hrun & Hq & Hinv).
  exists st. split; [exact Hrun|]. split.
  - simpl. rewrite Hq. reflexivity.
  - intros i. destruct (nth_error coordinates i) as [c|] eqn:Hn.
    + destruct (finished_resolved _ _ _ _ Hinv Hq Hn)
        as (r & k & before & a & Hin & Hat & Hret & Ht & Hr & Hc & Hk & Hf).
      pose proof (retried_tasks c k before a Hret Ht) as Htasks. rewrite <- Hat in Htasks.
      apply (f_equal (@List.length _)) in Htasks.
      rewrite !length_map, length_seq in Htasks. lia.
    + destruct (Ghost.attemptsOf i (Ghost.gtrace st)) as [|a l] eqn:E; [simpl; lia|].
      assert (Ha : In a (Ghost.attemptsOf i (Ghost.gtrace st))) by (rewrite E; left; auto).
      apply attemptsOf_In in Ha. destruct Ha as [Ha Hid].
      destruct Hinv as [_ _ _ _ Hkn]. rewrite Forall_forall in Hkn.
      specialize (Hkn _ Ha). apply nth_error_None in Hn. lia.
Qed.

End SchedulerClaims.

Lemma runInBatches_one_result_per_coordinate_witness :
  0 < Some MAX_CONCURRENT_REQUESTS ?? 10
  /\ exists results,
       (forall fuel, (6 * List.length [belem; malformed] <= fuel)%nat ->
                     runInBatches noDataHost fuel [belem; malformed]
                                  (Some MAX_CONCURRENT_REQUESTS) = Some results)
       /\ List.length results = List.length [belem; malformed]
       /\ Permutation (List.map (fun r => coordinate (coord r)) results)
                      [belem; malformed].
Proof.
  split; [reflexivity|].
  apply (runInBatches_one_result_per_coordinate noDataHost
           [belem; malformed] (Some MAX_CONCURRENT_REQUESTS)).
  reflexivity.
Defined.

Lemma layer_attempts_zero_to_five_witness :
  0 < Some MAX_CONCURRENT_REQUESTS ?? 10
  /\ exists st,
       finished noDataHost [belem; malformed] (Some MAX_CONCURRENT_REQUESTS) st
       /\ forall i c, nth_error [belem; malformed] i = Some c ->
            exists k,
              (k <= 5)%nat
              /\ List.map Ghost.at_task (Ghost.attemptsOf i (Ghost.gtrace st))
                 = List.map (Ghost.task c) (seq 0 (S k))
              /\ (Forall Ghost.empty (Ghost.attemptsOf i (Ghost.gtrace st)) ->
                  k = 5%nat
                  /\ In (i, {| coord := Ghost.task c 5; result_features := [] |})
                        (Ghost.gresults st)).
Proof.
  split; [reflexivity|].
  apply (layer_attempts_zero_to_five noDataHost [belem; malformed]
           (Some MAX_CONCURRENT_REQUESTS)).
  reflexivity.
Defined.

Lemma malformed_coordinate_takes_six_turns_witness :
  0 < Some 1 ?? 10
  /\ exists st,
       finished noDataHost [belem; malformed] (Some 1) st
       /\ forall i c, nth_error [belem; malformed] i = Some c ->
            parseCoordinate (latitude c) = None
            \/ parseCoordinate (longitude c) = None ->
            List.map Ghost.at_task (Ghost.attemptsOf i (Ghost.gtrace st))
            = List.map (Ghost.task c) (seq 0 6)
            /\ Forall (fun a => Ghost.at_sent' a = Ghost.at_sent a /\ Ghost.empty a)
                      (Ghost.attemptsOf i (Ghost.gtrace st))
            /\ In (i, {| coord := Ghost.task c 5; result_features := [] |})
                  (Ghost.gresults st).
Proof.
  split; [reflexivity|].
  apply (malformed_coordinate_takes_six_turns noDataHost [belem; malformed] (Some 1)).
  reflexivity.
Defined.

Lemma features_found_are_final_witness :
  0 < None ?? 10
  /\ exists st,
       finished depthHost [belem; malformed] None st
       /\ forall a lat lon status body,
            In a (Ghost.gtrace st) ->
            parseCoordinate (latitude (coordinate (Ghost.at_task a))) = Some lat ->
            parseCoordinate (longitude (coordinate (Ghost.at_task a))) = Some lon ->
            fetch depthHost (Ghost.at_sent a)
                  (returnSearchParams (latLonToEnvelope depthHost lat lon None)
                                      (mapLayerId (Ghost.at_task a) ?? 0))
            = Response true status (Some body) ->
            features body <> [] ->
            In (Ghost.at_id a,
                {| coord := Ghost.at_task a; result_features := features body |})
               (Ghost.gresults st)
            /\ exists before,
                 Ghost.attemptsOf (Ghost.at_id a) (Ghost.gtrace st) = before ++ [a].
Proof.
  split; [reflexivity|].
  apply (features_found_are_final depthHost [belem; malformed] None).
  reflexivity.
Defined.

Lemma runInBatches_terminates_witness :
  0 < Some MAX_CONCURRENT_REQUESTS ?? 10
  /\ (forall q rs r,
         requeueOrPush (q, rs) r = (q, rs ++ [r])
         \/ (mapLayerId (coord r) ?? 0 < 5
             /\ requeueOrPush (q, rs) r
                = (withLayer (coordinate (coord r))
                             (Some (mapLayerId (coord r) ?? 0 + 1)) :: q, rs)))
  /\ exists st,
       finished depthHost [belem; malformed] (Some MAX_CONCURRENT_REQUESTS) st
       /\ queue (Ghost.erase st) = []
       /\ forall i, (List.length (Ghost.attemptsOf i (Ghost.gtrace st)) <= 6)%nat.
Proof.
  split; [reflexivity|].
  apply (runInBatches_terminates depthHost [belem; malformed]
           (Some MAX_CONCURRENT_REQUESTS)).
  reflexivity.
Defined.

(** The scenario of a depth found on layer 2 after two layers without
    data: three requests, and the result carries that reading. *)
Example depth_found_on_layer_two :
  exists st,
    while depthHost 3 MAX_CONCURRENT_REQUESTS (start [belem]) = Some st
    /\ List.map layer (sent st) = [0; 1; 2]
    /\ results st = [ {| coord := withLayer belem (Some 2);
                         result_features := features depthReading |} ].
Proof. eexists. split; [vm_compute; reflexivity|]. split; reflexivity. Qed.

(** Against C1 as stated: for a single coordinate that parses and a
    service that never has data, a sixth request is sent, at layer 5, and
    the result is pushed at layer 5: the layer does not stay below 5. *)
Lemma sixth_attempt_at_layer_five :
  exists st,
    while noDataHost 6 MAX_CONCURRENT_REQUESTS (start [belem]) = Some st
    /\ List.map layer (sent st) = [0; 1; 2; 3; 4; 5]
    /\ results st = [ {| coord := withLayer belem (Some 5); result_features := [] |} ]
    /\ ~ Forall (fun p => 0 <= layer p < 5) (sent st).
Proof.
  eexists. split; [vm_compute; reflexivity|]. cbv [sent results].
  split; [reflexivity|]. split; [reflexivity|].
  intros H. rewrite Forall_forall in H.
  specialize (H (returnSearchParams
                   (latLonToEnvelope noDataHost (-2.21)%float (-47.43)%float None) 5)).
  simpl in H.
  assert (5 < 5); [|lia].
  apply H. do 5 right. left. vm_compute. reflexivity.
Qed.

(** Against C2 as stated: the first time a coordinate that does not parse
    is taken from the queue no result is pushed and the coordinate goes
    back to the queue at layer 1; its result comes with the sixth
    iteration, not before. *)
Lemma malformed_coordinate_is_requeued :
  iteration noDataHost 1 (start [malformed])
  = {| queue := [withLayer malformed (Some 1)]; results := []; sent := [];
       slept := [BATCH_DELAY] |}
  /\ runInBatches noDataHost 5 [malformed] (Some 1) = None
  /\ runInBatches noDataHost 6 [malformed] (Some 1)
     = Some [ {| coord := withLayer malformed (Some 5); result_features := [] |} ].
Proof. repeat split; vm_compute; reflexivity. Qed.

(* ===================================================================== *)
(** * Properties of the pattern matcher                                  *)
(* ===================================================================== *)

Lemma sem_quant_zero r lo w c c' :
  sem (RQuant r lo (Some O)) w c c' = (lo = O /\ w = [] /\ c' = c).
Proof. reflexivity. Qed.

Lemma sem_quant_succ r lo n w c c' :
  sem (RQuant r lo (Some (S n))) w c c'
  = ((lo = O /\ w = [] /\ c' = c)
     \/ exists w1 w2 c1,
          w = w1 ++ w2
          /\ sem r w1 (clearCaptures (groupsOf r) c) c1
          /\ sem (RQuant r (Nat.pred lo) (Some n)) w2 c1 c').
Proof. reflexivity. Qed.

Lemma sem_quant_unbounded r lo w c c' :
  sem (RQuant r lo None) w c c' = exists n, sem (RQuant r lo (Some n)) w c c'.
Proof. reflexivity. Qed.

Section Soundness.

Context {R : Type}.

Lemma rmatch_quant_zero r lo s c (k : @continuation R) :
  rmatch (RQuant r lo (Some O)) s c k = match lo with O => k s c | S _ => None end.
Proof. reflexivity. Qed.

Lemma rmatch_quant_owed r lo n s c (k : @continuation R) :
  rmatch (RQuant r (S lo) (Some (S n))) s c k
  = rmatch r s (clearCaptures (groupsOf r) c)
      (fun s' c' => rmatch (RQuant r lo (Some n)) s' c' k).
Proof. reflexivity. Qed.

Lemma rmatch_quant_more r n s c (k : @continuation R) :
  rmatch (RQuant r O (Some (S n))) s c k
  = match rmatch r s (clearCaptures (groupsOf r) c)
            (fun s' c' =>
               if Nat.eqb (List.length s') (List.length s) then None
               else rmatch (RQuant r O (Some n)) s' c' k) with
    | Some res => Some res
    | None => k s c
    end.
Proof. reflexivity. Qed.

Lemma rmatch_quant_unbounded r lo s c (k : @continuation R) :
  rmatch (RQuant r lo None) s c k
  = rmatch (RQuant r lo (Some (lo + List.length s)%nat)) s c k.
Proof. reflexivity. Qed.

Lemma rmatch_sound r :
  forall s c (k : @continuation R) x,
    rmatch r s c k = Some x ->
    exists w s' c', s = w ++ s' /\ sem r w c c' /\ k s' c' = Some x.
Proof.
  induction r as [p|r1 IH1 r2 IH2|r1 IH1 lo hi|i r1 IH1]; intros s c k x H.
  - (* a character *)
    simpl in H. destruct s as [|y s]; [discriminate|].
    destruct (p y) eqn:Hp; [|discriminate].
    exists [y], s, c. simpl. eauto 6.
  - (* a sequence *)
    simpl in H. apply IH1 in H. destruct H as (w1 & s1 & c1 & -> & S1 & H).
    apply IH2 in H. destruct H as (w2 & s2 & c2 & -> & S2 & H).
    exists (w1 ++ w2), s2, c2. rewrite app_assoc. split; [reflexivity|].
    split; [|exact H]. simpl. eauto 8.
  - (* a repetition *)
    assert (B : forall n lo s c x,
               rmatch (RQuant r1 lo (Some n)) s c k = Some x ->
               exists w s' c', s = w ++ s'
                 /\ sem (RQuant r1 lo (Some n)) w c c' /\ k s' c' = Some x).
    { clear H. induction n as [|n IHn]; intros lo' s' c' x' H.
      - rewrite rmatch_quant_zero in H. destruct lo'; [|discriminate].
        exists [], s', c'. split; [reflexivity|]. split; [|exact H].
        rewrite sem_quant_zero. auto.
      - destruct lo' as [|lo'].
        + rewrite rmatch_quant_more in H.
          destruct (rmatch r1 s' _ _) as [res|] eqn:E.
          * inversion H; subst res. apply IH1 in E.
            destruct E as (w1 & s1 & c1 & -> & S1 & E).
            destruct (Nat.eqb _ _); [discriminate|].
            apply IHn in E. destruct E as (w2 & s2 & c2 & -> & S2 & E).
            exists (w1 ++ w2), s2, c2. rewrite app_assoc. split; [reflexivity|].
            split; [|exact E]. rewrite sem_quant_succ.
            right. exists w1, w2, c1. auto.
          * exists [], s', c'. split; [reflexivity|]. split; [|exact H].
            rewrite sem_quant_succ. left. auto.
        + rewrite rmatch_quant_owed in H. apply IH1 in H.
          destruct H as (w1 & s1 & c1 & -> & S1 & E).
          apply IHn in E. destruct E as (w2 & s2 & c2 & -> & S2 & E).
          exists (w1 ++ w2), s2, c2. rewrite app_assoc. split; [reflexivity|].
          split; [|exact E]. rewrite sem_quant_succ.
          right. exists w1, w2, c1. auto. }
    destruct hi as [h|].
    + apply B, H.
    + rewrite rmatch_quant_unbounded in H. apply B in H.
      destruct H as (w & s' & c' & Hs & S & E). exists w, s', c'.
      split; [exact Hs|]. split; [|exact E].
      rewrite sem_quant_unbounded. eauto.
  - (* a group *)
    simpl in H. apply IH1 in H. destruct H as (w & s' & c1 & -> & S1 & H).
    rewrite length_app, Nat.add_sub in H.
    rewrite firstn_app, Nat.sub_diag, firstn_all, firstn_O, app_nil_r in H.
    exists w, s', (setCapture i (Some w) c1). simpl. eauto.
Qed.

End Soundness.

Lemma rmatch_whole_sound r s text m :
  rmatch r s noCaptures
    (fun s' c => Some (firstn (List.length s - List.length s') s, c))
  = Some (text, m) ->
  exists after, s = text ++ after /\ sem r text noCaptures m.
Proof.
  intros E. apply rmatch_sound in E.
  destruct E as (w & s' & c' & Hs & S & E).
  rewrite Hs, length_app, Nat.add_sub in E.
  rewrite firstn_app, Nat.sub_diag, firstn_all, firstn_O, app_nil_r in E.
  inversion E; subst. exists s'. split; [reflexivity|exact S].
Qed.

Lemma exec_eq r s :
  exec r s
  = match rmatch r s noCaptures
            (fun s' c => Some (firstn (List.length s - List.length s') s, c)) with
    | Some m => Some m
    | None => match s with
              | [] => None
              | _ :: s' => exec r s'
              end
    end.
Proof. destruct s; reflexivity. Qed.

Lemma exec_sound r s text m :
  exec r s = Some (text, m) ->
  exists before after, s = before ++ text ++ after /\ sem r text noCaptures m.
Proof.
  induction s as [|x s IH]; rewrite exec_eq; intros H.
  - destruct (rmatch r [] noCaptures _) as [res|] eqn:E; [|discriminate].
    inversion H; subst res. apply rmatch_whole_sound in E.
    destruct E as (after & Hs & S). exists [], after. auto.
  - destruct (rmatch r (x :: s) noCaptures _) as [res|] eqn:E.
    + inversion H; subst res. apply rmatch_whole_sound in E.
      destruct E as (after & Hs & S). exists [], after. auto.
    + apply IH in H. destruct H as (before & after & -> & S).
      exists (x :: before), after. split; [reflexivity|exact S].
Qed.

(** ** What the parts of the pattern match *)

Lemma sem_lit x w c c' : sem (lit x) w c c' -> w = [x] /\ c' = c.
Proof.
  intros (y & -> & Hy & ->). apply N.eqb_eq in Hy. subst. auto.
Qed.

Lemma sem_class p lo n w c c' :
  sem (RQuant (RChar p) lo (Some n)) w c c' ->
  Forall (fun x => p x = true) w /\ (lo <= List.length w <= n)%nat /\ c' = c.
Proof.
  revert lo w c. induction n as [|n IH]; intros lo w c H.
  - rewrite sem_quant_zero in H. destruct H as (-> & -> & ->). simpl. auto.
  - rewrite sem_quant_succ in H. destruct H as [(-> & -> & ->)|H].
    + simpl. repeat split; auto; lia.
    + destruct H as (w1 & w2 & c1 & -> & (x & -> & Hx & ->) & H).
      apply IH in H. destruct H as (Hall & Hlen & ->).
      simpl. repeat split; auto; lia.
Qed.

Lemma sem_class_unbounded p lo w c c' :
  sem (RQuant (RChar p) lo None) w c c' ->
  Forall (fun x => p x = true) w /\ (lo <= List.length w)%nat /\ c' = c.
Proof.
  rewrite sem_quant_unbounded. intros (n & H). apply sem_class in H.
  destruct H as (Ha & Hl & Hc). repeat split; auto; lia.
Qed.

Lemma sem_opt r w c c' :
  sem (opt r) w c c' ->
  (w = [] /\ c' = c) \/ sem r w (clearCaptures (groupsOf r) c) c'.
Proof.
  unfold opt. rewrite sem_quant_succ. intros [(_ & -> & ->)|H]; [left; auto|].
  destruct H as (w1 & w2 & c1 & -> & H1 & H2).
  rewrite sem_quant_zero in H2. destruct H2 as (_ & -> & ->).
  rewrite app_nil_r. right. exact H1.
Qed.

Lemma sem_hemisphere w c c' :
  sem (oneOfIgnoreCase (str "NSEW")) w c c' ->
  exists h, w = [h] /\ hemisphere h /\ c' = c.
Proof.
  intros (h & -> & Hh & ->). exists h. split; [reflexivity|]. split; [|reflexivity].
  unfold hemisphere. simpl in Hh.
  unfold cu_eqb in Hh.
  destruct ((97 <=? Z.of_N h) && (Z.of_N h <=? 122)) eqn:E.
  - rewrite !orb_true_iff, !N.eqb_eq in Hh. simpl. 
    apply andb_prop in E. destruct E as [E1 E2]. apply Z.leb_le in E1, E2.
    destruct Hh as [H|[H|[H|[H|H]]]]; try discriminate;
      [do 4 right; left|do 5 right; left|do 6 right; left|do 7 right; left]; lia.
  - rewrite !orb_true_iff, !N.eqb_eq in Hh. simpl.
    destruct Hh as [H|[H|[H|[H|H]]]]; try discriminate; subst; auto 6.
Qed.

Lemma sem_seconds w c c' :
  sem (rep digit 1 2 · opt (lit fullStop · plus digit))%re w c c' ->
  secondsText w /\ c' = c.
Proof.
  intros (s & f & c1 & -> & Hs & Hf).
  apply sem_class in Hs. destruct Hs as (Hs & Hls & ->).
  apply sem_opt in Hf. destruct Hf as [(-> & ->)|Hf].
  - split; [|reflexivity]. exists s, []. rewrite app_nil_r. auto.
  - destruct Hf as (w1 & w2 & c2 & -> & Hdot & Hfd).
    apply sem_lit in Hdot. destruct Hdot as (-> & ->).
    apply sem_class_unbounded in Hfd. destruct Hfd as (Hfd & Hl & ->).
    split; [|reflexivity]. exists s, (fullStop :: w2).
    split; [reflexivity|]. split; [exact Hs|]. split; [exact Hls|].
    right. exists w2. split; [reflexivity|]. split; [exact Hfd|].
    intros ->. simpl in Hl. lia.
Qed.

Lemma coordinateRegex_sem text m :
  sem coordinateRegex text noCaptures m -> coordinateMatch text m.
Proof.
  unfold coordinateRegex.
  intros (w1 & r1 & c1 & -> & (c1' & Hd & ->) & H).
  apply sem_class in Hd. destruct Hd as (Hd & Hdl & ->).
  destruct H as (w2 & r2 & c2 & -> & Hdeg & H).
  apply sem_lit in Hdeg. destruct Hdeg as (-> & ->).
  destruct H as (w3 & r3 & c3 & -> & Hws & H).
  apply sem_class_unbounded in Hws. destruct Hws as (Hws & _ & ->).
  destruct H as (w4 & r4 & c4 & -> & (c4' & Hm & ->) & H).
  apply sem_class in Hm. destruct Hm as (Hm & Hml & ->).
  destruct H as (w5 & r5 & c5 & -> & Hap & H).
  destruct H as (w6 & r6 & c6 & -> & Hsec & H).
  destruct H as (w7 & w8 & c7 & -> & Hq & (c8 & Hh & ->)).
  apply sem_hemisphere in Hh. destruct Hh as (h & -> & Hh & ->).
  assert (Hap' : (w5 = [] \/ w5 = [apostrophe]) /\ c5 = 
            setCapture 2 (Some w4) (setCapture 1 (Some w1) noCaptures)).
  { apply sem_opt in Hap. destruct Hap as [(-> & ->)|Hap]; [auto|].
    apply sem_lit in Hap. destruct Hap as (-> & ->). auto. }
  destruct Hap' as (Hap' & ->).
  assert (Hq' : (w7 = [] \/ w7 = [quotationMark]) /\ c7 = c6).
  { apply sem_opt in Hq. destruct Hq as [(-> & ->)|Hq]; [auto|].
    apply sem_lit in Hq. destruct Hq as (-> & ->). auto. }
  destruct Hq' as (Hq' & ->).
  apply sem_opt in Hsec.
  destruct Hsec as [(-> & ->)|(c6' & Hsec & ->)].
  - exists w1, w3, w4, w5, w7, h. repeat split; auto; lia.
  - apply sem_seconds in Hsec. destruct Hsec as (Hsec & ->).
    exists w1, w3, w4, w5, w7, h. repeat split; auto; lia.
Qed.

Section Greedy.

Context {R : Type}.

Lemma rmatch_lit x rest c (k : @continuation R) :
  rmatch (lit x) (x :: rest) c k = k rest c.
Proof. simpl. unfold cu_eqb. rewrite N.eqb_refl. reflexivity. Qed.

Lemma rmatch_lit_other x y rest c (k : @continuation R) :
  x <> y -> rmatch (lit x) (y :: rest) c k = None.
Proof.
  intros H. simpl. unfold cu_eqb.
  destruct (N.eqb_spec x y); [contradiction|reflexivity].
Qed.

(** A greedy repetition of a class takes the whole run of the class. *)
Lemma rmatch_class_greedy p w :
  forall lo n rest c (k : @continuation R) x,
    Forall (fun y => p y = true) w ->
    (lo <= List.length w <= n)%nat ->
    stopsAt p rest \/ List.length w = n ->
    k rest c = Some x ->
    rmatch (RQuant (RChar p) lo (Some n)) (w ++ rest) c k = Some x.
Proof.
  induction w as [|a w IH]; intros lo n rest c k x Hall Hlen Hstop Hk.
  - simpl in Hlen. assert (lo = O) by lia. subst lo. cbn [app].
    destruct n as [|n]; [rewrite rmatch_quant_zero; exact Hk|].
    rewrite rmatch_quant_more.
    destruct Hstop as [Hstop|Hstop]; [|simpl in Hstop; lia].
    destruct rest as [|y rest]; simpl; [exact Hk|].
    simpl in Hstop. rewrite Hstop. exact Hk.
  - inversion Hall as [|? ? Ha Hall']; subst.
    destruct n as [|n]; [simpl in Hlen; lia|].
    assert (Hnext : rmatch (RQuant (RChar p) (Nat.pred lo) (Some n)) (w ++ rest) c k
                    = Some x).
    { apply IH; auto.
      - simpl in Hlen. lia.
      - destruct Hstop as [Hstop|Hstop]; [left; exact Hstop|right].
        simpl in Hstop. lia. }
    destruct lo as [|lo].
    + rewrite rmatch_quant_more. cbn [rmatch app]. rewrite Ha.
      cbn [groupsOf clearCaptures fold_left].
      replace (Nat.eqb (List.length (w ++ rest)) (List.length (a :: w ++ rest)))
        with false by (symmetry; apply Nat.eqb_neq; simpl; lia).
      simpl in Hnext. rewrite Hnext. reflexivity.
    + rewrite rmatch_quant_owed. cbn [rmatch app]. rewrite Ha. exact Hnext.
Qed.

Lemma rmatch_class_greedy_unbounded p w lo rest c (k : @continuation R) x :
  Forall (fun y => p y = true) w ->
  (lo <= List.length w)%nat ->
  stopsAt p rest ->
  k rest c = Some x ->
  rmatch (RQuant (RChar p) lo None) (w ++ rest) c k = Some x.
Proof.
  intros Hall Hlen Hstop Hk. rewrite rmatch_quant_unbounded.
  apply rmatch_class_greedy; auto. rewrite length_app. lia.
Qed.

Lemma rmatch_opt r s c (k : @continuation R) :
  rmatch (opt r) s c k
  = match rmatch r s (clearCaptures (groupsOf r) c)
            (fun s' c' => if Nat.eqb (List.length s') (List.length s) then None
                          else k s' c') with
    | Some res => Some res
    | None => k s c
    end.
Proof. reflexivity. Qed.

(** An optional part is taken when taking it leads to a match. *)
Lemma rmatch_opt_taken r s c (k : @continuation R) x :
  rmatch r s (clearCaptures (groupsOf r) c)
    (fun s' c' => if Nat.eqb (List.length s') (List.length s) then None
                  else k s' c') = Some x ->
  rmatch (opt r) s c k = Some x.
Proof. intros H. rewrite rmatch_opt, H. reflexivity. Qed.

(** It is skipped when it cannot be matched at all. *)
Lemma rmatch_opt_skipped r s c (k : @continuation R) :
  (forall k' : @continuation R, rmatch r s (clearCaptures (groupsOf r) c) k' = None) ->
  rmatch (opt r) s c k = k s c.
Proof. intros H. rewrite rmatch_opt, H. reflexivity. Qed.

End Greedy.

Lemma firstn_length_app {A} (w rest : list A) :
  firstn (List.length (w ++ rest) - List.length rest) (w ++ rest) = w.
Proof.
  rewrite length_app, Nat.add_sub, firstn_app, Nat.sub_diag, firstn_all, firstn_O.
  apply app_nil_r.
Qed.

Lemma hemisphere_class h :
  hemisphere h ->
  existsb (fun u => match toUpperCase [h] with
                    | [c'] => cu_eqb c' u
                    | _ => false
                    end) (str "NSEW") = true.
Proof.
  unfold hemisphere. simpl.
  intros [<-|[<-|[<-|[<-|[<-|[<-|[<-|[<-|[]]]]]]]]]; reflexivity.
Qed.

Lemma digit_not_white c : isDigit c = true -> isWhiteSpace c = false.
Proof.
  unfold isDigit, isWhiteSpace. intros H. apply andb_prop in H.
  destruct H as [H1 H2]. apply Z.leb_le in H1, H2.
  repeat (apply orb_false_intro);
    try (apply andb_false_iff; (left; apply Z.leb_gt; lia) || (right; apply Z.leb_gt; lia));
    try (apply Z.eqb_neq; lia).
Qed.

Lemma hemisphere_not_white h : hemisphere h -> isWhiteSpace h = false.
Proof.
  unfold hemisphere. simpl.
  intros [<-|[<-|[<-|[<-|[<-|[<-|[<-|[<-|[]]]]]]]]]; reflexivity.
Qed.

Ltac lengths_differ :=
  match goal with
  | |- context [Nat.eqb (List.length ?a) (List.length ?b)] =>
      replace (Nat.eqb (List.length a) (List.length b)) with false
        by (symmetry; apply Nat.eqb_neq; simpl; rewrite ?length_app; simpl; lia)
  end.

Section Accepts.

Context {R : Type}.

Lemma rmatch_seq r1 r2 s c (k : @continuation R) :
  rmatch (r1 · r2)%re s c k = rmatch r1 s c (fun s' c' => rmatch r2 s' c' k).
Proof. reflexivity. Qed.

Lemma rmatch_group i r s c (k : @continuation R) :
  rmatch (RGroup i r) s c k
  = rmatch r s c
      (fun s' c' =>
         k s' (setCapture i (Some (firstn (List.length s - List.length s') s)) c')).
Proof. reflexivity. Qed.

Lemma rmatch_char p y rest c (k : @continuation R) :
  p y = true -> rmatch (RChar p) (y :: rest) c k = k rest c.
Proof. intros H. simpl. rewrite H. reflexivity. Qed.

(** The seconds: one or two digits and, possibly, a fraction; what
    follows is not a digit and not a full stop. *)
Lemma rmatch_seconds s1 f rest c (k : @continuation R) x :
  digits s1 -> (1 <= List.length s1 <= 2)%nat ->
  (f = [] \/ exists fd, f = fullStop :: fd /\ digits fd /\ fd <> []) ->
  stopsAt isDigit rest -> stopsAt (cu_eqb fullStop) rest ->
  k rest c = Some x ->
  rmatch (rep digit 1 2 · opt (lit fullStop · plus digit))%re
         ((s1 ++ f) ++ rest) c k = Some x.
Proof.
  intros Hs1 Hl1 Hf Hstop Hdot Hk.
  rewrite rmatch_seq, <- app_assoc. unfold rep, digit.
  destruct Hf as [->|(fd & -> & Hfd & Hne)].
  - apply rmatch_class_greedy; auto.
    cbn [app]. rewrite rmatch_opt_skipped; [exact Hk|].
    intros k'. rewrite rmatch_seq.
    destruct rest as [|y rest]; [reflexivity|].
    apply rmatch_lit_other. simpl in Hdot. unfold cu_eqb in Hdot.
    apply N.eqb_neq. exact Hdot.
  - apply rmatch_class_greedy; auto.
    { left. reflexivity. }
    apply rmatch_opt_taken. rewrite rmatch_seq.
    change ((fullStop :: fd) ++ rest) with (fullStop :: (fd ++ rest)).
    rewrite rmatch_lit. unfold plus.
    apply rmatch_class_greedy_unbounded; auto.
    { destruct fd; [congruence|simpl; lia]. }
    replace (Nat.eqb (List.length rest) (List.length (fullStop :: fd ++ rest)))
      with false; [exact Hk|].
    symmetry. apply Nat.eqb_neq. simpl. rewrite length_app. lia.
Qed.

End Accepts.

Lemma coordinateRegex_accepts d ws mi s1 f h after :
  digits d -> (1 <= List.length d <= 3)%nat ->
  whiteSpace ws ->
  digits mi -> (1 <= List.length mi <= 2)%nat ->
  digits s1 -> (1 <= List.length s1 <= 2)%nat ->
  (f = [] \/ exists fd, f = fullStop :: fd /\ digits fd /\ fd <> []) ->
  hemisphere h ->
  let text := d ++ [degreeSign] ++ ws ++ mi ++ [apostrophe] ++ (s1 ++ f)
              ++ [quotationMark] ++ [h] in
  exists m,
    exec coordinateRegex (text ++ after) = Some (text, m)
    /\ m 1%nat = Some d /\ m 2%nat = Some mi
    /\ m 3%nat = Some (s1 ++ f) /\ m 4%nat = Some [h].
Proof.
  intros Hd Hdl Hws Hmi Hmil Hs1 Hs1l Hf Hh text.
  exists (setCapture 4 (Some [h])
            (setCapture 3 (Some (s1 ++ f))
               (clearCaptures [3%nat]
                  (setCapture 2 (Some mi) (setCapture 1 (Some d) noCaptures))))).
  split; [|repeat split].
  rewrite exec_eq.
  set (whole := text ++ after).
  set (K := fun (s' : jsstring) (c : captures) =>
              Some (firstn (List.length whole - List.length s') whole, c)).
  assert (E : rmatch coordinateRegex whole noCaptures K
              = Some (text, setCapture 4 (Some [h])
            (setCapture 3 (Some (s1 ++ f))
               (clearCaptures [3%nat]
                  (setCapture 2 (Some mi) (setCapture 1 (Some d) noCaptures)))))).
  2:{ rewrite E. reflexivity. }
  unfold coordinateRegex.
  (* degrees *)
  rewrite rmatch_seq, rmatch_group. unfold rep at 1, digit at 1.
  set (rest1 := [degreeSign] ++ ws ++ mi ++ [apostrophe] ++ (s1 ++ f)
                ++ [quotationMark] ++ [h] ++ after).
  assert (W1 : whole = d ++ rest1).
  { unfold whole, text, rest1. rewrite <- !app_assoc. reflexivity. }
  rewrite W1 at 1.
  apply rmatch_class_greedy; auto.
  { left. reflexivity. }
  cbv beta.
  replace (firstn (List.length whole - List.length rest1) whole) with d
    by (rewrite W1; symmetry; apply firstn_length_app).
  (* the degree sign and the white space *)
  unfold rest1 at 1. cbn [app]. rewrite rmatch_seq, rmatch_lit, rmatch_seq.
  unfold star, space.
  set (rest2 := mi ++ [apostrophe] ++ (s1 ++ f) ++ [quotationMark] ++ [h] ++ after).
  apply rmatch_class_greedy_unbounded; auto.
  { lia. }
  { unfold rest2. destruct mi as [|y mi']; [simpl in Hmil; lia|].
    inversion Hmi; subst. simpl. apply digit_not_white. assumption. }
  cbv beta.
  (* minutes *)
  rewrite rmatch_seq, rmatch_group. unfold rep at 1, digit at 1.
  set (rest3 := [apostrophe] ++ (s1 ++ f) ++ [quotationMark] ++ [h] ++ after).
  change rest2 with (mi ++ rest3).
  apply rmatch_class_greedy; auto.
  { left. reflexivity. }
  cbv beta. rewrite firstn_length_app.
  (* the apostrophe *)
  rewrite rmatch_seq. apply rmatch_opt_taken.
  unfold rest3. cbn [app]. rewrite rmatch_lit. lengths_differ.
  (* seconds *)
  rewrite rmatch_seq. apply rmatch_opt_taken. rewrite rmatch_group.
  apply rmatch_seconds; auto.
  { reflexivity. }
  { reflexivity. }
  cbv beta. lengths_differ. rewrite firstn_length_app.
  (* the quotation mark and the letter *)
  rewrite rmatch_seq. apply rmatch_opt_taken.
  rewrite rmatch_lit. lengths_differ.
  rewrite rmatch_group. unfold oneOfIgnoreCase.
  rewrite rmatch_char by (apply hemisphere_class; exact Hh).
  change (h :: after) with ([h] ++ after). rewrite firstn_length_app.
  unfold K. f_equal. f_equal. unfold whole. apply firstn_length_app.
Qed.

(* ===================================================================== *)
(** * Properties of the parsers, the constants and the envelope          *)
(* ===================================================================== *)

#[local] Open Scope float_scope.

(** ** The coordinate texts *)

Lemma trimStart_keeps c s : isWhiteSpace c = false -> trimStart (c :: s) = c :: s.
Proof. intros H. simpl. rewrite H. reflexivity. Qed.

Lemma trim_keeps c s h :
  isWhiteSpace c = false -> isWhiteSpace h = false ->
  trim (c :: s ++ [h]) = c :: s ++ [h].
Proof.
  intros Hc Hh. unfold trim, trimEnd. rewrite (trimStart_keeps _ _ Hc).
  change (c :: s ++ [h]) with ((c :: s) ++ [h]).
  rewrite rev_app_distr. cbn [rev app].
  rewrite (trimStart_keeps _ _ Hh).
  change (h :: rev s ++ [c]) with ([h] ++ (rev s ++ [c])).
  rewrite rev_app_distr, rev_app_distr, rev_involutive. reflexivity.
Qed.

Lemma falsy_some (g : jsstring) : (1 <= List.length g)%nat -> falsy (Some g) = false.
Proof. destruct g; simpl; [lia|reflexivity]. Qed.

Lemma secondsText_length t : secondsText t -> (1 <= List.length t)%nat.
Proof. intros (s & f & -> & _ & H & _). rewrite length_app. lia. Qed.

Lemma direction_southOrWest letter :
  hemisphere letter ->
  jsstring_eqb (toUpperCase [letter]) (str "S")
  || jsstring_eqb (toUpperCase [letter]) (str "W") = southOrWest letter.
Proof.
  unfold hemisphere. simpl.
  intros [<-|[<-|[<-|[<-|[<-|[<-|[<-|[<-|[]]]]]]]]]; reflexivity.
Qed.

(** What [parseStringCoordinate] does with the match found. *)
Lemma parseStringCoordinate_found coordinate text m :
  exec coordinateRegex (trim coordinate) = Some (text, m) ->
  (exists before after, trim coordinate = before ++ text ++ after)
  /\ coordinateMatch text m
  /\ match m 3%nat with
     | None => parseStringCoordinate coordinate = Throw (FormatError coordinate)
     | Some seconds =>
         exists degrees minutes letter,
           m 1%nat = Some degrees /\ m 2%nat = Some minutes
           /\ m 4%nat = Some [letter]
           /\ parseStringCoordinate coordinate
              = Return
                  (let decimal := parseInt10 degrees + parseInt10 minutes / 60
                                  + parseFloat seconds / 3600 in
                   Math_round ((if southOrWest letter then decimal * -1
                                else decimal) * 100) / 100)
     end.
Proof.
  intros E. pose proof (exec_sound _ _ _ _ E) as (before & after & Hs & S).
  apply coordinateRegex_sem in S.
  split; [eauto|]. split; [exact S|].
  destruct S as (d & ws & mi & ap & qm & h & _ & _ & Hdl & _ & _ & Hml & _ & Hsec
                 & _ & Hh & H1 & H2 & H4).
  assert (F1 : falsy (m 1%nat) = false) by (rewrite H1; apply falsy_some; lia).
  assert (F2 : falsy (m 2%nat) = false) by (rewrite H2; apply falsy_some; lia).
  assert (F4 : falsy (m 4%nat) = false) by (rewrite H4; reflexivity).
  destruct (m 3%nat) as [sec|] eqn:H3.
  - exists d, mi, h. repeat split; auto.
    unfold parseStringCoordinate. rewrite E, F1, F2, F4, H3.
    rewrite (falsy_some sec) by (apply secondsText_length; exact Hsec).
    rewrite H1, H2, H4.
    cbn [orb nullish]. rewrite (direction_southOrWest h Hh). reflexivity.
  - unfold parseStringCoordinate. rewrite E, F1, F2, H3. reflexivity.
Qed.

Lemma parseStringCoordinate_not_found coordinate :
  exec coordinateRegex (trim coordinate) = None ->
  parseStringCoordinate coordinate = Throw (FormatError coordinate).
Proof. intros E. unfold parseStringCoordinate. rewrite E. reflexivity. Qed.

(** C6, as amended: [parseStringCoordinate] throws its format error
    exactly when the trimmed text contains no match of its pattern or the
    match found has no seconds group.  The match may be any part of the
    text; in it the apostrophe and the quotation mark are optional, white
    space is allowed only after the degree sign and the other groups are
    never absent.  Every text of the form
    D{1,3} ° blanks M{1,2} ' S{1,2}(.S+)? Q letter, with Q the quotation
    mark and the letter one of N, S, E, W in either case, is parsed without
    error. *)
Theorem parseStringCoordinate_fails_iff :
  (forall coordinate,
      parseStringCoordinate coordinate = Throw (FormatError coordinate)
      <-> (exec coordinateRegex (trim coordinate) = None
           \/ exists text m,
                exec coordinateRegex (trim coordinate) = Some (text, m)
                /\ m 3%nat = None))
  /\ (forall coordinate text m,
         exec coordinateRegex (trim coordinate) = Some (text, m) ->
         (exists before after, trim coordinate = before ++ text ++ after)
         /\ coordinateMatch text m)
  /\ (forall degrees space minutes seconds letter,
         digits degrees -> (1 <= List.length degrees <= 3)%nat ->
         whiteSpace space ->
         digits minutes -> (1 <= List.length minutes <= 2)%nat ->
         secondsText seconds ->
         hemisphere letter ->
         exists v,
           parseStringCoordinate
             (degrees ++ [degreeSign] ++ space ++ minutes ++ [apostrophe]
              ++ seconds ++ [quotationMark] ++ [letter])
           = Return v).
Proof.
  split; [|split].
  - intros coordinate. split.
    + intros H. destruct (exec coordinateRegex (trim coordinate)) as [[text m]|] eqn:E;
        [|left; reflexivity].
      right. exists text, m. split; [reflexivity|].
      destruct (parseStringCoordinate_found _ _ _ E) as (_ & _ & F).
      destruct (m 3%nat); [|reflexivity].
      destruct F as (d & mi & h & _ & _ & _ & F). rewrite F in H. discriminate.
    + intros [E|(text & m & E & H3)].
      * apply parseStringCoordinate_not_found, E.
      * destruct (parseStringCoordinate_found _ _ _ E) as (_ & _ & F).
        rewrite H3 in F. exact F.
  - intros coordinate text m E.
    destruct (parseStringCoordinate_found _ _ _ E) as (B & M & _). auto.
  - intros d ws mi sec h Hd Hdl Hws Hmi Hmil (s1 & f & -> & Hs1 & Hs1l & Hf) Hh.
    destruct (coordinateRegex_accepts d ws mi s1 f h [] Hd Hdl Hws Hmi Hmil Hs1 Hs1l Hf Hh)
      as (m & E & H1 & H2 & H3 & H4).
    rewrite app_nil_r in E.
    set (text := d ++ [degreeSign] ++ ws ++ mi ++ [apostrophe] ++ (s1 ++ f)
                 ++ [quotationMark] ++ [h]) in *.
    assert (T : trim text = text).
    { destruct d as [|c d']; [simpl in Hdl; lia|].
      inversion Hd; subst.
      unfold text.
      replace ((c :: d') ++ [degreeSign] ++ ws ++ mi ++ [apostrophe] ++ (s1 ++ f)
               ++ [quotationMark] ++ [h])
        with (c :: (d' ++ [degreeSign] ++ ws ++ mi ++ [apostrophe] ++ (s1 ++ f)
                    ++ [quotationMark]) ++ [h])
        by (repeat first [rewrite <- app_assoc | progress cbn [app]]; reflexivity).
      apply trim_keeps; [apply digit_not_white; assumption
                        |apply hemisphere_not_white; assumption]. }
    rewrite <- T in E.
    destruct (parseStringCoordinate_found _ _ _ E) as (_ & _ & F).
    rewrite H3 in F. destruct F as (d2 & mi2 & h2 & _ & _ & _ & F). eauto.
Qed.

Lemma parseStringCoordinate_fails_iff_witness :
  exists v, parseStringCoordinate dmsExample = Return v.
Proof.
  apply (proj2 (proj2 parseStringCoordinate_fails_iff)
           (str "23") [] (str "12") (str "30.5") 83%N).
  - repeat constructor.
  - simpl. lia.
  - constructor.
  - repeat constructor.
  - simpl. lia.
  - exists (str "30"), (str ".5"). split; [reflexivity|].
    split; [repeat constructor|]. split; [simpl; lia|].
    right. exists (str "5"). split; [reflexivity|]. split; [repeat constructor|discriminate].
  - unfold hemisphere. simpl. auto.
Defined.

(** Against C6 as stated: a text without the apostrophe and the quotation
    mark does not match the pattern of the specification, however
    generously that is read, and yet it is parsed, to -23.21. *)
Lemma unmarked_coordinate_is_parsed :
  ~ matchesSpecPattern dmsUnmarked
  /\ parseStringCoordinate dmsUnmarked = Return (-23.21).
Proof.
  split.
  - unfold matchesSpecPattern. intros H. apply H. vm_compute. reflexivity.
  - vm_compute. reflexivity.
Qed.

(** ** The decimal parser *)





Lemma replace_cons p by_ c s :
  replace [p] by_ (c :: s)
  = if cu_eqb p c then by_ ++ s else c :: replace [p] by_ s.
Proof. cbn [replace startsWith]. destruct (cu_eqb p c); reflexivity. Qed.

Lemma replace_comma_none s :
  ~ In comma s -> replace (str ",") (str ".") s = s.
Proof.
  induction s as [|c s IH]; intros H; [reflexivity|].
  change (str ",") with [comma]. rewrite replace_cons.
  unfold cu_eqb. destruct (N.eqb_spec comma c) as [E|E].
  - exfalso. apply H. left. symmetry. exact E.
  - f_equal. apply IH. intros Hin. apply H. right. exact Hin.
Qed.


(** Text after a number is ignored, and only the first comma is read as a
    full stop. *)
Example parseCoordinate_ignores_trailing_text :
  parseCoordinate (str "12abc") = Some 12
  /\ parseCoordinate (str "1,2,3") = Some 1.2
  /\ parseCoordinate (longitude belem) = Some (ofZ (-4743) / 100).
Proof. repeat split; vm_compute; reflexivity. Qed.

(** C10: [BATCH_DELAY] is (60 / (REQ_LIMIT_PER_MIN / BATCH_SIZE)) * 1000
    with REQ_LIMIT_PER_MIN = 60 and BATCH_SIZE = 10, which is exactly
    10000 milliseconds. *)
Theorem BATCH_DELAY_is_ten_seconds :
  BATCH_DELAY = (60 / (REQ_LIMIT_PER_MIN / BATCH_SIZE)) * 1000
  /\ REQ_LIMIT_PER_MIN = 60 /\ BATCH_SIZE = 10
  /\ BATCH_DELAY = 10000.
Proof. repeat split. Qed.

(** ** The envelope *)

(** Against C8 as stated: latitude 0 and longitude 1e300 are finite, and
    so is the projected x, but subtracting and adding 1000 both round back
    to x: xmin = xmax. *)
Lemma huge_longitude_flat_envelope :
  is_finite 0 = true /\ is_finite 1e300 = true
  /\ is_finite (calcXValue 1e300) = true
  /\ (xmin (latLonToEnvelope noDataHost 0 1e300 None)
      <? xmax (latLonToEnvelope noDataHost 0 1e300 None)) = false
  /\ xmin (latLonToEnvelope noDataHost 0 1e300 None)
     = xmax (latLonToEnvelope noDataHost 0 1e300 None).
Proof. repeat split; vm_compute; reflexivity. Qed.

(** On a host whose tangent of zero is zero and whose logarithm of zero is
    minus infinity, as ECMAScript requires, the envelope of the South Pole
    has no height. *)
Lemma south_pole_flat_envelope host :
  Math_tan host 0 = 0 -> Math_log host 0 = neg_infinity ->
  ymin (latLonToEnvelope host (-90) 0 None) = neg_infinity
  /\ ymax (latLonToEnvelope host (-90) 0 None) = neg_infinity.
Proof.
  intros Ht Hl. unfold latLonToEnvelope, returnEnvelope, calcYValue. cbn [ymin ymax nullish].
  change (Math_PI / 4 + -90 * Math_PI / 180 / 2) with 0.
  rewrite Ht, Hl. split; reflexivity.
Qed.
(* ===================================================================== *)
(** * Numbers and their texts                                            *)
(* ===================================================================== *)

#[local] Open Scope Z_scope.

(** ** The sign of a number and of its text *)

(** Rounding does not look at the sign. *)
Lemma binary_round_opp m e :
  SF2Prim (binary_round prec emax true m e)
  = (- SF2Prim (binary_round prec emax false m e))%float.
Proof.
  unfold binary_round, binary_round_aux.
  destruct (shl_align _ _ _) as [mz ez].
  destruct (shr_fexp _ _ _ _ _) as [mrs' e'].
  destruct (shr_fexp _ _ _ _ _) as [mrs'' e''].
  destruct (shr_m mrs'') as [|p|p]; [reflexivity| |reflexivity].
  destruct (e'' <=? emax - prec); reflexivity.
Qed.

Lemma roundRatio_opp p q :
  roundRatio true p q = (- roundRatio false p q)%float.
Proof.
  unfold roundRatio.
  destruct ((p <=? 0) || (q <=? 0)) eqn:E; [reflexivity|].
  apply orb_false_elim in E. destruct E as [Hp Hq].
  apply Z.leb_gt in Hp. apply Z.leb_gt in Hq.
  set (k := Z.max 0 (56 + Z.log2_up q - Z.log2 p)).
  set (n := p * 2 ^ k).
  set (m := 2 * (n / q) + (if n mod q =? 0 then 0 else 1)).
  assert (Hm : 0 <= m).
  { assert (0 <= n / q).
    { apply Z.div_pos; [|exact Hq]. unfold n. apply Z.mul_nonneg_nonneg; [lia|].
      apply Z.pow_nonneg. lia. }
    unfold m. destruct (n mod q =? 0); lia. }
  destruct m as [|m'|m']; [reflexivity| |lia].
  cbn [Z.opp binary_normalize]. apply binary_round_opp.
Qed.

Lemma unsignedDecimal_opp s :
  unsignedDecimal true s = (- unsignedDecimal false s)%float.
Proof.
  unfold unsignedDecimal.
  destruct (startsWith (str "Infinity") s); [reflexivity|].
  destruct (spanDigits s) as [ip r].
  destruct (match r with
            | [] => ([], r)
            | c :: r1 =>
                if (c =? 46)%N
                then let (fp, r2) := spanDigits r1 in
                     match ip with
                     | [] => match fp with [] => ([], r) | _ :: _ => (fp, r2) end
                     | _ :: _ => (fp, r2)
                     end
                else ([], r)
            end) as [fp r'].
  destruct ip, fp; try reflexivity;
    destruct (0 <=? _); apply roundRatio_opp.
Qed.

(** The text of a number after a minus sign is read as its opposite. *)
Lemma parseFloat_minus c s :
  isDigit c = true ->
  parseFloat (45%N :: c :: s) = (- parseFloat (c :: s))%float.
Proof.
  intros Hc. unfold parseFloat.
  cbn [trimStart]. change (isWhiteSpace 45%N) with false. cbv iota.
  rewrite (digit_not_white c Hc).
  change (45 =? 43)%N with false. change (45 =? 45)%N with true. cbv iota.
  assert (H43 : (c =? 43)%N = false).
  { apply N.eqb_neq. intros ->. discriminate. }
  assert (H45 : (c =? 45)%N = false).
  { apply N.eqb_neq. intros ->. discriminate. }
  rewrite H43, H45. apply unsignedDecimal_opp.
Qed.

Lemma parseCoordinate_Some value v :
  parseCoordinate value = Some v <->
  parseFloat (replace (str ",") (str ".") value) = v /\ isNaN v = false.
Proof.
  unfold parseCoordinate. cbv zeta.
  destruct (isNaN (parseFloat (replace (str ",") (str ".") value))) eqn:E.
  - split; [discriminate|]. intros [<- H]. rewrite H in E. discriminate.
  - split; [intros H; injection H as <-; auto|]. intros [<- _]. reflexivity.
Qed.

Lemma parseCoordinate_minus c s v :
  isDigit c = true ->
  parseCoordinate (c :: s) = Some v ->
  isNaN (- v)%float = false ->
  parseCoordinate (45%N :: c :: s) = Some (- v)%float.
Proof.
  intros Hc Hv Hn.
  apply parseCoordinate_Some in Hv. destruct Hv as [Hv _].
  apply parseCoordinate_Some. split; [|exact Hn].
  assert (Hcomma : cu_eqb 44%N c = false).
  { apply N.eqb_neq. intros <-. discriminate. }
  change (str ",") with [44%N] in *.
  rewrite replace_cons in Hv. rewrite Hcomma in Hv.
  rewrite replace_cons. change (cu_eqb 44%N 45%N) with false. cbv iota.
  rewrite replace_cons, Hcomma.
  rewrite (parseFloat_minus c _ Hc), Hv. reflexivity.
Qed.

(** ** Decimal digits *)

Lemma digitsValue_from ds : forall a,
  fold_left (fun acc c => 10 * acc + digitValue c) ds a
  = a * 10 ^ Z.of_nat (List.length ds) + digitsValue ds.
Proof.
  unfold digitsValue.
  induction ds as [|c ds IH]; intros a.
  - cbn. lia.
  - cbn [fold_left List.length]. rewrite IH, (IH (10 * 0 + digitValue c)).
    rewrite Nat2Z.inj_succ, Z.pow_succ_r by lia. ring.
Qed.

Lemma digitsValue_app a b :
  digitsValue (a ++ b)
  = digitsValue a * 10 ^ Z.of_nat (List.length b) + digitsValue b.
Proof.
  unfold digitsValue at 1. rewrite fold_left_app.
  fold (digitsValue a). apply digitsValue_from.
Qed.

Lemma digitsValue_zeros n : digitsValue (zeros n) = 0.
Proof.
  unfold zeros. induction (Z.to_nat n) as [|j IH]; [reflexivity|].
  change (repeat 48%N (S j)) with ([48%N] ++ repeat 48%N j)%list.
  rewrite digitsValue_app, IH. reflexivity.
Qed.

Lemma zeros_length n : Z.of_nat (List.length (zeros n)) = Z.max n 0.
Proof. unfold zeros. rewrite repeat_length. lia. Qed.

Lemma zeros_digits n : digits (zeros n).
Proof.
  unfold zeros, digits. induction (Z.to_nat n); constructor; auto.
Qed.

Lemma digitsOf_spec (k : nat) : forall fuel n acc,
  0 <= n < 10 ^ Z.of_nat (S k) ->
  (k = 0%nat \/ 10 ^ Z.of_nat k <= n) ->
  (S k <= fuel)%nat ->
  exists ds, digitsOf fuel n acc = (ds ++ acc)%list
             /\ List.length ds = S k
             /\ digits ds
             /\ digitsValue ds = n.
Proof.
  induction k as [|k IH]; intros fuel n acc Hn Hlow Hfuel;
    (destruct fuel as [|fuel]; [lia|]); cbn [digitsOf].
  - change (10 ^ Z.of_nat 1) with 10 in Hn.
    destruct (Z.ltb_spec n 10) as [_|H]; [|lia].
    exists [Z.to_N (n mod 10 + 48)]. rewrite Z.mod_small by lia.
    split; [reflexivity|]. split; [reflexivity|]. split.
    + constructor; [|constructor]. unfold isDigit. rewrite Z2N.id by lia.
      apply andb_true_intro. split; apply Z.leb_le; lia.
    + unfold digitsValue, digitValue. cbn [fold_left]. rewrite Z2N.id by lia. lia.
  - destruct Hlow as [Hlow|Hlow]; [discriminate|].
    rewrite Nat2Z.inj_succ, Z.pow_succ_r in Hlow by lia.
    assert (H10 : 0 < 10 ^ Z.of_nat k) by (apply Z.pow_pos_nonneg; lia).
    destruct (Z.ltb_spec n 10) as [H|_]; [lia|].
    rewrite (Nat2Z.inj_succ (S k)), Z.pow_succ_r in Hn by lia.
    destruct (IH fuel (n / 10) (Z.to_N (n mod 10 + 48) :: acc))
      as (ds & E & Hlen & Hd & Hv).
    + split; [apply Z.div_pos; lia|]. apply Z.div_lt_upper_bound; lia.
    + destruct k as [|k]; [left; reflexivity|right].
      apply Z.div_le_lower_bound; lia.
    + lia.
    + pose proof (Z.mod_pos_bound n 10 ltac:(lia)) as Hm.
      exists (ds ++ [Z.to_N (n mod 10 + 48)])%list.
      rewrite E, <- app_assoc. split; [reflexivity|].
      split; [rewrite length_app, Hlen; cbn; lia|]. split.
      * apply Forall_app. split; [exact Hd|]. constructor; [|constructor].
        unfold isDigit. rewrite Z2N.id by lia.
        apply andb_true_intro. split; apply Z.leb_le; lia.
      * rewrite digitsValue_app, Hv. unfold digitsValue at 1, digitValue.
        cbn [fold_left List.length]. rewrite Z2N.id by lia.
        change (10 ^ Z.of_nat 1) with 10.
        pose proof (Z.div_mod n 10 ltac:(lia)). lia.
Qed.

(** The digits of a number of [k] digits. *)
Lemma decimalDigits_spec s k :
  1 <= k -> 10 ^ (k - 1) <= s < 10 ^ k ->
  Z.of_nat (List.length (decimalDigits s)) = k
  /\ digits (decimalDigits s)
  /\ digitsValue (decimalDigits s) = s.
Proof.
  intros Hk Hs. unfold decimalDigits.
  assert (H0 : 0 < 10 ^ (k - 1)) by (apply Z.pow_pos_nonneg; lia).
  destruct (digitsOf_spec (Z.to_nat (k - 1)) (S (Z.to_nat (Z.log2 s))) s [])
    as (ds & E & Hlen & Hd & Hv).
  - replace (Z.of_nat (S (Z.to_nat (k - 1)))) with k by lia. lia.
  - right. rewrite Z2Nat.id by lia. lia.
  - apply le_n_S. apply Z2Nat.inj_le; [lia|apply Z.log2_nonneg|].
    apply Z.log2_le_pow2; [lia|].
    apply Z.le_trans with (10 ^ (k - 1)); [|lia].
    apply Z.pow_le_mono_l. lia.
  - rewrite E, app_nil_r. split; [lia|]. split; assumption.
Qed.

(** The digits of a number that may be zero. *)
Lemma decimalDigits_nat s :
  0 <= s ->
  digits (decimalDigits s) /\ digitsValue (decimalDigits s) = s.
Proof.
  intros Hs. destruct (Z.eq_dec s 0) as [->|Hne].
  - split; [|reflexivity]. repeat constructor.
  - assert (Hpos : 0 < s) by lia.
    pose proof (Z.log2_spec s Hpos) as [Hl _].
    pose proof (Z.log2_nonneg s) as Hnn.
    (* the number of digits, by a bounded search *)
    assert (Hex : exists k, 1 <= k /\ 10 ^ (k - 1) <= s < 10 ^ k).
    { assert (G : forall j : nat, 10 ^ Z.of_nat j <= s ->
                    s < 10 ^ Z.of_nat (j + Z.to_nat s) ->
                    exists k, 1 <= k /\ 10 ^ (k - 1) <= s < 10 ^ k).
      { intros j. remember (Z.to_nat s) as f eqn:Ef. clear Ef.
        revert j. induction f as [|f IH]; intros j H1 H2.
        - rewrite Nat.add_0_r in H2. lia.
        - destruct (Z_lt_le_dec s (10 ^ Z.of_nat (S j))) as [H|H].
          + exists (Z.of_nat (S j)). split; [lia|].
            replace (Z.of_nat (S j) - 1) with (Z.of_nat j) by lia. lia.
          + apply (IH (S j) H). replace (S j + f)%nat with (j + S f)%nat by lia.
            exact H2. }
      apply (G 0%nat); [cbn; lia|]. cbn [Nat.add].
      rewrite Z2Nat.id by lia.
      apply Z.lt_le_trans with (2 ^ s); [apply Z.pow_gt_lin_r; lia|].
      apply Z.pow_le_mono_l. lia. }
    destruct Hex as (k & Hk & Hr).
    destruct (decimalDigits_spec s k Hk Hr) as (_ & Hd & Hv). split; assumption.
Qed.

Lemma spanDigits_app ds rest :
  digits ds ->
  match rest with [] => True | c :: _ => isDigit c = false end ->
  spanDigits (ds ++ rest) = (ds, rest).
Proof.
  intros Hd Hr. induction Hd as [|c ds Hc Hd IH].
  - cbn [app]. destruct rest as [|c r]; [reflexivity|].
    cbn [spanDigits]. rewrite Hr. reflexivity.
  - cbn [app spanDigits]. rewrite Hc, IH. reflexivity.
Qed.

Lemma spanDigits_all ds : digits ds -> spanDigits ds = (ds, []).
Proof.
  intros Hd. rewrite <- (app_nil_r ds) at 1. apply spanDigits_app; auto.
Qed.

(** ** Reading a decimal text *)

Lemma startsWith_Infinity_digit c s :
  isDigit c = true -> startsWith (str "Infinity") (c :: s) = None.
Proof.
  intros Hc. change (str "Infinity") with (73%N :: str "nfinity").
  cbn [startsWith]. unfold cu_eqb.
  destruct (N.eqb_spec 73 c) as [<-|_]; [discriminate|reflexivity].
Qed.

(** Digits, then something that is neither a digit nor a point. *)
Lemma unsignedDecimal_integer c ip r :
  digits (c :: ip) -> notDigit r ->
  match r with [] => True | d :: _ => d <> 46%N end ->
  unsignedDecimal false ((c :: ip) ++ r)
  = decimalValue (digitsValue (c :: ip)) (exponentPart r).
Proof.
  intros Hd Hr Hp. unfold unsignedDecimal.
  cbn [app]. rewrite startsWith_Infinity_digit by (inversion Hd; assumption).
  change (c :: ip ++ r)%list with ((c :: ip) ++ r)%list.
  rewrite (spanDigits_app _ _ Hd Hr).
  destruct r as [|d r].
  - cbn [List.length Z.of_nat]. rewrite app_nil_r, Z.sub_0_r. reflexivity.
  - destruct (N.eqb_spec d 46) as [E|_]; [contradiction|].
    cbn [List.length Z.of_nat]. rewrite app_nil_r, Z.sub_0_r. reflexivity.
Qed.

(** Digits, a point, digits, then something that is not a digit. *)
Lemma unsignedDecimal_point c ip fp r :
  digits (c :: ip) -> digits fp -> notDigit r ->
  unsignedDecimal false ((c :: ip) ++ 46%N :: fp ++ r)
  = decimalValue (digitsValue ((c :: ip) ++ fp))
                 (exponentPart r - Z.of_nat (List.length fp)).
Proof.
  intros Hd Hf Hr. unfold unsignedDecimal.
  cbn [app]. rewrite startsWith_Infinity_digit by (inversion Hd; assumption).
  change (c :: ip ++ 46%N :: fp ++ r)%list
    with ((c :: ip) ++ 46%N :: fp ++ r)%list.
  rewrite (spanDigits_app (c :: ip) (46%N :: fp ++ r) Hd) by reflexivity.
  change (46 =? 46)%N with true. cbv iota.
  rewrite (spanDigits_app fp r Hf Hr).
  destruct fp; reflexivity.
Qed.

Lemma exponentPart_plus ds :
  digits ds -> exponentPart (101%N :: 43%N :: ds) = digitsValue ds.
Proof.
  intros Hd. cbn. rewrite (spanDigits_all ds Hd). reflexivity.
Qed.

Lemma exponentPart_minus ds :
  digits ds -> exponentPart (101%N :: 45%N :: ds) = - digitsValue ds.
Proof.
  intros Hd. cbn. rewrite (spanDigits_all ds Hd). reflexivity.
Qed.

Lemma allDigits_firstn n ds : digits ds -> digits (firstn n ds).
Proof.
  intros H. rewrite <- (firstn_skipn n ds) in H.
  apply Forall_app in H. apply H.
Qed.

Lemma allDigits_skipn n ds : digits ds -> digits (skipn n ds).
Proof.
  intros H. rewrite <- (firstn_skipn n ds) in H.
  apply Forall_app in H. apply H.
Qed.

Lemma allDigits_decimalChars ds : digits ds -> Forall decimalChar ds.
Proof. apply Forall_impl. intros c H. left. exact H. Qed.

(** What [parseFloat] reads in the text of a decimal. *)
Lemma decimalText_spec s n k :
  1 <= k -> 10 ^ (k - 1) <= s < 10 ^ k ->
  unsignedDecimal false (decimalText s n k)
  = (if k <=? n then roundRatio false (s * 10 ^ (n - k)) 1
     else roundRatio false s (10 ^ (k - n)))
  /\ (exists c t, decimalText s n k = c :: t /\ isDigit c = true)
  /\ Forall decimalChar (decimalText s n k).
Proof.
  intros Hk Hs.
  destruct (decimalDigits_spec s k Hk Hs) as (Hlen & Hd & Hv).
  unfold decimalText. cbv zeta.
  destruct (decimalDigits s) as [|d ds] eqn:Eds; [cbn in Hlen; lia|].
  assert (Hdc : Forall decimalChar (d :: ds)) by (apply allDigits_decimalChars, Hd).
  assert (Hd0 : isDigit d = true) by (inversion Hd; assumption).
  destruct ((-5 <=? n) && (n <=? 21)) eqn:Hplain.
  - apply andb_prop in Hplain. destruct Hplain as [Hn1 Hn2].
    apply Z.leb_le in Hn1, Hn2.
    destruct (Z.leb_spec k n) as [Hkn|Hkn].
    + (* digits and zeros *)
      split; [|split].
      * rewrite <- (app_nil_r ((d :: ds) ++ zeros (n - k))).
        change (((d :: ds) ++ zeros (n - k)) ++ [])%list
          with ((d :: (ds ++ zeros (n - k))) ++ [])%list.
        rewrite unsignedDecimal_integer; [| |exact I|exact I].
        -- change (d :: ds ++ zeros (n - k))%list with ((d :: ds) ++ zeros (n - k))%list.
           rewrite digitsValue_app, Hv, digitsValue_zeros, zeros_length.
           unfold decimalValue. cbn [exponentPart].
           change (0 <=? 0) with true. cbv iota.
           rewrite Z.max_l by lia. f_equal. change (10 ^ 0) with 1. lia.
        -- change (d :: ds ++ zeros (n - k))%list with ((d :: ds) ++ zeros (n - k))%list.
           apply Forall_app. split; [exact Hd|apply zeros_digits].
      * exists d, (ds ++ zeros (n - k))%list. split; [reflexivity|exact Hd0].
      * apply Forall_app. split; [exact Hdc|].
        apply allDigits_decimalChars, zeros_digits.
    + destruct (Z.ltb_spec 0 n) as [Hn0|Hn0].
      * (* a point within the digits *)
        assert (Hf : (0 < Z.to_nat n < List.length (d :: ds))%nat) by lia.
        destruct (firstn (Z.to_nat n) (d :: ds)) as [|c ip] eqn:Eip.
        { apply (f_equal (@List.length _)) in Eip.
          rewrite length_firstn in Eip. cbn [List.length] in Eip. lia. }
        assert (Hip : digits (c :: ip)).
        { rewrite <- Eip. apply allDigits_firstn, Hd. }
        assert (Hfp : digits (skipn (Z.to_nat n) (d :: ds)))
          by apply allDigits_skipn, Hd.
        split; [|split].
        -- change (str ".") with [46%N].
           rewrite <- (app_nil_r (skipn _ _)).
           change ((c :: ip) ++ [46%N] ++ skipn (Z.to_nat n) (d :: ds) ++ [])%list
             with ((c :: ip) ++ 46%N :: skipn (Z.to_nat n) (d :: ds) ++ [])%list.
           rewrite unsignedDecimal_point; [|exact Hip|exact Hfp|exact I].
           rewrite <- Eip, firstn_skipn, Hv, length_skipn.
           unfold decimalValue. cbn [exponentPart].
           destruct (Z.leb_spec 0 (0 - Z.of_nat (List.length (d :: ds) - Z.to_nat n)));
             [lia|].
           f_equal. f_equal. lia.
        -- exists c, (ip ++ str "." ++ skipn (Z.to_nat n) (d :: ds))%list.
           split; [reflexivity|]. inversion Hip; assumption.
        -- apply Forall_app. split; [apply allDigits_decimalChars, Hip|].
           apply Forall_app. split; [|apply allDigits_decimalChars, Hfp].
           constructor; [|constructor]. right. left. reflexivity.
      * (* zeros after the point, then the digits *)
        split; [|split].
        -- change (str "0." ++ zeros (- n) ++ d :: ds)%list
             with ([48%N] ++ 46%N :: (zeros (- n) ++ d :: ds) ++ [])%list
             || (rewrite <- (app_nil_r (d :: ds)) at 1;
                 change (str "0." ++ zeros (- n) ++ (d :: ds) ++ [])%list
                   with ([48%N] ++ 46%N :: zeros (- n) ++ (d :: ds) ++ [])%list).
           rewrite (app_assoc (zeros (- n))).
           rewrite unsignedDecimal_point;
             [|repeat constructor| |exact I].
           ++ rewrite (digitsValue_app [48%N]), digitsValue_app.
              rewrite digitsValue_zeros, Hv.
              rewrite !length_app. unfold decimalValue. cbn [exponentPart].
              pose proof (zeros_length (- n)) as Hz.
              destruct (Z.leb_spec 0
                (0 - Z.of_nat (List.length (zeros (- n)) + List.length (d :: ds))));
                [lia|].
              change (digitsValue [48%N]) with 0.
              f_equal; try lia; f_equal; lia.
           ++ apply Forall_app. split; [apply zeros_digits|exact Hd].
        -- exists 48%N, (46%N :: zeros (- n) ++ d :: ds)%list.
           split; reflexivity.
        -- change (str "0.") with [48%N; 46%N].
           apply Forall_app. split.
           ++ constructor; [left; reflexivity|].
              constructor; [right; left; reflexivity|constructor].
           ++ apply Forall_app. split; [|exact Hdc].
              apply allDigits_decimalChars, zeros_digits.
  - (* with an exponent *)
    assert (Hn : n < -5 \/ 21 < n).
    { apply andb_false_iff in Hplain.
      destruct Hplain as [H|H]; apply Z.leb_gt in H; lia. }
    destruct (decimalDigits_nat (Z.abs (n - 1)) (Z.abs_nonneg _)) as [Hed Hev].
    set (eds := decimalDigits (Z.abs (n - 1))) in *.
    remember (match n - 1 <? 0 return list code_unit with
              | true => str "-"
              | false => str "+"
              end) as sg eqn:Esg.
    assert (Hexp : exponentPart (str "e" ++ sg ++ eds) = n - 1).
    { subst sg. destruct (Z.ltb_spec (n - 1) 0).
      - change (str "e" ++ str "-" ++ eds)%list with (101%N :: 45%N :: eds).
        rewrite exponentPart_minus, Hev by exact Hed. lia.
      - change (str "e" ++ str "+" ++ eds)%list with (101%N :: 43%N :: eds).
        rewrite exponentPart_plus, Hev by exact Hed. lia. }
    assert (Hnd : notDigit (str "e" ++ sg ++ eds)) by reflexivity.
    assert (Hec : Forall decimalChar (str "e" ++ sg ++ eds)).
    { change (str "e") with [101%N]. constructor; [right; right; left; reflexivity|].
      apply Forall_app. split; [|apply allDigits_decimalChars, Hed].
      subst sg. destruct (n - 1 <? 0).
      - constructor; [|constructor]. right; right; right; right; reflexivity.
      - constructor; [|constructor]. right; right; right; left; reflexivity. }
    destruct ds as [|d' ds].
    + (* one digit *)
      cbn [List.length] in Hlen. change (Z.of_nat 1) with 1 in Hlen. subst k.
      split; [|split].
      * rewrite unsignedDecimal_integer; [|exact Hd|exact Hnd|discriminate].
        rewrite Hexp, Hv. unfold decimalValue.
        destruct (Z.leb_spec 0 (n - 1)), (Z.leb_spec 1 n); try lia.
        -- reflexivity.
        -- f_equal. f_equal. lia.
      * exists d, (str "e" ++ sg ++ eds)%list. split; [reflexivity|exact Hd0].
      * apply Forall_app. split; [exact Hdc|exact Hec].
    + split; [|split].
      * change ((d :: str "." ++ d' :: ds) ++ str "e" ++ sg ++ eds)%list
          with ([d] ++ 46%N :: ((d' :: ds) ++ str "e" ++ sg ++ eds))%list.
        rewrite unsignedDecimal_point; [|repeat constructor; exact Hd0| |exact Hnd].
        -- change ([d] ++ d' :: ds)%list with (d :: d' :: ds). rewrite Hv, Hexp.
           unfold decimalValue. cbn [List.length] in *.
           destruct (Z.leb_spec 0 (n - 1 - Z.of_nat (S (List.length ds)))),
                    (Z.leb_spec k n); try lia.
           ++ f_equal. f_equal. f_equal. lia.
           ++ f_equal. f_equal. lia.
        -- inversion Hd; assumption.
      * exists d, ((str "." ++ d' :: ds) ++ str "e" ++ sg ++ eds)%list.
        split; [reflexivity|exact Hd0].
      * apply Forall_app. split; [|exact Hec].
        inversion Hdc; subst. constructor; [assumption|].
        constructor; [right; left; reflexivity|assumption].
Qed.

(** ** Rounding a binary64 value *)

Lemma digits2_pos_bound m : Z.pos m < 2 ^ Z.pos (digits2_pos m).
Proof.
  induction m as [m IH|m IH|]; cbn [digits2_pos];
    rewrite ?Pos2Z.inj_succ, ?Z.pow_succ_r by lia; lia.
Qed.

Lemma iter_xO_value m j : Z.pos (Pos.iter xO m j) = Z.pos m * 2 ^ Z.pos j.
Proof.
  induction j as [|j IH] using Pos.peano_ind.
  - cbn [Pos.iter]. lia.
  - rewrite Pos.iter_succ, Pos2Z.inj_succ, Z.pow_succ_r by lia.
    rewrite Pos2Z.inj_xO, IH. ring.
Qed.

Lemma iter_xO_digits m j :
  Z.pos (digits2_pos (Pos.iter xO m j)) = Z.pos (digits2_pos m) + Z.pos j.
Proof.
  induction j as [|j IH] using Pos.peano_ind.
  - cbn [Pos.iter digits2_pos]. lia.
  - rewrite Pos.iter_succ. cbn [digits2_pos]. rewrite !Pos2Z.inj_succ, IH. lia.
Qed.

Lemma iter_pos_shr j : forall m,
  iter_pos shr_1 j {| shr_m := Z.pos (Pos.iter xO m j);
                      shr_r := false; shr_s := false |}
  = {| shr_m := Z.pos m; shr_r := false; shr_s := false |}.
Proof.
  induction j as [j IH|j IH|]; intros m; cbn [iter_pos Pos.iter].
  - cbn [shr_1 orb]. rewrite IH, IH. reflexivity.
  - rewrite IH, IH. reflexivity.
  - reflexivity.
Qed.

(** A mantissa with zeros appended is rounded to the value it has. *)
Lemma binary_round_exact m e j :
  bounded prec emax m e = true ->
  binary_round prec emax false (Pos.iter xO m j) (e - Z.pos j)
  = S754_finite false m e.
Proof.
  intros Hb. unfold bounded in Hb. apply andb_prop in Hb.
  destruct Hb as [Hc Hle]. unfold canonical_mantissa in Hc.
  apply Z.eqb_eq in Hc.
  unfold binary_round.
  rewrite iter_xO_digits.
  replace (Z.pos (digits2_pos m) + Z.pos j + (e - Z.pos j))
    with (Z.pos (digits2_pos m) + e) by lia.
  rewrite Hc. unfold shl_align.
  replace (e - (e - Z.pos j)) with (Z.pos j) by lia.
  unfold binary_round_aux, shr_fexp.
  cbn [Zdigits2 shr_record_of_loc]. rewrite iter_xO_digits.
  replace (Z.pos (digits2_pos m) + Z.pos j + (e - Z.pos j))
    with (Z.pos (digits2_pos m) + e) by lia.
  rewrite Hc.
  replace (e - (e - Z.pos j)) with (Z.pos j) by lia.
  cbn [shr]. rewrite iter_pos_shr.
  cbn [shr_m loc_of_shr_record round_nearest_even Zdigits2 shr_record_of_loc].
  replace (e - Z.pos j + Z.pos j) with e by lia.
  rewrite Hc, Z.sub_diag. cbn [shr shr_m]. rewrite Hle. reflexivity.
Qed.

(** [roundRatio] is exact on a ratio that is a binary64 value. *)
Lemma roundRatio_exact m e a c :
  bounded prec emax m e = true ->
  0 < a -> 0 < c ->
  a * 2 ^ Z.max (- e) 0 = Z.pos m * 2 ^ Z.max e 0 * c ->
  roundRatio false a c = SF2Prim (S754_finite false m e).
Proof.
  intros Hb Ha Hc Hv. unfold roundRatio.
  destruct (Z.leb_spec a 0); [lia|]. destruct (Z.leb_spec c 0); [lia|].
  cbn [orb]. cbv zeta.
  set (k := Z.max 0 (56 + Z.log2_up c - Z.log2 a)).
  (* the mantissa has at most 53 bits *)
  assert (Hm : Z.log2 (Z.pos m) <= 52).
  { pose proof Hb as Hb'. unfold bounded, canonical_mantissa, fexp, emin in Hb'.
    apply andb_prop in Hb'. destruct Hb' as [Hcan _]. apply Z.eqb_eq in Hcan.
    pose proof (digits2_pos_bound m) as Hd.
    assert (Z.pos m < 2 ^ 53).
    { apply Z.lt_le_trans with (1 := Hd). apply Z.pow_le_mono_r; unfold prec, emax in *; lia. }
    assert (Z.log2 (Z.pos m) < 53) by (apply Z.log2_lt_pow2; lia). lia. }
  set (b := Z.max (- e) 0) in *. set (u := Z.max e 0) in *.
  assert (Hbu : u - b = e) by lia.
  assert (Hk : 3 - e <= k).
  { assert (Z.log2 a + b <= 53 + u + Z.log2_up c); [|lia].
    rewrite Z.add_comm, <- Z.log2_mul_pow2 by lia. rewrite Hv.
    eapply Z.le_trans; [apply Z.log2_mul_above|].
    - apply Z.mul_nonneg_nonneg; [lia|apply Z.pow_nonneg; lia].
    - lia.
    - rewrite Z.log2_mul_pow2 by lia.
      pose proof (Z.le_log2_log2_up c). lia. }
  assert (Hkb : 0 <= k - b) by lia.
  assert (Hn : a * 2 ^ k = Z.pos m * 2 ^ (e + k) * c).
  { replace k with (b + (k - b)) at 1 by lia.
    rewrite Z.pow_add_r, Z.mul_assoc, Hv by lia.
    replace (e + k) with (u + (k - b)) by lia.
    rewrite Z.pow_add_r by lia. ring. }
  rewrite Hn, Z.div_mul, Z.mod_mul by lia.
  change (0 =? 0) with true. cbv iota. rewrite Z.add_0_r.
  assert (Hj : 0 < e + k + 1) by lia.
  destruct (e + k + 1) as [|j|j] eqn:Ej; try lia.
  assert (Hmm : 2 * (Z.pos m * 2 ^ (e + k)) = Z.pos (Pos.iter xO m j)).
  { rewrite iter_xO_value, <- Ej, (Z.add_comm (e + k) 1), (Z.pow_add_r 2 1 (e + k)) by lia.
    change (2 ^ 1) with 2. ring. }
  rewrite Hmm. cbn [binary_normalize].
  replace (- k - 1) with (e - Z.pos j) by lia.
  rewrite binary_round_exact by exact Hb. reflexivity.
Qed.

(** ** The digits that [Number_toString] chooses *)

Lemma tenPowLe_iff n p q a b :
  0 < p -> 0 < q -> 0 <= a -> 0 <= b -> n = a - b ->
  tenPowLe n p q = true <-> q * 10 ^ a <= p * 10 ^ b.
Proof.
  intros Hp Hq Ha Hb Hn. unfold tenPowLe.
  destruct (Z.leb_spec 0 n) as [H|H].
  - replace a with (n + b) by lia. rewrite Z.pow_add_r, Z.mul_assoc by lia.
    rewrite Z.leb_le.
    apply Z.mul_le_mono_pos_r. apply Z.pow_pos_nonneg; lia.
  - replace b with (- n + a) by lia. rewrite Z.pow_add_r, Z.mul_assoc by lia.
    rewrite Z.leb_le.
    apply Z.mul_le_mono_pos_r. apply Z.pow_pos_nonneg; lia.
Qed.

Lemma pow2_le_pow10 n : 0 <= n -> 2 ^ n <= 10 ^ n.
Proof. intros H. apply Z.pow_le_mono_l. lia. Qed.

Lemma lt_pow10_log2 p : 0 < p -> p < 10 ^ (Z.log2 p + 1).
Proof.
  intros Hp. pose proof (Z.log2_spec p Hp) as [_ H].
  pose proof (Z.log2_nonneg p).
  replace (Z.succ (Z.log2 p)) with (Z.log2 p + 1) in H by lia.
  pose proof (pow2_le_pow10 (Z.log2 p + 1) ltac:(lia)). lia.
Qed.

Section Magnitude.

Variables p q : Z.
Hypothesis Hp : 0 < p.
Hypothesis Hq : 0 < q.

Lemma magnitudeUp_spec fuel : forall n,
  tenPowLe (n - 1) p q = true ->
  tenPowLe (n + Z.of_nat fuel) p q = false ->
  isMagnitude p q (magnitudeUp fuel n p q).
Proof.
  induction fuel as [|fuel IH]; intros n H1 H2; cbn [magnitudeUp].
  - rewrite Z.add_0_r in H2. split; assumption.
  - destruct (tenPowLe n p q) eqn:E; [|split; assumption].
    apply IH.
    + replace (n + 1 - 1) with n by lia. exact E.
    + replace (n + 1 + Z.of_nat fuel) with (n + Z.of_nat (S fuel)) by lia.
      exact H2.
Qed.

Lemma magnitudeDown_spec fuel : forall n,
  tenPowLe n p q = false ->
  tenPowLe (n - 1 - Z.of_nat fuel) p q = true ->
  isMagnitude p q (magnitudeDown fuel n p q).
Proof.
  induction fuel as [|fuel IH]; intros n H1 H2; cbn [magnitudeDown].
  - rewrite Z.sub_0_r in H2. split; assumption.
  - destruct (tenPowLe (n - 1) p q) eqn:E; [split; assumption|].
    apply IH; [exact E|].
    replace (n - 1 - 1 - Z.of_nat fuel) with (n - 1 - Z.of_nat (S fuel)) by lia.
    exact H2.
Qed.

Lemma magnitude_spec : isMagnitude p q (magnitude p q).
Proof.
  unfold magnitude. destruct (tenPowLe 0 p q) eqn:E.
  - apply magnitudeUp_spec; [exact E|].
    pose proof (Z.log2_nonneg p) as Hl.
    destruct (tenPowLe (1 + Z.of_nat (S (Z.to_nat (Z.log2 p)))) p q) eqn:E';
      [|reflexivity]. exfalso.
    unfold tenPowLe in E'.
    destruct (Z.leb_spec 0 (1 + Z.of_nat (S (Z.to_nat (Z.log2 p))))); [|lia].
    apply Z.leb_le in E'.
    replace (1 + Z.of_nat (S (Z.to_nat (Z.log2 p))))
      with (Z.log2 p + 1 + 1) in E' by lia.
    pose proof (lt_pow10_log2 p Hp) as Hlt.
    rewrite (Z.pow_add_r 10 (Z.log2 p + 1) 1) in E' by lia.
    change (10 ^ 1) with 10 in E'. nia.
  - apply magnitudeDown_spec; [exact E|].
    pose proof (Z.log2_nonneg q) as Hl.
    unfold tenPowLe.
    destruct (Z.leb_spec 0 (0 - 1 - Z.of_nat (S (Z.to_nat (Z.log2 q))))); [lia|].
    apply Z.leb_le.
    replace (- (0 - 1 - Z.of_nat (S (Z.to_nat (Z.log2 q)))))
      with (Z.log2 q + 1 + 1) by lia.
    pose proof (lt_pow10_log2 q Hq) as Hlt.
    rewrite (Z.pow_add_r 10 (Z.log2 q + 1) 1) by lia.
    change (10 ^ 1) with 10. nia.
Qed.

(** The two decimals of [k] digits around [p / q] have [k] digits. *)
Lemma quotient_digits n k :
  isMagnitude p q n -> 1 <= k ->
  let '(num, den) :=
    if n <=? k then (p * 10 ^ (k - n), q) else (p, q * 10 ^ (n - k)) in
  0 < den /\ 10 ^ (k - 1) <= num / den < 10 ^ k.
Proof.
  intros [H1 H2] Hk.
  assert (Hk0 : 0 < 10 ^ (k - 1)) by (apply Z.pow_pos_nonneg; lia).
  destruct (Z.leb_spec n k) as [Hnk|Hnk].
  - split; [exact Hq|].
    apply (tenPowLe_iff (n - 1) p q (k - 1) (k - n)) in H1; try lia.
    assert (H3 : ~ q * 10 ^ k <= p * 10 ^ (k - n)).
    { intros H. apply (tenPowLe_iff n p q k (k - n)) in H; try lia.
      rewrite H in H2. discriminate. }
    split.
    + apply Z.div_le_lower_bound; lia.
    + apply Z.div_lt_upper_bound; lia.
  - assert (Hd : 0 < 10 ^ (n - k)) by (apply Z.pow_pos_nonneg; lia).
    split; [lia|].
    apply (tenPowLe_iff (n - 1) p q (n - 1) 0) in H1; try lia.
    assert (H3 : ~ q * 10 ^ n <= p * 10 ^ 0).
    { intros H. apply (tenPowLe_iff n p q n 0) in H; try lia.
      rewrite H in H2. discriminate. }
    change (10 ^ 0) with 1 in *.
    assert (E1 : 10 ^ (n - 1) = 10 ^ (k - 1) * 10 ^ (n - k)).
    { rewrite <- Z.pow_add_r by lia. f_equal. lia. }
    assert (E2 : 10 ^ n = 10 ^ k * 10 ^ (n - k)).
    { rewrite <- Z.pow_add_r by lia. f_equal. lia. }
    split.
    + apply Z.div_le_lower_bound; [lia|]. rewrite E1 in H1. lia.
    + apply Z.div_lt_upper_bound; [lia|]. rewrite E2 in H3. lia.
Qed.

(** What [candidate] returns denotes [x] and has [k] digits. *)
Lemma candidate_spec x n k s n' :
  isMagnitude p q n -> 1 <= k ->
  candidate x p q n k = Some (s, n') ->
  denotes x s n' k = true /\ 10 ^ (k - 1) <= s < 10 ^ k.
Proof.
  intros Hn Hk. pose proof (quotient_digits n k Hn Hk) as Hquot.
  unfold candidate.
  destruct (if n <=? k then (p * 10 ^ (k - n), q) else (p, q * 10 ^ (n - k)))
    as [num den].
  destruct Hquot as [Hden Hlo].
  unfold Z.div in Hlo.
  destruct (Z.div_eucl num den) as [lo below]. cbn [fst] in Hlo. cbv zeta.
  assert (Hk1 : 10 ^ (k - 1) < 10 ^ k) by (apply Z.pow_lt_mono_r; lia).
  assert (Hup : let up := if lo + 1 =? 10 ^ k then (10 ^ (k - 1), n + 1)
                          else (lo + 1, n) in
                10 ^ (k - 1) <= fst up < 10 ^ k).
  { destruct (Z.eqb_spec (lo + 1) (10 ^ k)); cbn [fst]; lia. }
  cbv zeta in Hup.
  destruct (if lo + 1 =? 10 ^ k then (10 ^ (k - 1), n + 1) else (lo + 1, n))
    as [us un]. cbn [fst snd] in *.
  destruct (denotes x lo n k) eqn:Elo, (denotes x us un k) eqn:Eup; cbn [andb];
    repeat match goal with
           | |- context [if ?c then _ else _] => destruct c
           end;
    intros H; inversion H; subst; auto.
Qed.

(** [shortest] finds digits when the search reaches a number of digits
    that has a candidate. *)
Lemma shortest_spec x n last fuel : forall k s n' k',
  isMagnitude p q n -> 1 <= k <= last ->
  (Z.to_nat (last - k) <= fuel)%nat ->
  candidate x p q n last <> None ->
  shortest fuel x p q n k = (s, n', k') ->
  denotes x s n' k' = true /\ 1 <= k' /\ 10 ^ (k' - 1) <= s < 10 ^ k'.
Proof.
  induction fuel as [|fuel IH]; intros k s n' k' Hn Hk Hfuel Hlast;
    cbn [shortest];
    destruct (candidate x p q n k) as [[s0 n0]|] eqn:E.
  - intros H. inversion H; subst.
    destruct (candidate_spec x n k' s n' Hn ltac:(lia) E). auto with zarith.
  - assert (k = last) by lia. subst k. contradiction.
  - intros H. inversion H; subst.
    destruct (candidate_spec x n k' s n' Hn ltac:(lia) E). auto with zarith.
  - assert (k <> last) by (intros ->; contradiction).
    apply IH; auto; lia.
Qed.

End Magnitude.

(** ** The digits of a binary64 value *)

Lemma eqb_finite_refl x s m e :
  Prim2SF x = S754_finite s m e -> (x =? x)%float = true.
Proof.
  intros H. rewrite FloatAxioms.eqb_spec, H. unfold SFeqb, SFcompare.
  rewrite Z.compare_refl, Pos.compare_cont_refl. destruct s; reflexivity.
Qed.

(** Equality of binary64 values with a finite, non zero one. *)
Lemma eqb_finite_eq y x s m e :
  Prim2SF x = S754_finite s m e -> (y =? x)%float = true -> y = x.
Proof.
  intros Hx H. rewrite FloatAxioms.eqb_spec, Hx in H.
  apply FloatAxioms.Prim2SF_inj. rewrite Hx.
  unfold SFeqb, SFcompare in H.
  destruct (Prim2SF y) as [[|]|[|]| |s' m' e']; try discriminate;
    try (destruct s; discriminate).
  destruct s', s; try discriminate;
    destruct (e' ?= e) eqn:Ee; try discriminate;
    destruct (Pos.compare_cont Eq m' m) eqn:Em; try discriminate;
    apply Z.compare_eq in Ee; apply Pos.compare_eq in Em; subst; reflexivity.
Qed.

Lemma value_pos m e : 0 < Z.pos m * 2 ^ Z.max e 0 /\ 0 < 2 ^ Z.max (- e) 0.
Proof.
  split.
  - apply Z.mul_pos_pos; [lia|apply Z.pow_pos_nonneg; lia].
  - apply Z.pow_pos_nonneg; lia.
Qed.

Lemma value_bounded x s m e :
  Prim2SF x = S754_finite s m e -> bounded prec emax m e = true.
Proof.
  intros Hx. pose proof (FloatAxioms.Prim2SF_valid x) as H. rewrite Hx in H. exact H.
Qed.

(** The digits of the value itself denote it. *)
Lemma exact_digits_denote x m e n :
  Prim2SF x = S754_finite false m e ->
  let p := Z.pos m * 2 ^ Z.max e 0 in
  let q := 2 ^ Z.max (- e) 0 in
  isMagnitude p q n ->
  1 <= n + Z.max (- e) 0
  /\ candidate x p q n (n + Z.max (- e) 0) <> None.
Proof.
  intros Hx p q [H1 H2]. destruct (value_pos m e) as [Hp Hq].
  fold p in Hp. fold q in Hp, Hq.
  set (b := Z.max (- e) 0) in *.
  assert (Hb : 0 <= b) by lia.
  assert (Hlast : 1 <= n + b).
  { destruct (Z_lt_le_dec (n + b) 1) as [H|H]; [exfalso|exact H].
    unfold tenPowLe in H2.
    destruct (Z.leb_spec 0 n) as [H0|H0].
    - assert (n = 0) by lia. assert (b = 0) by lia. subst n.
      apply Z.leb_gt in H2. unfold q in H2. fold b in H2.
      replace b with 0 in H2 by lia. change (2 ^ 0) with 1 in H2.
      change (10 ^ 0) with 1 in H2. lia.
    - apply Z.leb_gt in H2. unfold q in H2. fold b in H2.
      pose proof (pow2_le_pow10 b Hb).
      assert (10 ^ b <= 10 ^ (- n)) by (apply Z.pow_le_mono_r; lia).
      assert (0 < 10 ^ (- n)) by (apply Z.pow_pos_nonneg; lia).
      nia. }
  split; [exact Hlast|].
  assert (Hself : x = SF2Prim (S754_finite false m e)).
  { rewrite <- Hx. symmetry. apply FloatAxioms.SF2Prim_Prim2SF. }
  assert (Hlo : denotes x (p * 5 ^ b) n (n + b) = true).
  { unfold denotes.
    assert (H5 : 0 < 5 ^ b) by (apply Z.pow_pos_nonneg; lia).
    assert (H10 : 10 ^ b = 5 ^ b * 2 ^ b).
    { change 10 with (5 * 2). apply Z.pow_mul_l. }
    replace (n + b - n) with b by lia.
    destruct (Z.leb_spec (n + b) n) as [Hbn|Hbn].
    - assert (b = 0) by lia.
      rewrite (roundRatio_exact m e); [rewrite <- Hself; apply (eqb_finite_refl x _ _ _ Hx)|apply (value_bounded x false), Hx| | |].
      + replace (n - (n + b)) with 0 by lia. change (10 ^ 0) with 1. nia.
      + lia.
      + fold b. fold p. replace (n - (n + b)) with 0 by lia.
        replace b with 0 by lia. change (5 ^ 0) with 1.
        change (10 ^ 0) with 1. change (2 ^ 0) with 1. lia.
    - rewrite (roundRatio_exact m e); [rewrite <- Hself; apply (eqb_finite_refl x _ _ _ Hx)|apply (value_bounded x false), Hx| | |].
      + nia.
      + apply Z.pow_pos_nonneg; lia.
      + fold b. fold p. rewrite H10. ring. }
  unfold candidate.
  destruct (Z.leb_spec n (n + b)) as [_|H]; [|lia].
  replace (n + b - n) with b by lia.
  assert (Hdiv : Z.div_eucl (p * 10 ^ b) q = (p * 5 ^ b, 0)).
  { assert (H10 : p * 10 ^ b = p * 5 ^ b * q).
    { unfold q. fold b. change 10 with (5 * 2). rewrite Z.pow_mul_l. ring. }
    pose proof (Z.div_mul (p * 5 ^ b) q ltac:(lia)) as Hd.
    pose proof (Z.mod_mul (p * 5 ^ b) q ltac:(lia)) as Hm.
    rewrite <- H10 in Hd, Hm. unfold Z.div in Hd. unfold Z.modulo in Hm.
    destruct (Z.div_eucl (p * 10 ^ b) q) as [d r]. cbn [fst snd] in *.
    subst. reflexivity. }
  rewrite Hdiv. cbv zeta. rewrite Hlo. cbn [andb].
  repeat match goal with
         | |- context [if ?c then _ else _] => destruct c
         end; discriminate.
Qed.

(** The digits that [Number_toString] finds for a positive value. *)
Lemma shortest_digits x m e s n k :
  Prim2SF x = S754_finite false m e ->
  shortest (Z.to_nat (magnitude (Z.pos m * 2 ^ Z.max e 0) (2 ^ Z.max (- e) 0)
                      + Z.max (- e) 0))
           x (Z.pos m * 2 ^ Z.max e 0) (2 ^ Z.max (- e) 0)
           (magnitude (Z.pos m * 2 ^ Z.max e 0) (2 ^ Z.max (- e) 0)) 1
  = (s, n, k) ->
  denotes x s n k = true /\ 1 <= k /\ 10 ^ (k - 1) <= s < 10 ^ k.
Proof.
  intros Hx.
  destruct (value_pos m e) as [Hp Hq].
  pose proof (magnitude_spec _ _ Hp Hq) as Hn.
  destruct (exact_digits_denote x m e _ Hx Hn) as [Hlast Hcand].
  set (n0 := magnitude _ _) in *.
  apply (shortest_spec _ _ Hp Hq x n0 (n0 + Z.max (- e) 0) _ 1 s n k Hn);
    [lia|lia|exact Hcand].
Qed.

Lemma decimalChar_comma s : Forall decimalChar s -> ~ In comma s.
Proof.
  intros H Hin. rewrite Forall_forall in H. specialize (H _ Hin).
  destruct H as [H|[H|[H|[H|H]]]]; discriminate.
Qed.

(** The text of the digits that denote a value is read as that value. *)
Lemma parseCoordinate_decimalText s n k v m e :
  1 <= k -> 10 ^ (k - 1) <= s < 10 ^ k ->
  denotes v s n k = true ->
  Prim2SF v = S754_finite false m e ->
  parseCoordinate (decimalText s n k) = Some v
  /\ exists c t, decimalText s n k = c :: t /\ isDigit c = true.
Proof.
  intros Hk Hs Hden Hv.
  destruct (decimalText_spec s n k Hk Hs) as (Hval & (c & t & Et & Hc) & Hch).
  split; [|exists c, t; split; assumption].
  apply parseCoordinate_Some. split.
  - rewrite replace_comma_none by (apply decimalChar_comma, Hch).
    assert (Hread : unsignedDecimal false (decimalText s n k) = v).
    { rewrite Hval. apply (eqb_finite_eq _ _ _ _ _ Hv). exact Hden. }
    rewrite <- Hread, Et. unfold parseFloat. cbn [trimStart].
    rewrite (digit_not_white c Hc).
    destruct (N.eqb_spec c 43) as [->|_]; [discriminate|].
    destruct (N.eqb_spec c 45) as [->|_]; [discriminate|]. reflexivity.
  - unfold isNaN, is_nan. rewrite (eqb_finite_refl _ _ _ _ Hv). reflexivity.
Qed.

Lemma positiveZero_finite x s m e :
  Prim2SF x = S754_finite s m e -> positiveZero x = x.
Proof.
  intros H. unfold positiveZero, is_zero.
  rewrite FloatAxioms.eqb_spec, H. destruct s; reflexivity.
Qed.

Lemma parseCoordinate_toString_finite x sign m e :
  Prim2SF x = S754_finite sign m e ->
  parseCoordinate (Number_toString x) = Some x.
Proof.
  intros Hx.
  assert (Ha : Prim2SF (abs x) = S754_finite false m e).
  { rewrite FloatAxioms.abs_spec, Hx. reflexivity. }
  unfold Number_toString. rewrite Hx. cbv zeta.
  destruct (shortest _ (abs x) _ _ _ 1) as [[s n] k] eqn:Es.
  destruct (shortest_digits (abs x) m e s n k Ha Es) as (Hden & Hk & Hs).
  destruct (parseCoordinate_decimalText s n k (abs x) m e Hk Hs Hden Ha)
    as (Hparse & c & t & Et & Hc).
  destruct sign.
  - assert (Hopp : (- abs x)%float = x).
    { apply FloatAxioms.Prim2SF_inj.
      rewrite FloatAxioms.opp_spec, Ha, Hx. reflexivity. }
    rewrite Et in *.
    replace (Some x) with (Some (- abs x)%float) by (f_equal; exact Hopp).
    apply (parseCoordinate_minus c t (abs x) Hc Hparse).
    rewrite Hopp. unfold isNaN, is_nan.
    rewrite (eqb_finite_refl _ _ _ _ Hx). reflexivity.
  - assert (Habs : abs x = x).
    { apply FloatAxioms.Prim2SF_inj. rewrite Ha, Hx. reflexivity. }
    rewrite Habs in Hparse. exact Hparse.
Qed.


(** A value that is NaN is the NaN. *)
Lemma isNaN_nan x : isNaN x = true -> x = nan.
Proof.
  intros H. apply FloatAxioms.Prim2SF_inj.
  unfold isNaN, is_nan in H. rewrite FloatAxioms.eqb_spec in H.
  destruct (Prim2SF x) as [s|s| |s m e] eqn:Hx; [| |reflexivity|].
  - discriminate.
  - destruct s; discriminate.
  - pose proof (eqb_finite_refl x s m e Hx) as E.
    rewrite FloatAxioms.eqb_spec, Hx in E. rewrite E in H. discriminate.
Qed.

(** The text of a number, read back. *)
Lemma parseCoordinate_toString x :
  isNaN x = false ->
  parseCoordinate (Number_toString x) = Some (positiveZero x).
Proof.
  intros Hnan. destruct (Prim2SF x) as [s|s| |s m e] eqn:Hx.
  - assert (E : x = if s then neg_zero else zero).
    { apply FloatAxioms.Prim2SF_inj. rewrite Hx. destruct s; reflexivity. }
    rewrite E. destruct s; vm_compute; reflexivity.
  - assert (E : x = if s then neg_infinity else infinity).
    { apply FloatAxioms.Prim2SF_inj. rewrite Hx. destruct s; reflexivity. }
    rewrite E. destruct s; vm_compute; reflexivity.
  - assert (E : x = nan).
    { apply FloatAxioms.Prim2SF_inj. rewrite Hx. reflexivity. }
    rewrite E in Hnan. vm_compute in Hnan. discriminate.
  - rewrite (parseCoordinate_toString_finite x s m e Hx).
    rewrite (positiveZero_finite x s m e Hx). reflexivity.
Qed.


(* ===================================================================== *)
(** * Binary64 arithmetic                                                *)
(* ===================================================================== *)

(** ** Binary64 values and their order *)

Lemma fexp_eq e : fexp prec emax e = Z.max (e - 53) (-1074).
Proof. reflexivity. Qed.

Lemma digits2_bounds m :
  2 ^ (Z.pos (digits2_pos m) - 1) <= Z.pos m < 2 ^ Z.pos (digits2_pos m).
Proof.
  induction m as [m IH|m IH|]; cbn [digits2_pos].
  - rewrite Pos2Z.inj_succ.
    replace (Z.succ (Z.pos (digits2_pos m)) - 1)
      with (Z.succ (Z.pos (digits2_pos m) - 1)) by lia.
    rewrite !Z.pow_succ_r by lia. lia.
  - rewrite Pos2Z.inj_succ.
    replace (Z.succ (Z.pos (digits2_pos m)) - 1)
      with (Z.succ (Z.pos (digits2_pos m) - 1)) by lia.
    rewrite !Z.pow_succ_r by lia. lia.
  - cbn. lia.
Qed.

Lemma Zdigits2_nonneg m : 0 <= m -> 0 <= Zdigits2 m.
Proof. destruct m; cbn; lia. Qed.

Lemma Zdigits2_bounds m :
  0 < m -> 2 ^ (Zdigits2 m - 1) <= m < 2 ^ Zdigits2 m.
Proof.
  destruct m as [|p|p]; try lia. intros _. cbn [Zdigits2]. apply digits2_bounds.
Qed.

(** A number below [2^k] has at most [k] digits. *)
Lemma Zdigits2_le m k : 0 <= m < 2 ^ k -> 0 <= k -> Zdigits2 m <= k.
Proof.
  intros [H0 Hm] Hk. destruct (Z.eq_dec m 0) as [->|Hne]; [cbn; lia|].
  pose proof (Zdigits2_bounds m ltac:(lia)) as [Hl _].
  destruct (Z_le_gt_dec (Zdigits2 m) k) as [H|H]; [exact H|exfalso].
  assert (2 ^ k <= 2 ^ (Zdigits2 m - 1)) by (apply Z.pow_le_mono_r; lia). lia.
Qed.

(** A number from [2^k] on has more than [k] digits. *)
Lemma Zdigits2_gt m k : 2 ^ k <= m -> 0 <= k -> k < Zdigits2 m.
Proof.
  intros Hm Hk.
  assert (0 < 2 ^ k) by (apply Z.pow_pos_nonneg; lia).
  pose proof (Zdigits2_bounds m ltac:(lia)) as [_ Hu].
  pose proof (Zdigits2_nonneg m ltac:(lia)).
  destruct (Z_lt_le_dec k (Zdigits2 m)) as [H'|H']; [exact H'|exfalso].
  assert (2 ^ Zdigits2 m <= 2 ^ k) by (apply Z.pow_le_mono_r; lia). lia.
Qed.

(** What a valid mantissa and exponent are. *)
Lemma bounded_facts m e :
  bounded prec emax m e = true ->
  -1074 <= e <= 971 /\ Z.pos m < 2 ^ 53 /\ (-1074 < e -> 2 ^ 52 <= Z.pos m).
Proof.
  intros H. unfold bounded, canonical_mantissa in H.
  apply andb_prop in H. destruct H as [Hc He].
  apply Z.eqb_eq in Hc. apply Z.leb_le in He. rewrite fexp_eq in Hc.
  change (emax - prec) with 971 in He.
  pose proof (digits2_bounds m) as [Hl Hu].
  set (d := Z.pos (digits2_pos m)) in *.
  assert (Hd : d <= 53) by lia.
  split; [lia|]. split.
  - apply Z.lt_le_trans with (1 := Hu). apply Z.pow_le_mono_r; lia.
  - intros Hn. assert (d = 53) by lia.
    replace 52 with (d - 1) by lia. exact Hl.
Qed.

Lemma pos_compare_fixed m1 e1 m2 e2 :
  bounded prec emax m1 e1 = true -> bounded prec emax m2 e2 = true ->
  match e1 ?= e2 with
  | Eq => Pos.compare_cont Eq m1 m2
  | Lt => Lt
  | Gt => Gt
  end
  = (Z.pos m1 * 2 ^ (e1 + 1074) ?= Z.pos m2 * 2 ^ (e2 + 1074)).
Proof.
  intros H1 H2.
  destruct (bounded_facts _ _ H1) as (He1 & Hm1 & Hn1).
  destruct (bounded_facts _ _ H2) as (He2 & Hm2 & Hn2).
  destruct (Z.compare_spec e1 e2) as [E|E|E].
  - subst e2. change (Pos.compare_cont Eq m1 m2) with (Z.pos m1 ?= Z.pos m2).
    assert (0 < 2 ^ (e1 + 1074)) by (apply Z.pow_pos_nonneg; lia).
    symmetry. destruct (Z.compare_spec (Z.pos m1) (Z.pos m2)) as [E|E|E].
    + rewrite E. apply Z.compare_refl.
    + apply Z.compare_lt_iff. nia.
    + apply Z.compare_gt_iff. nia.
  - symmetry. apply Z.compare_lt_iff.
    replace (e2 + 1074) with ((e2 - e1) + (e1 + 1074)) by lia.
    rewrite (Z.pow_add_r 2 (e2 - e1)) by lia.
    assert (0 < 2 ^ (e1 + 1074)) by (apply Z.pow_pos_nonneg; lia).
    assert (2 <= 2 ^ (e2 - e1)).
    { change 2 with (2 ^ 1) at 1. apply Z.pow_le_mono_r; lia. }
    assert (Hx : -1074 < e2) by lia. specialize (Hn2 Hx).
    apply Z.lt_le_trans with (2 ^ 53 * 2 ^ (e1 + 1074));
      [apply Z.mul_lt_mono_pos_r; lia|].
    rewrite Z.mul_assoc. apply Z.mul_le_mono_nonneg_r; [lia|].
    change (2 ^ 53) with (2 ^ 52 * 2). apply Z.mul_le_mono_nonneg; lia.
  - symmetry. apply Z.compare_gt_iff.
    replace (e1 + 1074) with ((e1 - e2) + (e2 + 1074)) by lia.
    rewrite (Z.pow_add_r 2 (e1 - e2)) by lia.
    assert (0 < 2 ^ (e2 + 1074)) by (apply Z.pow_pos_nonneg; lia).
    assert (2 <= 2 ^ (e1 - e2)).
    { change 2 with (2 ^ 1) at 1. apply Z.pow_le_mono_r; lia. }
    assert (Hx : -1074 < e1) by lia. specialize (Hn1 Hx).
    apply Z.lt_le_trans with (2 ^ 53 * 2 ^ (e2 + 1074));
      [apply Z.mul_lt_mono_pos_r; lia|].
    rewrite Z.mul_assoc. apply Z.mul_le_mono_nonneg_r; [lia|].
    change (2 ^ 53) with (2 ^ 52 * 2). apply Z.mul_le_mono_nonneg; lia.
Qed.

(** The order of the finite binary64 values is the order of their
    values. *)
Lemma SFcompare_fixed f1 f2 :
  valid_binary prec emax f1 = true -> valid_binary prec emax f2 = true ->
  SFfin f1 = true -> SFfin f2 = true ->
  SFcompare f1 f2 = Some (SFfixed f1 ?= SFfixed f2).
Proof.
  intros V1 V2 F1 F2.
  destruct f1 as [s1|s1| |s1 m1 e1], f2 as [s2|s2| |s2 m2 e2];
    try discriminate; cbn [SFcompare SFfixed valid_binary] in *.
  - reflexivity.
  - destruct (bounded_facts _ _ V2) as (He & _).
    assert (0 < Z.pos m2 * 2 ^ (e2 + 1074))
      by (apply Z.mul_pos_pos; [lia|apply Z.pow_pos_nonneg; lia]).
    f_equal. symmetry. destruct s2.
    + apply Z.compare_gt_iff. lia.
    + apply Z.compare_lt_iff. lia.
  - destruct (bounded_facts _ _ V1) as (He & _).
    assert (0 < Z.pos m1 * 2 ^ (e1 + 1074))
      by (apply Z.mul_pos_pos; [lia|apply Z.pow_pos_nonneg; lia]).
    f_equal. symmetry. destruct s1.
    + apply Z.compare_lt_iff. lia.
    + apply Z.compare_gt_iff. lia.
  - destruct (bounded_facts _ _ V1) as (He1 & _).
    destruct (bounded_facts _ _ V2) as (He2 & _).
    assert (0 < Z.pos m1 * 2 ^ (e1 + 1074))
      by (apply Z.mul_pos_pos; [lia|apply Z.pow_pos_nonneg; lia]).
    assert (0 < Z.pos m2 * 2 ^ (e2 + 1074))
      by (apply Z.mul_pos_pos; [lia|apply Z.pow_pos_nonneg; lia]).
    pose proof (pos_compare_fixed m1 e1 m2 e2 V1 V2) as P.
    f_equal. destruct s1, s2.
    + replace (match e1 ?= e2 with
               | Eq => CompOpp (Pos.compare_cont Eq m1 m2)
               | Lt => Gt
               | Gt => Lt
               end)
        with (CompOpp (match e1 ?= e2 with
                       | Eq => Pos.compare_cont Eq m1 m2
                       | Lt => Lt
                       | Gt => Gt
                       end)) by (destruct (e1 ?= e2); reflexivity).
      rewrite P, <- Z.compare_antisym, <- Z.compare_opp. f_equal; lia.
    + symmetry. apply Z.compare_lt_iff. lia.
    + symmetry. apply Z.compare_gt_iff. lia.
    + rewrite P. f_equal; lia.
Qed.

(** ** Rounding *)

Lemma iter_pos_nat {A} (f : A -> A) p : forall x,
  iter_pos f p x = Nat.iter (Pos.to_nat p) f x.
Proof.
  induction p as [p IH|p IH|]; intros x; cbn [iter_pos].
  - rewrite Pos2Nat.inj_xI, !IH.
    replace (S (2 * Pos.to_nat p)) with (S (Pos.to_nat p + Pos.to_nat p))%nat by lia.
    rewrite Nat.iter_succ_r, Nat.iter_add. reflexivity.
  - rewrite Pos2Nat.inj_xO, !IH.
    replace (2 * Pos.to_nat p)%nat with (Pos.to_nat p + Pos.to_nat p)%nat by lia.
    rewrite Nat.iter_add. reflexivity.
  - reflexivity.
Qed.

Lemma shr_1_spec mrs :
  0 <= shr_m mrs ->
  shr_m (shr_1 mrs) = shr_m mrs / 2
  /\ (inexact (shr_1 mrs) = true ->
      shr_m mrs mod 2 <> 0 \/ inexact mrs = true).
Proof.
  destruct mrs as [m r s]. unfold inexact. cbn [shr_m shr_r shr_s]. intros Hm.
  destruct m as [|[p|p|]|p]; try lia; cbn [shr_1 shr_m shr_r shr_s].
  - split; [reflexivity|]. intros H. right. exact H.
  - split.
    + rewrite Pos2Z.inj_xI. apply (Z.div_unique _ 2 _ 1); lia.
    + intros _. left.
      rewrite Pos2Z.inj_xI, Z.add_comm, Z.mul_comm, Z.mod_add by lia.
      change (1 mod 2) with 1. lia.
  - split.
    + rewrite Pos2Z.inj_xO. apply (Z.div_unique _ 2 _ 0); lia.
    + intros H. right. exact H.
  - split; [reflexivity|]. intros _. left. discriminate.
Qed.

Lemma iter_shr_1_spec n : forall mrs,
  0 <= shr_m mrs ->
  shr_m (Nat.iter n shr_1 mrs) = shr_m mrs / 2 ^ Z.of_nat n
  /\ (inexact (Nat.iter n shr_1 mrs) = true ->
      shr_m mrs mod 2 ^ Z.of_nat n <> 0 \/ inexact mrs = true).
Proof.
  induction n as [|n IH]; intros mrs Hm.
  - change (Nat.iter 0 shr_1 mrs) with mrs.
    change (2 ^ Z.of_nat 0) with 1. rewrite Z.div_1_r.
    split; [reflexivity|]. intros H. right. exact H.
  - change (Nat.iter (S n) shr_1 mrs) with (shr_1 (Nat.iter n shr_1 mrs)).
    destruct (IH mrs Hm) as [Hq Hi].
    set (mrs' := Nat.iter n shr_1 mrs) in *.
    assert (Hp : 0 < 2 ^ Z.of_nat n) by (apply Z.pow_pos_nonneg; lia).
    assert (Hm' : 0 <= shr_m mrs').
    { rewrite Hq. apply Z.div_pos; lia. }
    destruct (shr_1_spec mrs' Hm') as [Hq1 Hi1].
    rewrite Nat2Z.inj_succ, Z.pow_succ_r by lia.
    split.
    + rewrite Hq1, Hq, Z.div_div by lia. f_equal. lia.
    + intros H. destruct (Hi1 H) as [Hodd|Hprev].
      * left. intros Hz. apply Hodd. rewrite Hq.
        apply Z.mod_divide in Hz; [|lia]. destruct Hz as [c Hc].
        rewrite Hc. replace (c * (2 * 2 ^ Z.of_nat n))
          with (c * 2 * 2 ^ Z.of_nat n) by ring.
        rewrite Z.div_mul by lia. apply Z.mod_mul. lia.
      * destruct (Hi Hprev) as [Hrem|H0]; [left|right; exact H0].
        intros Hz. apply Hrem.
        apply Z.mod_divide in Hz; [|lia]. destruct Hz as [c Hc].
        rewrite Hc. replace (c * (2 * 2 ^ Z.of_nat n))
          with (c * 2 * 2 ^ Z.of_nat n) by ring.
        apply Z.mod_mul. lia.
Qed.

(** The first step of rounding: the mantissa shifted to the exponent of
    the result. *)
Lemma shr_fexp_spec m e l :
  0 <= m ->
  let e' := Z.max e (fexp prec emax (Zdigits2 m + e)) in
  exists mrs,
    shr_fexp prec emax m e l = (mrs, e')
    /\ shr_m mrs = m / 2 ^ (e' - e)
    /\ (inexact mrs = true -> m mod 2 ^ (e' - e) <> 0 \/ l <> loc_Exact).
Proof.
  intros Hm e'. unfold shr_fexp, shr.
  assert (H0 : shr_m (shr_record_of_loc m l) = m) by (destruct l as [|[| |]]; reflexivity).
  assert (Hl : inexact (shr_record_of_loc m l) = true -> l <> loc_Exact).
  { destruct l as [|[| |]]; [discriminate|intros _; discriminate..]. }
  destruct (fexp prec emax (Zdigits2 m + e) - e) as [|p|p] eqn:Es.
  - exists (shr_record_of_loc m l). replace e' with e by (unfold e'; lia).
    rewrite Z.sub_diag. change (2 ^ 0) with 1. rewrite Z.div_1_r.
    split; [reflexivity|]. split; [exact H0|]. intros H. right. apply Hl, H.
  - exists (iter_pos shr_1 p (shr_record_of_loc m l)).
    replace e' with (e + Z.pos p) by (unfold e'; lia).
    split; [reflexivity|].
    rewrite iter_pos_nat.
    destruct (iter_shr_1_spec (Pos.to_nat p) (shr_record_of_loc m l))
      as [Hq Hi]; [rewrite H0; exact Hm|].
    rewrite positive_nat_Z, H0 in Hq, Hi.
    replace (e + Z.pos p - e) with (Z.pos p) by lia.
    split; [exact Hq|]. intros H. destruct (Hi H) as [H1|H1]; [left; exact H1|].
    right. apply Hl, H1.
  - exists (shr_record_of_loc m l). replace e' with e by (unfold e'; lia).
    rewrite Z.sub_diag. change (2 ^ 0) with 1. rewrite Z.div_1_r.
    split; [reflexivity|]. split; [exact H0|]. intros H. right. apply Hl, H.
Qed.

Lemma round_nearest_even_cases mrs :
  let m1 := round_nearest_even (shr_m mrs) (loc_of_shr_record mrs) in
  m1 = shr_m mrs \/ (m1 = shr_m mrs + 1 /\ inexact mrs = true).
Proof.
  destruct mrs as [m [|] [|]]; unfold inexact;
    cbn [round_nearest_even loc_of_shr_record shr_m shr_r shr_s orb]; auto.
  destruct (Z.even m); auto.
Qed.

(** Rounding: the mantissa [m] at the exponent [e], to which [l] adds a
    fraction of a unit, is rounded to a mantissa [m1] at the exponent of
    the result that is the quotient or, when something is lost, possibly
    the next integer. *)
Lemma binary_round_aux_cases s m e l :
  0 <= m ->
  let e' := Z.max e (fexp prec emax (Zdigits2 m + e)) in
  let q := m / 2 ^ (e' - e) in
  exists m1,
    (m1 = q \/ (m1 = q + 1 /\ (m mod 2 ^ (e' - e) <> 0 \/ l <> loc_Exact)))
    /\ 0 <= q < 2 ^ 53
    /\ binary_round_aux prec emax s m e l = rounded s m1 e'.
Proof.
  intros Hm e' q.
  pose proof (fexp_eq (Zdigits2 m + e)) as HF.
  assert (He' : -1074 <= e' /\ e <= e') by (unfold e'; lia).
  assert (Hp : 0 < 2 ^ (e' - e)) by (apply Z.pow_pos_nonneg; lia).
  assert (Hq0 : 0 <= q) by (apply Z.div_pos; lia).
  assert (Hq53 : q < 2 ^ 53).
  { destruct (Z.eq_dec m 0) as [->|Hne].
    - unfold q. rewrite Z.div_0_l by lia. lia.
    - pose proof (Zdigits2_bounds m ltac:(lia)) as [_ Hu].
      pose proof (Zdigits2_nonneg m Hm).
      apply Z.div_lt_upper_bound; [lia|].
      rewrite <- Z.pow_add_r by lia.
      apply Z.lt_le_trans with (1 := Hu). apply Z.pow_le_mono_r; lia. }
  unfold binary_round_aux.
  destruct (shr_fexp_spec m e l Hm) as (mrs & E1 & Hq & Hi).
  fold e' in E1, Hq, Hi. fold q in Hq. rewrite E1.
  set (m1 := round_nearest_even (shr_m mrs) (loc_of_shr_record mrs)).
  assert (Hm1 : m1 = q \/ (m1 = q + 1 /\ (m mod 2 ^ (e' - e) <> 0 \/ l <> loc_Exact))).
  { destruct (round_nearest_even_cases mrs) as [H|[H H']]; fold m1 in H;
      rewrite Hq in H; [left; exact H|right]. split; [exact H|]. apply Hi, H'. }
  assert (Hm1b : 0 <= m1 <= 2 ^ 53) by (destruct Hm1 as [->|[-> _]]; lia).
  exists m1. split; [exact Hm1|]. split; [lia|].
  destruct (shr_fexp_spec m1 e' loc_Exact (proj1 Hm1b)) as (mrs2 & E2 & Hq2 & _).
  rewrite E2.
  pose proof (fexp_eq (Zdigits2 m1 + e')) as HF2.
  unfold rounded.
  destruct (Z.eqb_spec m1 0) as [E0|N0].
  - assert (Hd : Zdigits2 m1 = 0) by (rewrite E0; reflexivity).
    rewrite Hq2, E0, Z.div_0_l; [reflexivity|].
    apply Z.pow_nonzero; lia.
  - destruct (Z.eqb_spec m1 (2 ^ 53)) as [Hc|Hc].
    + assert (Hd : Zdigits2 m1 = 54) by (rewrite Hc; reflexivity).
      replace (Z.max e' (fexp prec emax (Zdigits2 m1 + e'))) with (e' + 1) in *
        by lia.
      replace (e' + 1 - e') with 1 in Hq2 by lia.
      rewrite Hc in Hq2. change (2 ^ 53 / 2 ^ 1) with (2 ^ 52) in Hq2.
      rewrite Hq2. change (emax - prec) with 971. reflexivity.
    + assert (Hd : Zdigits2 m1 <= 53) by (apply Zdigits2_le; lia).
      replace (Z.max e' (fexp prec emax (Zdigits2 m1 + e'))) with e' in * by lia.
      rewrite Z.sub_diag in Hq2. change (2 ^ 0) with 1 in Hq2.
      rewrite Z.div_1_r in Hq2. rewrite Hq2.
      change (emax - prec) with 971.
      destruct m1 as [|p|p]; [lia|reflexivity|lia].
Qed.

(** When the value is below [2^1023], the result is finite and its value
    is that of the rounded mantissa. *)
Lemma binary_round_aux_spec s m e l :
  0 <= m -> e <= 971 -> Zdigits2 m + e < 1024 ->
  let e' := Z.max e (fexp prec emax (Zdigits2 m + e)) in
  let q := m / 2 ^ (e' - e) in
  let r := binary_round_aux prec emax s m e l in
  exists m1,
    (m1 = q \/ (m1 = q + 1 /\ (m mod 2 ^ (e' - e) <> 0 \/ l <> loc_Exact)))
    /\ SFfin r = true
    /\ SFfixed r = (if s then -1 else 1) * (m1 * 2 ^ (e' + 1074)).
Proof.
  intros Hm He HD e' q r.
  destruct (binary_round_aux_cases s m e l Hm) as (m1 & Hm1 & Hq & Er).
  fold e' in Hm1, Hq, Er. fold q in Hm1, Hq. fold r in Er.
  exists m1. split; [exact Hm1|].
  pose proof (fexp_eq (Zdigits2 m + e)) as HF.
  assert (He' : -1074 <= e' <= 971 /\ e <= e') by (unfold e'; lia).
  rewrite Er. unfold rounded.
  destruct (Z.eqb_spec m1 0) as [E0|N0].
  - split; [reflexivity|]. cbn [SFfixed]. rewrite E0. lia.
  - assert (Hm1b : 0 < m1 <= 2 ^ 53) by (destruct Hm1 as [->|[-> _]]; lia).
    destruct (Z.eqb_spec m1 (2 ^ 53)) as [Hc|Hc].
    + (* the mantissa has reached 2^53 *)
      assert (He970 : e' <= 970).
      { assert (Hq52 : 2 ^ 53 - 1 <= q) by (destruct Hm1 as [->|[-> _]]; lia).
        destruct (Z.eq_dec e' e) as [Ee|Ee].
        - assert (q = m) by (unfold q; rewrite Ee, Z.sub_diag; apply Z.div_1_r).
          assert (52 < Zdigits2 m) by (apply Zdigits2_gt; lia). lia.
        - unfold e' in *. lia. }
      destruct (Z.leb_spec (e' + 1) 971) as [_|H]; [|lia].
      split; [reflexivity|]. cbn [SFfixed]. rewrite Hc.
      change (Z.pos (Z.to_pos (2 ^ 52))) with (2 ^ 52).
      replace (e' + 1 + 1074) with (1 + (e' + 1074)) by lia.
      rewrite (Z.pow_add_r 2 1) by lia. change (2 ^ 53) with (2 ^ 52 * 2 ^ 1). ring.
    + destruct (Z.leb_spec e' 971) as [_|H]; [|lia].
      split; [reflexivity|]. cbn [SFfixed]. rewrite Z2Pos.id by lia. reflexivity.
Qed.

(** ** Bounds on products and quotients *)

Lemma pow2_shift_le a b u v w :
  0 <= u -> 0 <= v -> 0 <= u + w -> 0 <= v + w ->
  a * 2 ^ u <= b * 2 ^ v <-> a * 2 ^ (u + w) <= b * 2 ^ (v + w).
Proof.
  intros Hu Hv Huw Hvw. destruct (Z_le_gt_dec 0 w) as [Hw|Hw].
  - rewrite (Z.pow_add_r 2 u w), (Z.pow_add_r 2 v w), !Z.mul_assoc by lia.
    apply Z.mul_le_mono_pos_r. apply Z.pow_pos_nonneg; lia.
  - replace u with ((u + w) + (- w)) at 1 by lia.
    replace v with ((v + w) + (- w)) at 1 by lia.
    rewrite (Z.pow_add_r 2 (u + w) (- w)), (Z.pow_add_r 2 (v + w) (- w)) by lia.
    rewrite !Z.mul_assoc.
    symmetry. apply Z.mul_le_mono_pos_r. apply Z.pow_pos_nonneg; lia.
Qed.

(** A value of at most [2^k] is rounded to at most [2^k]. *)
Lemma round_aux_le_pow2 s m e l k :
  0 <= m -> e <= k -> 0 <= k <= 971 ->
  m + (match l with loc_Exact => 0 | _ => 1 end) <= 2 ^ (k - e) ->
  let r := binary_round_aux prec emax s m e l in
  SFfin r = true /\ Z.abs (SFfixed r) <= 2 ^ (k + 1074).
Proof.
  intros Hm He Hk Hle r.
  assert (Hml : m <= 2 ^ (k - e)) by (destruct l; lia).
  assert (HD : Zdigits2 m + e <= k + 1).
  { assert (Zdigits2 m <= k - e + 1); [|lia].
    apply Zdigits2_le; [|lia]. rewrite Z.pow_add_r by lia.
    change (2 ^ 1) with 2. lia. }
  destruct (binary_round_aux_spec s m e l Hm ltac:(lia) ltac:(lia))
    as (m1 & Hm1 & Hfin & Hval).
  fold r in Hfin, Hval.
  pose proof (fexp_eq (Zdigits2 m + e)) as HF.
  set (e' := Z.max e (fexp prec emax (Zdigits2 m + e))) in *.
  assert (He' : -1074 <= e' <= k /\ e <= e') by (unfold e'; lia).
  assert (Hp : 0 < 2 ^ (e' - e)) by (apply Z.pow_pos_nonneg; lia).
  assert (Hsplit : 2 ^ (k - e) = 2 ^ (k - e') * 2 ^ (e' - e)).
  { rewrite <- Z.pow_add_r by lia. f_equal. lia. }
  set (q := m / 2 ^ (e' - e)) in *.
  assert (Hq : 0 <= q <= 2 ^ (k - e')).
  { split; [apply Z.div_pos; lia|].
    apply Z.div_le_upper_bound; [lia|]. rewrite Z.mul_comm, <- Hsplit. exact Hml. }
  assert (Hm1le : 0 <= m1 <= 2 ^ (k - e')).
  { destruct Hm1 as [->|[-> Hin]]; [exact Hq|].
    split; [lia|].
    destruct (Z.eq_dec q (2 ^ (k - e'))) as [Eq|Ne]; [exfalso|lia].
    pose proof (Z.mul_div_le m (2 ^ (e' - e)) Hp) as Hfloor. fold q in Hfloor.
    rewrite Eq, Z.mul_comm, <- Hsplit in Hfloor.
    assert (Em : m = 2 ^ (k - e)) by lia.
    destruct Hin as [Hrem|Hl].
    - apply Hrem. rewrite Em, Hsplit. apply Z.mod_mul. lia.
    - destruct l; [apply Hl; reflexivity|lia]. }
  split; [exact Hfin|]. rewrite Hval.
  assert (H2 : 0 < 2 ^ (e' + 1074)) by (apply Z.pow_pos_nonneg; lia).
  replace (k + 1074) with ((k - e') + (e' + 1074)) by lia.
  rewrite (Z.pow_add_r 2 (k - e') (e' + 1074)) by lia.
  assert (H3 : 0 <= m1 * 2 ^ (e' + 1074)) by (apply Z.mul_nonneg_nonneg; lia).
  replace (Z.abs ((if s then -1 else 1) * (m1 * 2 ^ (e' + 1074))))
    with (m1 * 2 ^ (e' + 1074)) by (destruct s; lia).
  apply Z.mul_le_mono_nonneg_r; lia.
Qed.

Lemma Zabs_mul_bound x y a b :
  Z.abs x <= a -> Z.abs y <= b -> Z.abs (x * y) <= a * b.
Proof. intros Hx Hy. rewrite Z.abs_mul. apply Z.mul_le_mono_nonneg; lia. Qed.

(** The product of two values of at most [A] and [B] is at most a power of
    two from [A * B] on. *)
Lemma SFmul_bound x y A B k :
  valid_binary prec emax x = true -> valid_binary prec emax y = true ->
  SFfin x = true -> SFfin y = true ->
  Z.abs (SFfixed x) <= A * 2 ^ 1074 -> Z.abs (SFfixed y) <= B * 2 ^ 1074 ->
  A * B <= 2 ^ k -> 0 <= k <= 971 ->
  SFfin (SFmul prec emax x y) = true
  /\ Z.abs (SFfixed (SFmul prec emax x y)) <= 2 ^ (k + 1074).
Proof.
  intros Vx Vy Fx Fy Hx Hy HAB Hk.
  assert (Hpos : 0 <= 2 ^ (k + 1074)) by (apply Z.pow_nonneg; lia).
  destruct x as [sx|sx| |sx mx ex], y as [sy|sy| |sy my ey]; try discriminate;
    cbn [SFmul]; try (split; [reflexivity|exact Hpos]).
  cbn [valid_binary SFfixed] in *.
  destruct (bounded_facts _ _ Vx) as (Hex & _).
  destruct (bounded_facts _ _ Vy) as (Hey & _).
  assert (Px : 0 < 2 ^ (ex + 1074)) by (apply Z.pow_pos_nonneg; lia).
  assert (Py : 0 < 2 ^ (ey + 1074)) by (apply Z.pow_pos_nonneg; lia).
  assert (HX : Z.pos mx * 2 ^ (ex + 1074) <= A * 2 ^ 1074) by (destruct sx; lia).
  assert (HY : Z.pos my * 2 ^ (ey + 1074) <= B * 2 ^ 1074) by (destruct sy; lia).
  assert (HXY : Z.pos (mx * my) * 2 ^ (ex + ey + 2148) <= 2 ^ (k + 2148)).
  { assert (E1 : 2 ^ (ex + ey + 2148) = 2 ^ (ex + 1074) * 2 ^ (ey + 1074)).
    { rewrite <- Z.pow_add_r by lia. f_equal. lia. }
    assert (E2 : 2 ^ (k + 2148) = 2 ^ k * (2 ^ 1074 * 2 ^ 1074)).
    { rewrite <- !Z.pow_add_r by lia. f_equal. }
    rewrite E1, E2, Pos2Z.inj_mul.
    apply Z.le_trans with (A * 2 ^ 1074 * (B * 2 ^ 1074)).
    - replace (Z.pos mx * Z.pos my * (2 ^ (ex + 1074) * 2 ^ (ey + 1074)))
        with (Z.pos mx * 2 ^ (ex + 1074) * (Z.pos my * 2 ^ (ey + 1074))) by ring.
      apply Z.mul_le_mono_nonneg; lia.
    - replace (A * 2 ^ 1074 * (B * 2 ^ 1074))
        with (A * B * (2 ^ 1074 * 2 ^ 1074)) by ring.
      apply Z.mul_le_mono_nonneg_r; [|exact HAB].
      apply Z.mul_nonneg_nonneg; apply Z.pow_nonneg; lia. }
  assert (Pe : 0 < 2 ^ (ex + ey + 2148)) by (apply Z.pow_pos_nonneg; lia).
  assert (He : ex + ey <= k).
  { assert (H : 2 ^ (ex + ey + 2148) <= 2 ^ (k + 2148)).
    { apply Z.le_trans with (2 := HXY).
      rewrite <- (Z.mul_1_l (2 ^ (ex + ey + 2148))) at 1.
      apply Z.mul_le_mono_nonneg_r; lia. }
    apply Z.pow_le_mono_r_iff in H; lia. }
  apply round_aux_le_pow2; [lia|exact He|exact Hk|].
  rewrite Z.add_0_r.
  replace (k + 2148) with ((k - (ex + ey)) + (ex + ey + 2148)) in HXY by lia.
  rewrite (Z.pow_add_r 2 (k - (ex + ey))) in HXY by lia.
  apply Z.mul_le_mono_pos_r in HXY; [exact HXY|exact Pe].
Qed.

Lemma new_location_exact n : new_location n 0 = loc_Exact.
Proof.
  unfold new_location, new_location_even, new_location_odd.
  destruct (Z.even n); reflexivity.
Qed.

(** The quotient of a value of at most [A] by one of at least [B] is at
    most a power of two from [A / B] on. *)
Lemma SFdiv_bound x sy my ey A B k :
  valid_binary prec emax x = true -> bounded prec emax my ey = true ->
  SFfin x = true ->
  Z.abs (SFfixed x) <= A * 2 ^ 1074 ->
  B * 2 ^ 1074 <= Z.pos my * 2 ^ (ey + 1074) ->
  0 < B -> A <= 2 ^ k * B -> 0 <= k <= 971 ->
  SFfin (SFdiv prec emax x (S754_finite sy my ey)) = true
  /\ Z.abs (SFfixed (SFdiv prec emax x (S754_finite sy my ey)))
     <= 2 ^ (k + 1074).
Proof.
  intros Vx Vy Fx Hx Hy HB HAB Hk.
  assert (Hpos : 0 <= 2 ^ (k + 1074)) by (apply Z.pow_nonneg; lia).
  destruct x as [sx|sx| |sx mx ex]; try discriminate;
    cbn [SFdiv]; try (split; [reflexivity|exact Hpos]).
  cbn [valid_binary SFfixed] in *.
  destruct (bounded_facts _ _ Vx) as (Hex & _).
  destruct (bounded_facts _ _ Vy) as (Hey & _).
  assert (Px : 0 < 2 ^ (ex + 1074)) by (apply Z.pow_pos_nonneg; lia).
  assert (Py : 0 < 2 ^ (ey + 1074)) by (apply Z.pow_pos_nonneg; lia).
  assert (PU : 0 < 2 ^ 1074) by (apply Z.pow_pos_nonneg; lia).
  assert (Pk : 0 < 2 ^ k) by (apply Z.pow_pos_nonneg; lia).
  assert (HX : Z.pos mx * 2 ^ (ex + 1074) <= A * 2 ^ 1074) by (destruct sx; lia).
  (* the dividend is at most 2^k times the divisor *)
  assert (HXY : Z.pos mx * 2 ^ (ex + 1074)
                <= Z.pos my * 2 ^ (k + ey + 1074)).
  { replace (k + ey + 1074) with (k + (ey + 1074)) by lia.
    rewrite (Z.pow_add_r 2 k (ey + 1074)) by lia.
    apply Z.le_trans with (1 := HX).
    apply Z.le_trans with (2 ^ k * (B * 2 ^ 1074)).
    - rewrite Z.mul_assoc. apply Z.mul_le_mono_nonneg_r; lia.
    - replace (Z.pos my * (2 ^ k * 2 ^ (ey + 1074)))
        with (2 ^ k * (Z.pos my * 2 ^ (ey + 1074))) by ring.
      apply Z.mul_le_mono_nonneg_l; lia. }
  unfold SFdiv_core_binary. cbn [Zdigits2].
  pose proof (digits2_bounds mx) as [Hdx _].
  pose proof (digits2_bounds my) as [_ Hdy].
  set (d1 := Z.pos (digits2_pos mx)) in *.
  set (d2 := Z.pos (digits2_pos my)) in *.
  pose proof (fexp_eq (d1 + ex - (d2 + ey))) as HF.
  set (e' := Z.min (fexp prec emax (d1 + ex - (d2 + ey))) (ex - ey)).
  (* the exponent *)
  assert (Hd : d1 + ex - (d2 + ey) <= k).
  { assert (H : 2 ^ (d1 - 1 + (ex + 1074)) < 2 ^ (d2 + (k + ey + 1074))).
    { assert (Pd : 0 < d1 /\ 0 < d2) by (unfold d1, d2; lia).
      assert (Pke : 0 < 2 ^ (k + ey + 1074)) by (apply Z.pow_pos_nonneg; lia).
      rewrite (Z.pow_add_r 2 (d1 - 1) (ex + 1074)) by lia.
      rewrite (Z.pow_add_r 2 d2 (k + ey + 1074)) by lia.
      apply Z.le_lt_trans with (Z.pos mx * 2 ^ (ex + 1074));
        [apply Z.mul_le_mono_nonneg_r; lia|].
      apply Z.le_lt_trans with (1 := HXY).
      apply Z.mul_lt_mono_pos_r; lia. }
    apply Z.pow_lt_mono_r_iff in H; lia. }
  assert (He' : e' <= k /\ e' <= ex - ey) by (unfold e'; lia).
  set (s := ex - ey - e').
  assert (Hs : 0 <= s) by (unfold s; lia).
  set (m' := match s with
             | 0 => Z.pos mx
             | Z.pos _ => Z.shiftl (Z.pos mx) s
             | Z.neg _ => 0
             end).
  assert (Hm' : m' = Z.pos mx * 2 ^ s).
  { unfold m'. destruct s as [|p|p] eqn:Es; [cbn; lia| |lia].
    apply Z.shiftl_mul_pow2. lia. }
  (* the quotient *)
  assert (HT : m' <= Z.pos my * 2 ^ (k - e')).
  { rewrite Hm'.
    apply (pow2_shift_le (Z.pos mx) (Z.pos my) s (k - e') (e' + ey + 1074));
      try lia.
    replace (s + (e' + ey + 1074)) with (ex + 1074) by (unfold s; lia).
    replace (k - e' + (e' + ey + 1074)) with (k + ey + 1074) by lia.
    exact HXY. }
  pose proof (Z.div_eucl_eq m' (Z.pos my) ltac:(lia)) as Hdiv.
  pose proof (Z.mod_pos_bound m' (Z.pos my) ltac:(lia)) as Hrem.
  unfold Z.modulo in Hrem.
  destruct (Z.div_eucl m' (Z.pos my)) as [q r].
  assert (P2 : 0 < 2 ^ (k - e')) by (apply Z.pow_pos_nonneg; lia).
  assert (Hm0 : 0 <= m') by (rewrite Hm'; apply Z.mul_nonneg_nonneg; [lia|apply Z.pow_nonneg; lia]).
  assert (Hq0 : 0 <= q) by nia.
  apply round_aux_le_pow2; [exact Hq0|lia|exact Hk|].
  destruct (Z.eq_dec r 0) as [->|Hr].
  - rewrite new_location_exact. nia.
  - assert (q + 1 <= 2 ^ (k - e')) by nia.
    destruct (new_location (Z.pos my) r); lia.
Qed.

(** ** Sums and differences *)

Lemma shl_align_spec mx ex ex' :
  let '(mz, ez) := shl_align mx ex ex' in
  ez = Z.min ex ex'
  /\ Z.pos mz = Z.pos mx * 2 ^ (ex - ez)
  /\ Z.pos (digits2_pos mz) + ez = Z.pos (digits2_pos mx) + ex.
Proof.
  unfold shl_align. destruct (ex' - ex) as [|p|p] eqn:E.
  - replace (Z.min ex ex') with ex by lia. rewrite Z.sub_diag.
    change (2 ^ 0) with 1. repeat split; lia.
  - replace (Z.min ex ex') with ex by lia. rewrite Z.sub_diag.
    change (2 ^ 0) with 1. repeat split; lia.
  - replace (Z.min ex ex') with ex' by lia.
    replace (ex - ex') with (Z.pos p) by lia.
    rewrite iter_xO_value, iter_xO_digits. repeat split; lia.
Qed.

(** A mantissa and an exponent are rounded to a value less than one unit
    of the last place away. *)
Lemma binary_round_spec s p ez k :
  -1074 <= ez -> Z.pos p * 2 ^ (ez + 1074) <= 2 ^ (k + 1074) ->
  0 <= k <= 970 ->
  let r := binary_round prec emax s p ez in
  SFfin r = true
  /\ Z.abs (SFfixed r - (if s then -1 else 1) * (Z.pos p * 2 ^ (ez + 1074)))
     < 2 ^ lastPlace k.
Proof.
  intros Hez Hle Hk r.
  assert (Pz : 0 < 2 ^ (ez + 1074)) by (apply Z.pow_pos_nonneg; lia).
  (* the exponent and the digits *)
  assert (Hezk : ez <= k).
  { assert (H : 2 ^ (ez + 1074) <= 2 ^ (k + 1074)).
    { apply Z.le_trans with (2 := Hle).
      rewrite <- (Z.mul_1_l (2 ^ (ez + 1074))) at 1.
      apply Z.mul_le_mono_nonneg_r; lia. }
    apply Z.pow_le_mono_r_iff in H; lia. }
  assert (Hp : Z.pos p <= 2 ^ (k - ez)).
  { replace (k + 1074) with ((k - ez) + (ez + 1074)) in Hle by lia.
    rewrite (Z.pow_add_r 2 (k - ez)) in Hle by lia.
    apply Z.mul_le_mono_pos_r in Hle; [exact Hle|exact Pz]. }
  assert (HD : Z.pos (digits2_pos p) + ez <= k + 1).
  { assert (Zdigits2 (Z.pos p) <= k - ez + 1); [|cbn [Zdigits2] in *; lia].
    apply Zdigits2_le; [|lia].
    rewrite (Z.pow_add_r 2 (k - ez) 1) by lia. change (2 ^ 1) with 2. lia. }
  unfold r, binary_round.
  pose proof (shl_align_spec p ez (fexp prec emax (Z.pos (digits2_pos p) + ez)))
    as Hal.
  destruct (shl_align p ez (fexp prec emax (Z.pos (digits2_pos p) + ez)))
    as [mz ez'].
  destruct Hal as (Eez & Emz & Edig).
  pose proof (fexp_eq (Z.pos (digits2_pos p) + ez)) as HF.
  destruct (binary_round_aux_spec s (Z.pos mz) ez' loc_Exact)
    as (m1 & Hm1 & Hfin & Hval); [lia|lia|cbn [Zdigits2]; lia|].
  split; [exact Hfin|]. rewrite Hval. clear Hval Hfin.
  cbn [Zdigits2] in *. rewrite Edig in *.
  set (F := fexp prec emax (Z.pos (digits2_pos p) + ez)) in *.
  replace (Z.max ez' F) with F in * by lia.
  assert (HFk : F + 1074 <= lastPlace k) by (unfold lastPlace; lia).
  assert (Hj : 0 <= F - ez') by lia.
  assert (Pj : 0 < 2 ^ (F - ez')) by (apply Z.pow_pos_nonneg; lia).
  assert (Pe : 0 < 2 ^ (ez' + 1074)) by (apply Z.pow_pos_nonneg; lia).
  (* the value is kept by the alignment *)
  assert (Eval : Z.pos p * 2 ^ (ez + 1074) = Z.pos mz * 2 ^ (ez' + 1074)).
  { rewrite Emz. replace (ez + 1074) with ((ez - ez') + (ez' + 1074)) by lia.
    rewrite (Z.pow_add_r 2 (ez - ez')) by lia. ring. }
  assert (EF : 2 ^ (F + 1074) = 2 ^ (F - ez') * 2 ^ (ez' + 1074)).
  { rewrite <- Z.pow_add_r by lia. f_equal. lia. }
  rewrite Eval, EF.
  apply Z.lt_le_trans with (2 ^ (F - ez') * 2 ^ (ez' + 1074));
    [|rewrite <- EF; apply Z.pow_le_mono_r; lia].
  pose proof (Z.div_mod (Z.pos mz) (2 ^ (F - ez')) ltac:(lia)) as Hdm.
  pose proof (Z.mod_pos_bound (Z.pos mz) (2 ^ (F - ez')) Pj) as Hrem.
  set (q := Z.pos mz / 2 ^ (F - ez')) in *.
  set (rem := Z.pos mz mod 2 ^ (F - ez')) in *.
  assert (Hdiff : Z.abs (m1 * 2 ^ (F - ez') - Z.pos mz) < 2 ^ (F - ez')).
  { destruct Hm1 as [->|[-> [Hne|Hl]]]; [| |exfalso; apply Hl; reflexivity].
    - rewrite Z.abs_neq by nia. nia.
    - rewrite Z.abs_eq by nia. nia. }
  replace ((if s then -1 else 1) * (m1 * (2 ^ (F - ez') * 2 ^ (ez' + 1074)))
           - (if s then -1 else 1) * (Z.pos mz * 2 ^ (ez' + 1074)))
    with ((if s then -1 else 1)
          * ((m1 * 2 ^ (F - ez') - Z.pos mz) * 2 ^ (ez' + 1074)))
    by (destruct s; ring).
  rewrite Z.abs_mul, (Z.abs_mul _ (2 ^ (ez' + 1074))).
  replace (Z.abs (if s then -1 else 1)) with 1 by (destruct s; reflexivity).
  rewrite Z.mul_1_l, (Z.abs_eq (2 ^ (ez' + 1074))) by lia.
  apply Z.mul_lt_mono_pos_r; assumption.
Qed.

Lemma lastPlace_pos k : 0 < 2 ^ lastPlace k.
Proof. apply Z.pow_pos_nonneg; unfold lastPlace; lia. Qed.

Lemma binary_normalize_spec M ez k :
  -1074 <= ez -> Z.abs M * 2 ^ (ez + 1074) <= 2 ^ (k + 1074) ->
  0 <= k <= 970 ->
  let r := binary_normalize prec emax M ez false in
  SFfin r = true
  /\ Z.abs (SFfixed r - M * 2 ^ (ez + 1074)) < 2 ^ lastPlace k.
Proof.
  intros Hez Hle Hk r. unfold r. destruct M as [|p|p]; cbn [binary_normalize].
  - split; [reflexivity|]. cbn [SFfixed]. rewrite Z.mul_0_l. cbn [Z.sub Z.opp Z.abs].
    apply lastPlace_pos.
  - destruct (binary_round_spec false p ez k Hez Hle Hk) as [Hf Hv].
    split; [exact Hf|]. rewrite Z.mul_1_l in Hv. exact Hv.
  - destruct (binary_round_spec true p ez k Hez Hle Hk) as [Hf Hv].
    split; [exact Hf|].
    replace (Z.neg p * 2 ^ (ez + 1074))
      with (-1 * (Z.pos p * 2 ^ (ez + 1074))) by lia.
    exact Hv.
Qed.

Lemma aligned_value s m e ez :
  ez <= e -> -1074 <= ez ->
  cond_Zopp s (Z.pos (fst (shl_align m e ez))) * 2 ^ (ez + 1074)
  = SFfixed (S754_finite s m e).
Proof.
  intros Hle Hez. pose proof (shl_align_spec m e ez) as H.
  destruct (shl_align m e ez) as [mz ez']. destruct H as (E1 & E2 & _).
  cbn [fst SFfixed]. rewrite E2, E1.
  replace (Z.min e ez) with ez by lia.
  replace (e + 1074) with ((e - ez) + (ez + 1074)) by lia.
  rewrite (Z.pow_add_r 2 (e - ez)) by lia.
  destruct s; cbn [cond_Zopp]; ring.
Qed.

(** A sum of at most [2^k] is less than one unit of the last place away
    from the sum of the values. *)
Lemma SFadd_spec x y k :
  valid_binary prec emax x = true -> valid_binary prec emax y = true ->
  SFfin x = true -> SFfin y = true ->
  Z.abs (SFfixed x + SFfixed y) <= 2 ^ (k + 1074) -> 0 <= k <= 970 ->
  SFfin (SFadd prec emax x y) = true
  /\ Z.abs (SFfixed (SFadd prec emax x y) - (SFfixed x + SFfixed y))
     < 2 ^ lastPlace k.
Proof.
  intros Vx Vy Fx Fy Hle Hk. pose proof (lastPlace_pos k) as Hlp.
  destruct x as [sx|sx| |sx mx ex], y as [sy|sy| |sy my ey]; try discriminate;
    cbn [SFadd].
  - split; [destruct sx, sy; reflexivity|].
    destruct sx, sy; cbn [SFfixed]; exact Hlp.
  - split; [reflexivity|]. cbn [SFfixed] in *.
    rewrite Z.add_0_l, Z.sub_diag. exact Hlp.
  - split; [reflexivity|]. cbn [SFfixed] in *.
    rewrite Z.add_0_r, Z.sub_diag. exact Hlp.
  - cbn [valid_binary] in *.
    destruct (bounded_facts _ _ Vx) as (Hex & _).
    destruct (bounded_facts _ _ Vy) as (Hey & _).
    set (ez := Z.min ex ey).
    assert (Hez : -1074 <= ez /\ ez <= ex /\ ez <= ey) by (unfold ez; lia).
    set (M := cond_Zopp sx (Z.pos (fst (shl_align mx ex ez)))
              + cond_Zopp sy (Z.pos (fst (shl_align my ey ez)))).
    assert (EM : M * 2 ^ (ez + 1074)
                 = SFfixed (S754_finite sx mx ex) + SFfixed (S754_finite sy my ey)).
    { unfold M. rewrite Z.mul_add_distr_r, !aligned_value by lia. reflexivity. }
    rewrite <- EM in *.
    apply binary_normalize_spec; [lia| |exact Hk].
    rewrite <- (Z.abs_eq (2 ^ (ez + 1074))) by (apply Z.pow_nonneg; lia).
    rewrite <- Z.abs_mul. exact Hle.
Qed.

Lemma SFsub_spec x y k :
  valid_binary prec emax x = true -> valid_binary prec emax y = true ->
  SFfin x = true -> SFfin y = true ->
  Z.abs (SFfixed x - SFfixed y) <= 2 ^ (k + 1074) -> 0 <= k <= 970 ->
  SFfin (SFsub prec emax x y) = true
  /\ Z.abs (SFfixed (SFsub prec emax x y) - (SFfixed x - SFfixed y))
     < 2 ^ lastPlace k.
Proof.
  intros Vx Vy Fx Fy Hle Hk. pose proof (lastPlace_pos k) as Hlp.
  destruct x as [sx|sx| |sx mx ex], y as [sy|sy| |sy my ey]; try discriminate;
    cbn [SFsub].
  - split; [destruct sx, sy; reflexivity|].
    destruct sx, sy; cbn [SFfixed]; exact Hlp.
  - split; [reflexivity|]. cbn [SFfixed] in *.
    replace ((if negb sy then -1 else 1) * (Z.pos my * 2 ^ (ey + 1074))
             - (0 - (if sy then -1 else 1) * (Z.pos my * 2 ^ (ey + 1074))))
      with 0 by (destruct sy; cbn [negb]; ring).
    exact Hlp.
  - split; [reflexivity|]. cbn [SFfixed] in *.
    rewrite Z.sub_0_r, Z.sub_diag. exact Hlp.
  - cbn [valid_binary] in *.
    destruct (bounded_facts _ _ Vx) as (Hex & _).
    destruct (bounded_facts _ _ Vy) as (Hey & _).
    set (ez := Z.min ex ey).
    assert (Hez : -1074 <= ez /\ ez <= ex /\ ez <= ey) by (unfold ez; lia).
    set (M := cond_Zopp sx (Z.pos (fst (shl_align mx ex ez)))
              - cond_Zopp sy (Z.pos (fst (shl_align my ey ez)))).
    assert (EM : M * 2 ^ (ez + 1074)
                 = SFfixed (S754_finite sx mx ex) - SFfixed (S754_finite sy my ey)).
    { unfold M. rewrite Z.mul_sub_distr_r, !aligned_value by lia. reflexivity. }
    rewrite <- EM in *.
    apply binary_normalize_spec; [lia| |exact Hk].
    rewrite <- (Z.abs_eq (2 ^ (ez + 1074))) by (apply Z.pow_nonneg; lia).
    rewrite <- Z.abs_mul. exact Hle.
Qed.

(** ** Rounding gives a binary64 value *)




(** ** The arithmetic of the page's numbers *)

Lemma ltb_fixed x y :
  isFinite x = true -> isFinite y = true ->
  (x <? y)%float = (fixedPoint x <? fixedPoint y).
Proof.
  intros Fx Fy. rewrite FloatAxioms.ltb_spec. unfold SFltb, fixedPoint.
  rewrite SFcompare_fixed by auto using FloatAxioms.Prim2SF_valid.
  reflexivity.
Qed.

Lemma leb_fixed x y :
  isFinite x = true -> isFinite y = true ->
  (x <=? y)%float = (fixedPoint x <=? fixedPoint y).
Proof.
  intros Fx Fy. rewrite FloatAxioms.leb_spec. unfold SFleb, fixedPoint.
  rewrite SFcompare_fixed by auto using FloatAxioms.Prim2SF_valid.
  unfold Z.leb. destruct (_ ?= _); reflexivity.
Qed.

(** A number between two finite numbers is finite. *)
Lemma between_finite lo hi x :
  isFinite lo = true -> isFinite hi = true ->
  (lo <=? x)%float && (x <=? hi)%float = true ->
  isFinite x = true /\ fixedPoint lo <= fixedPoint x <= fixedPoint hi.
Proof.
  intros Flo Fhi H. apply andb_prop in H. destruct H as [H1 H2].
  assert (Fx : isFinite x = true).
  { rewrite FloatAxioms.leb_spec in H1, H2. unfold isFinite in *.
    unfold SFleb in H1, H2.
    destruct (Prim2SF x) as [s|s| |s m e]; [reflexivity| | |reflexivity];
      destruct (Prim2SF lo) as [sl|sl| |sl ml el]; try discriminate;
      destruct (Prim2SF hi) as [sh|sh| |sh mh eh]; try discriminate;
      cbn [SFcompare] in H1, H2; destruct s; discriminate. }
  split; [exact Fx|].
  rewrite (leb_fixed lo x Flo Fx) in H1. rewrite (leb_fixed x hi Fx Fhi) in H2.
  apply Z.leb_le in H1, H2. lia.
Qed.

Lemma mul_bound x y A B k :
  isFinite x = true -> isFinite y = true ->
  Z.abs (fixedPoint x) <= A * 2 ^ 1074 -> Z.abs (fixedPoint y) <= B * 2 ^ 1074 ->
  A * B <= 2 ^ k -> 0 <= k <= 971 ->
  isFinite (x * y)%float = true /\ Z.abs (fixedPoint (x * y)%float) <= 2 ^ (k + 1074).
Proof.
  intros Fx Fy Hx Hy HAB Hk. unfold isFinite, fixedPoint in *.
  rewrite FloatAxioms.mul_spec.
  apply (SFmul_bound _ _ A B k); auto using FloatAxioms.Prim2SF_valid.
Qed.

Lemma div_bound x y A B k :
  isFinite x = true ->
  Z.abs (fixedPoint x) <= A * 2 ^ 1074 -> B * 2 ^ 1074 <= fixedPoint y ->
  0 < B -> A <= 2 ^ k * B -> 0 <= k <= 971 ->
  isFinite (x / y)%float = true /\ Z.abs (fixedPoint (x / y)%float) <= 2 ^ (k + 1074).
Proof.
  intros Fx Hx Hy HB HAB Hk. unfold isFinite, fixedPoint in *.
  rewrite FloatAxioms.div_spec.
  assert (PU : 0 < 2 ^ 1074) by (apply Z.pow_pos_nonneg; lia).
  pose proof (FloatAxioms.Prim2SF_valid y) as Vy.
  destruct (Prim2SF y) as [sy|sy| |sy my ey]; cbn [SFfixed] in Hy; try nia.
  cbn [valid_binary] in Vy.
  destruct (bounded_facts _ _ Vy) as (Hey & _).
  assert (Py : 0 < Z.pos my * 2 ^ (ey + 1074))
    by (apply Z.mul_pos_pos; [lia|apply Z.pow_pos_nonneg; lia]).
  destruct sy; [nia|]. rewrite Z.mul_1_l in Hy.
  apply (SFdiv_bound _ _ _ _ A B k); auto using FloatAxioms.Prim2SF_valid.
Qed.

Lemma add_near x y k :
  isFinite x = true -> isFinite y = true ->
  Z.abs (fixedPoint x + fixedPoint y) <= 2 ^ (k + 1074) -> 0 <= k <= 970 ->
  isFinite (x + y)%float = true
  /\ Z.abs (fixedPoint (x + y)%float - (fixedPoint x + fixedPoint y))
     < 2 ^ lastPlace k.
Proof.
  intros Fx Fy H Hk. unfold isFinite, fixedPoint in *.
  rewrite FloatAxioms.add_spec.
  apply SFadd_spec; auto using FloatAxioms.Prim2SF_valid.
Qed.

Lemma sub_near x y k :
  isFinite x = true -> isFinite y = true ->
  Z.abs (fixedPoint x - fixedPoint y) <= 2 ^ (k + 1074) -> 0 <= k <= 970 ->
  isFinite (x - y)%float = true
  /\ Z.abs (fixedPoint (x - y)%float - (fixedPoint x - fixedPoint y))
     < 2 ^ lastPlace k.
Proof.
  intros Fx Fy H Hk. unfold isFinite, fixedPoint in *.
  rewrite FloatAxioms.sub_spec.
  apply SFsub_spec; auto using FloatAxioms.Prim2SF_valid.
Qed.

(** ** The envelope *)

Lemma fixedPoint_1000 : fixedPoint 1000%float = units 1000.
Proof. vm_compute. reflexivity. Qed.

(** The sides of the envelope around a coordinate of at most [2^28]. *)
Lemma half_width v :
  isFinite v = true -> Z.abs (fixedPoint v) <= units (2 ^ 28) ->
  centered (v - 1000)%float v (v + 1000)%float
  /\ (v - 1000 <? v + 1000)%float = true.
Proof.
  intros Fv Hv. unfold units in *.
  assert (F1000 : isFinite 1000%float = true) by reflexivity.
  pose proof fixedPoint_1000 as E1000. unfold units in E1000.
  assert (PU : 0 < 2 ^ 1074) by (apply Z.pow_pos_nonneg; lia).
  assert (E29 : 2 ^ (29 + 1074) = 2 ^ 29 * 2 ^ 1074)
    by (apply Z.pow_add_r; lia).
  assert (Elp : 2 ^ lastPlace 29 = 2 ^ (1074 - 23)) by reflexivity.
  assert (E23 : 2 ^ 1074 = 2 ^ 23 * 2 ^ (1074 - 23))
    by (rewrite <- Z.pow_add_r by lia; reflexivity).
  assert (P23 : 0 < 2 ^ (1074 - 23)) by (apply Z.pow_pos_nonneg; lia).
  remember (2 ^ 1074) as U eqn:EU.
  remember (2 ^ (1074 - 23)) as T eqn:ET.
  change (2 ^ 28) with 268435456 in Hv.
  change (2 ^ 29) with 536870912 in E29.
  change (2 ^ 23) with 8388608 in E23.
  destruct (add_near v 1000%float 29 Fv F1000) as [Fhi Hhi]; [rewrite E1000, E29; lia|lia|].
  destruct (sub_near v 1000%float 29 Fv F1000) as [Flo Hlo]; [rewrite E1000, E29; lia|lia|].
  rewrite E1000, Elp in Hhi, Hlo.
  split.
  - unfold centered, units. rewrite <- EU, <- ET.
    repeat split; try assumption; lia.
  - rewrite (ltb_fixed _ _ Flo Fhi). apply Z.ltb_lt. lia.
Qed.

(** The projected longitude is at most [2^26] meters. *)
Lemma calcXValue_bound longitude :
  (-180 <=? longitude)%float && (longitude <=? 180)%float = true ->
  isFinite (calcXValue longitude) = true
  /\ Z.abs (fixedPoint (calcXValue longitude)) <= units (2 ^ 26).
Proof.
  intros H.
  destruct (between_finite (-180)%float 180%float longitude) as [Fl Hl];
    [reflexivity|reflexivity|exact H|].
  assert (E180 : fixedPoint 180%float = 180 * 2 ^ 1074) by (vm_compute; reflexivity).
  assert (En180 : fixedPoint (-180)%float = -180 * 2 ^ 1074) by (vm_compute; reflexivity).
  rewrite E180, En180 in Hl.
  assert (Hpi : Z.abs (fixedPoint Math_PI) <= 4 * 2 ^ 1074)
    by (apply Z.leb_le; vm_compute; reflexivity).
  assert (Hr : Z.abs (fixedPoint RADIUS) <= 2 ^ 23 * 2 ^ 1074)
    by (apply Z.leb_le; vm_compute; reflexivity).
  unfold calcXValue, units.
  destruct (mul_bound longitude Math_PI 180 4 10) as [F1 H1];
    [exact Fl|reflexivity|lia|exact Hpi|apply Z.leb_le; reflexivity|lia|].
  destruct (div_bound (longitude * Math_PI)%float 180%float (2 ^ 10) 180 3) as [F2 H2];
    [exact F1|rewrite <- Z.pow_add_r by lia; exact H1|rewrite E180; lia
    |lia|apply Z.leb_le; reflexivity|lia|].
  destruct (mul_bound RADIUS (longitude * Math_PI / 180)%float (2 ^ 23) (2 ^ 3) 26)
    as [F3 H3];
    [reflexivity|exact F2|exact Hr|rewrite <- Z.pow_add_r by lia; exact H2
    |apply Z.leb_le; reflexivity|lia|].
  split; [exact F3|]. rewrite <- Z.pow_add_r by lia. exact H3.
Qed.

(* ===================================================================== *)
(** * Decimal and coordinate texts                                       *)
(* ===================================================================== *)

(** ** Decimal texts *)

Lemma unsignedDecimal_decimalNumber ip fp :
  digits ip -> ip <> [] -> digits fp ->
  unsignedDecimal false (ip ++ fractionText fp) = decimalNumber ip fp.
Proof.
  intros Hip Hne Hfp. destruct ip as [|c ip]; [contradiction|].
  unfold decimalNumber. destruct fp as [|d fp]; cbn [fractionText].
  - rewrite unsignedDecimal_integer; [|exact Hip|exact I|exact I].
    rewrite !app_nil_r. unfold decimalValue. cbn [exponentPart List.length].
    change (0 <=? 0) with true. cbv iota.
    change (10 ^ 0) with 1. change (10 ^ Z.of_nat 0) with 1.
    rewrite Z.mul_1_r. reflexivity.
  - rewrite <- (app_nil_r (d :: fp)) at 1.
    change ((c :: ip) ++ fullStop :: (d :: fp) ++ [])%list
      with ((c :: ip) ++ 46%N :: (d :: fp) ++ [])%list.
    rewrite unsignedDecimal_point; [|exact Hip|exact Hfp|exact I].
    unfold decimalValue. cbn [exponentPart].
    destruct (Z.leb_spec 0 (0 - Z.of_nat (List.length (d :: fp))));
      [cbn [List.length] in *; lia|].
    repeat (f_equal; try lia).
Qed.

Lemma parseFloat_digit c s :
  isDigit c = true -> parseFloat (c :: s) = unsignedDecimal false (c :: s).
Proof.
  intros Hc. unfold parseFloat. cbn [trimStart].
  rewrite (digit_not_white c Hc).
  destruct (N.eqb_spec c 43) as [->|_]; [discriminate|].
  destruct (N.eqb_spec c 45) as [->|_]; [discriminate|]. reflexivity.
Qed.

Lemma parseFloat_decimalNumber ip fp :
  digits ip -> ip <> [] -> digits fp ->
  parseFloat (ip ++ fractionText fp) = decimalNumber ip fp.
Proof.
  intros Hip Hne Hfp. rewrite <- (unsignedDecimal_decimalNumber ip fp Hip Hne Hfp).
  destruct ip as [|c ip]; [contradiction|]. apply parseFloat_digit.
  inversion Hip; assumption.
Qed.

Lemma parseInt10_digits d :
  digits d -> d <> [] -> parseInt10 d = ofZ (digitsValue d).
Proof.
  intros Hd Hne. destruct d as [|c d]; [contradiction|].
  assert (Hc : isDigit c = true) by (inversion Hd; assumption).
  unfold parseInt10. cbn [trimStart]. rewrite (digit_not_white c Hc).
  destruct (N.eqb_spec c 43) as [->|_]; [discriminate|].
  destruct (N.eqb_spec c 45) as [->|_]; [discriminate|].
  rewrite (spanDigits_all (c :: d) Hd). cbn [fst].
  rewrite andb_false_r. reflexivity.
Qed.






(** ** The coordinate texts *)

(** A coordinate text in the form of the specification is read as the
    degrees, minutes, seconds and letter that are written in it. *)
Lemma parseStringCoordinate_written d ws mi s1 fd h :
  digits d -> (1 <= List.length d <= 3)%nat ->
  whiteSpace ws ->
  digits mi -> (1 <= List.length mi <= 2)%nat ->
  digits s1 -> (1 <= List.length s1 <= 2)%nat ->
  digits fd ->
  hemisphere h ->
  parseStringCoordinate
    (d ++ [degreeSign] ++ ws ++ mi ++ [apostrophe] ++ (s1 ++ fractionText fd)
     ++ [quotationMark] ++ [h])
  = Return
      (let decimal := ofZ (digitsValue d) + ofZ (digitsValue mi) / 60
                      + decimalNumber s1 fd / 3600 in
       Math_round ((if southOrWest h then decimal * -1 else decimal) * 100)
       / 100)%float.
Proof.
  intros Hd Hdl Hws Hmi Hmil Hs1 Hs1l Hfd Hh.
  assert (Hf : fractionText fd = []
               \/ exists fd', fractionText fd = fullStop :: fd' /\ digits fd'
                              /\ fd' <> []).
  { destruct fd as [|c fd]; [left; reflexivity|right].
    exists (c :: fd). repeat split; [exact Hfd|discriminate]. }
  destruct (coordinateRegex_accepts d ws mi s1 (fractionText fd) h []
              Hd Hdl Hws Hmi Hmil Hs1 Hs1l Hf Hh)
    as (m & E & H1 & H2 & H3 & H4).
  rewrite app_nil_r in E.
  set (text := (d ++ [degreeSign] ++ ws ++ mi ++ [apostrophe]
                ++ (s1 ++ fractionText fd) ++ [quotationMark] ++ [h])%list) in *.
  assert (Htrim : trim text = text).
  { destruct d as [|c d]; [cbn in Hdl; lia|].
    unfold text. rewrite !app_assoc. cbn [app].
    apply trim_keeps.
    - apply digit_not_white. inversion Hd; assumption.
    - apply hemisphere_not_white, Hh. }
  assert (E' : exec coordinateRegex (trim text) = Some (text, m))
    by (rewrite Htrim; exact E).
  destruct (parseStringCoordinate_found text text m E') as (_ & _ & F).
  rewrite H3 in F. destruct F as (d' & mi' & h' & H1' & H2' & H4' & F).
  rewrite H1 in H1'. rewrite H2 in H2'. rewrite H4 in H4'.
  inversion H1'; inversion H2'; inversion H4'; subst d' mi' h'.
  rewrite F. cbv zeta.
  rewrite (parseInt10_digits d Hd) by (destruct d; [cbn in Hdl; lia|discriminate]).
  rewrite (parseInt10_digits mi Hmi) by (destruct mi; [cbn in Hmil; lia|discriminate]).
  rewrite (parseFloat_decimalNumber s1 fd Hs1) by
    first [exact Hfd|destruct s1; [cbn in Hs1l; lia|discriminate]].
  reflexivity.
Qed.

(** The seconds of a match, as an integer part and a fraction. *)
Lemma seconds_written t :
  secondsText t ->
  exists s1 fd, t = (s1 ++ fractionText fd)%list /\ digits s1
                /\ (1 <= List.length s1 <= 2)%nat /\ digits fd.
Proof.
  intros (s & f & -> & Hs & Hl & [->|(fd & -> & Hfd & Hne)]).
  - exists s, []. repeat split; try assumption; try lia. constructor.
  - exists s, fd. destruct fd as [|c fd]; [contradiction|].
    repeat split; try assumption; lia.
Qed.
(* ===================================================================== *)
(** * The values of the parsers and the envelope                         *)
(* ===================================================================== *)

(** C7: a coordinate text in the form of the specification, with degrees
    of one to three digits, the degree sign, white space or none, minutes
    of one or two digits, an apostrophe, seconds of one or two digits and
    possibly a fraction, a quotation mark and a letter among N, S, E, W in
    either case, is read as the degrees, minutes, seconds and letter
    written in it: the result is degrees + minutes/60 + seconds/3600,
    multiplied by -1 when the letter is S or W, then multiplied by 100,
    rounded to an integer and divided by 100, in binary64 arithmetic.
    Whenever [parseStringCoordinate] returns, the trimmed text contains
    degrees, the degree sign, minutes, seconds and a letter, the apostrophe
    and the quotation mark being optional, and the result is that formula
    on them.  In particular the text 23°12'30.5 Q S, with Q the quotation
    mark, gives -23.21. *)
Theorem parseStringCoordinate_value :
  (forall d ws mi s1 fd h,
      digits d -> (1 <= List.length d <= 3)%nat ->
      whiteSpace ws ->
      digits mi -> (1 <= List.length mi <= 2)%nat ->
      digits s1 -> (1 <= List.length s1 <= 2)%nat ->
      digits fd ->
      hemisphere h ->
      parseStringCoordinate
        (d ++ [degreeSign] ++ ws ++ mi ++ [apostrophe]
         ++ (s1 ++ fractionText fd) ++ [quotationMark] ++ [h])
      = Return
          (let decimal := ofZ (digitsValue d) + ofZ (digitsValue mi) / 60
                          + decimalNumber s1 fd / 3600 in
           Math_round ((if southOrWest h then decimal * -1 else decimal) * 100)
           / 100)%float)
  /\ (forall coordinate v,
         parseStringCoordinate coordinate = Return v ->
         exists before d ws mi ap s1 fd qm h after,
           trim coordinate
           = (before ++ (d ++ [degreeSign] ++ ws ++ mi ++ ap
                         ++ (s1 ++ fractionText fd) ++ qm ++ [h]) ++ after)%list
           /\ digits d /\ (1 <= List.length d <= 3)%nat
           /\ whiteSpace ws
           /\ digits mi /\ (1 <= List.length mi <= 2)%nat
           /\ (ap = [] \/ ap = [apostrophe])
           /\ digits s1 /\ (1 <= List.length s1 <= 2)%nat /\ digits fd
           /\ (qm = [] \/ qm = [quotationMark])
           /\ hemisphere h
           /\ v = (let decimal := ofZ (digitsValue d) + ofZ (digitsValue mi) / 60
                                  + decimalNumber s1 fd / 3600 in
                   Math_round ((if southOrWest h then decimal * -1
                                else decimal) * 100) / 100)%float)
  /\ parseStringCoordinate dmsExample = Return (-23.21)%float.
Proof.
  split; [|split; [|vm_compute; reflexivity]].
  - intros d ws mi s1 fd h. apply parseStringCoordinate_written.
  - intros coordinate v H.
    destruct (exec coordinateRegex (trim coordinate)) as [[text m]|] eqn:E.
    2:{ rewrite (parseStringCoordinate_not_found _ E) in H. discriminate. }
    destruct (parseStringCoordinate_found _ _ _ E)
      as ((before & after & Htrim) & M & F).
    destruct M as (d & ws & mi & ap & qm & h & Htext & Hd & Hdl & Hws & Hmi & Hmil
                   & Hap & Hsec & Hqm & Hh & H1 & H2 & H4).
    destruct (m 3%nat) as [sec|] eqn:H3; [|rewrite F in H; discriminate].
    destruct F as (d' & mi' & h' & H1' & H2' & H4' & F).
    rewrite H1 in H1'. rewrite H2 in H2'. rewrite H4 in H4'.
    inversion H1'; inversion H2'; inversion H4'; subst d' mi' h'.
    rewrite F in H. inversion H; subst v. clear H.
    destruct (seconds_written sec Hsec) as (s1 & fd & -> & Hs1 & Hs1l & Hfd).
    cbn [nullish] in Htext.
    exists before, d, ws, mi, ap, s1, fd, qm, h, after.
    split; [rewrite Htrim, Htext; reflexivity|].
    repeat (split; [assumption|]).
    cbv zeta.
    rewrite (parseInt10_digits d Hd) by (destruct d; [cbn in Hdl; lia|discriminate]).
    rewrite (parseInt10_digits mi Hmi) by (destruct mi; [cbn in Hmil; lia|discriminate]).
    rewrite (parseFloat_decimalNumber s1 fd Hs1) by
      first [exact Hfd|destruct s1; [cbn in Hs1l; lia|discriminate]].
    reflexivity.
Qed.

Lemma parseStringCoordinate_value_witness :
  parseStringCoordinate dmsWest
  = Return
      (let decimal := ofZ 123 + ofZ 12 / 60
                      + decimalNumber (str "30") (str "5") / 3600 in
       Math_round (decimal * -1 * 100) / 100)%float
  /\ parseStringCoordinate dmsWest = Return (-123.21)%float.
Proof.
  split; [|vm_compute; reflexivity].
  apply (proj1 parseStringCoordinate_value
               (str "123") [] (str "12") (str "30") (str "5") 87%N).
  - repeat constructor.
  - cbn. lia.
  - constructor.
  - repeat constructor.
  - cbn. lia.
  - repeat constructor.
  - cbn. lia.
  - repeat constructor.
  - right. right. right. left. reflexivity.
Defined.



(** C8, as amended: for the default half-width [latLonToEnvelope] returns
    the envelope with xmin = x - 1000, ymin = y - 1000, xmax = x + 1000,
    ymax = y + 1000 and wkid 102100, where x = R * ((longitude * PI) / 180),
    y = R * log (tan (PI / 4 + (latitude * PI) / 180 / 2)) and R = 6378137,
    all in binary64 arithmetic; for every longitude from -180 to 180
    degrees, xmin < xmax and the envelope is centered at x; for every
    latitude whose projection y is from -2^28 to 2^28 meters, ymin < ymax
    and the envelope is centered at y.  Centered: the sides are finite and
    each is at 1000 meters from the point, less than 2^-23 meter. *)
Theorem latLonToEnvelope_square host latitude longitude :
  let envelope := latLonToEnvelope host latitude longitude None in
  let x := (RADIUS * ((longitude * Math_PI) / 180))%float in
  let y := (RADIUS * Math_log host
                       (Math_tan host
                          (Math_PI / 4 + (latitude * Math_PI) / 180 / 2)))%float in
  envelope = {| xmin := (x - 1000)%float;
                ymin := (y - 1000)%float;
                xmax := (x + 1000)%float;
                ymax := (y + 1000)%float;
                spatialReference := {| wkid := 102100 |} |}
  /\ RADIUS = 6378137%float
  /\ ((-180 <=? longitude)%float && (longitude <=? 180)%float = true ->
      (xmin envelope <? xmax envelope)%float = true
      /\ centered (xmin envelope) x (xmax envelope))
  /\ ((-268435456 <=? y)%float && (y <=? 268435456)%float = true ->
      (ymin envelope <? ymax envelope)%float = true
      /\ centered (ymin envelope) y (ymax envelope)).
Proof.
  intros envelope x y.
  split; [reflexivity|]. split; [reflexivity|]. split.
  - intros Hlon.
    destruct (calcXValue_bound longitude Hlon) as [Fx Hx].
    change (calcXValue longitude) with x in Fx, Hx.
    assert (Hx' : Z.abs (fixedPoint x) <= units (2 ^ 28)).
    { apply Z.le_trans with (1 := Hx). unfold units.
      apply Z.mul_le_mono_nonneg_r; [apply Z.pow_nonneg; lia|].
      apply Z.pow_le_mono_r; lia. }
    destruct (half_width x Fx Hx') as [Cx Ox]. split; [exact Ox|exact Cx].
  - intros Hlat.
    destruct (between_finite (-268435456)%float 268435456%float y) as [Fy Hy];
      [reflexivity|reflexivity|exact Hlat|].
    assert (Hy' : Z.abs (fixedPoint y) <= units (2 ^ 28)).
    { assert (E1 : fixedPoint 268435456%float = units (2 ^ 28))
        by (vm_compute; reflexivity).
      assert (E2 : fixedPoint (-268435456)%float = - units (2 ^ 28))
        by (vm_compute; reflexivity).
      rewrite E1, E2 in Hy. lia. }
    destruct (half_width y Fy Hy') as [Cy Oy]. split; [exact Oy|exact Cy].
Qed.

Lemma latLonToEnvelope_square_witness :
  let envelope := latLonToEnvelope noDataHost (-2.21)%float (-47.4321)%float None in
  ((xmin envelope <? xmax envelope)%float = true
   /\ centered (xmin envelope) (calcXValue (-47.4321)%float) (xmax envelope))
  /\ ((ymin envelope <? ymax envelope)%float = true
      /\ centered (ymin envelope) (calcYValue noDataHost (-2.21)%float)
                  (ymax envelope)).
Proof.
  pose proof (latLonToEnvelope_square noDataHost (-2.21)%float (-47.4321)%float)
    as (_ & _ & Hx & Hy).
  split; [apply Hx|apply Hy]; vm_compute; reflexivity.
Defined.


(* ===================================================================== *)
(** * The form                                                           *)
(* ===================================================================== *)

#[local] Open Scope Z_scope.


Lemma filterFrom_keeps {A} (l : list A) index i :
  index < i -> filterFrom (fun _ j => negb (j =? index)) i l = l.
Proof.
  revert i. induction l as [|x l IH]; intros i Hi; [reflexivity|].
  cbn [filterFrom]. destruct (Z.eqb_spec i index); [lia|].
  cbn [negb]. rewrite IH by lia. reflexivity.
Qed.

Lemma filterFrom_removes {A} (l : list A) index i :
  i <= index ->
  filterFrom (fun _ j => negb (j =? index)) i l
  = firstn (Z.to_nat (index - i)) l ++ skipn (S (Z.to_nat (index - i))) l.
Proof.
  revert i. induction l as [|x l IH]; intros i Hi.
  - rewrite firstn_nil, skipn_nil. reflexivity.
  - cbn [filterFrom]. destruct (Z.eqb_spec i index) as [->|Hne]; cbn [negb].
    + rewrite Z.sub_diag. cbn [Z.to_nat firstn skipn app].
      apply filterFrom_keeps. lia.
    + rewrite IH by lia.
      replace (Z.to_nat (index - i)) with (S (Z.to_nat (index - (i + 1)))) by lia.
      reflexivity.
Qed.

Lemma removeCoordinate_row coordinates i :
  (i < List.length coordinates)%nat ->
  removeCoordinate coordinates (Z.of_nat i)
  = firstn i coordinates ++ skipn (S i) coordinates.
Proof.
  intros Hi. unfold removeCoordinate, Array_filter.
  rewrite filterFrom_removes by lia.
  rewrite Z.sub_0_r, Nat2Z.id. reflexivity.
Qed.

(** X1: [removeCoordinate]: the row at [index] is removed and the other rows
    are kept in order; an index that is no row changes nothing. *)
Theorem removeCoordinate_removes_row :
  (forall coordinates i,
      (i < List.length coordinates)%nat ->
      removeCoordinate coordinates (Z.of_nat i)
      = firstn i coordinates ++ skipn (S i) coordinates
      /\ List.length (removeCoordinate coordinates (Z.of_nat i))
         = pred (List.length coordinates))
  /\ (forall coordinates index,
         index < 0 \/ Z.of_nat (List.length coordinates) <= index ->
         removeCoordinate coordinates index = coordinates).
Proof.
  split.
  - intros coordinates i Hi.
    rewrite (removeCoordinate_row coordinates i Hi).
    split; [reflexivity|].
    rewrite length_app, length_firstn, length_skipn. lia.
  - intros coordinates index [Hneg|Hbig]; unfold removeCoordinate, Array_filter.
    + apply filterFrom_keeps. lia.
    + rewrite filterFrom_removes by lia.
      rewrite Z.sub_0_r, firstn_all2, skipn_all2 by lia.
      apply app_nil_r.
Qed.

Lemma removeCoordinate_removes_row_witness :
  removeCoordinate [belem; malformed] 0 = [malformed]
  /\ removeCoordinate [belem; malformed] 2 = [belem; malformed].
Proof.
  destruct removeCoordinate_removes_row as [Hin Hout]. split.
  - apply (Hin [belem; malformed] 0%nat). simpl. lia.
  - apply (Hout [belem; malformed] 2). simpl. lia.
Defined.

(** X2: removing the row that [addCoordinate] has just added gives back the
    coordinates. *)
Theorem addCoordinate_then_remove coordinates latValue lonValue :
  removeCoordinate (addCoordinate coordinates latValue lonValue)
                   (Z.of_nat (List.length coordinates))
  = coordinates.
Proof.
  unfold removeCoordinate, Array_filter, addCoordinate.
  rewrite filterFrom_removes by lia.
  rewrite Z.sub_0_r, Nat2Z.id.
  rewrite firstn_app, Nat.sub_diag, firstn_all. cbn [firstn].
  rewrite skipn_all2 by (rewrite length_app; simpl; lia).
  rewrite !app_nil_r. reflexivity.
Qed.

Lemma nth_error_update {A} (l : list A) i x y :
  nth_error l i = Some x ->
  let l' := firstn i l ++ y :: skipn (S i) l in
  List.length l' = List.length l
  /\ nth_error l' i = Some y
  /\ forall j, j <> i -> nth_error l' j = nth_error l j.
Proof.
  intros Hx l'.
  assert (Hi : (i < List.length l)%nat) by (apply nth_error_Some; congruence).
  assert (Hf : List.length (firstn i l) = i) by (rewrite length_firstn; lia).
  split; [|split].
  - unfold l'. rewrite length_app, Hf. cbn [List.length]. rewrite length_skipn. lia.
  - unfold l'. rewrite nth_error_app2 by lia. rewrite Hf, Nat.sub_diag. reflexivity.
  - intros j Hj. unfold l'.
    destruct (Nat.ltb_spec j i) as [Hlt|Hge].
    + rewrite nth_error_app1 by lia. rewrite nth_error_firstn.
      destruct (Nat.ltb_spec j i); [reflexivity|lia].
    + rewrite nth_error_app2 by lia. rewrite Hf.
      replace (j - i)%nat with (S (j - S i)) by lia. cbn [nth_error].
      rewrite nth_error_skipn. f_equal. lia.
Qed.

(** X3: [updateCoordinate]: for a row of the form the chosen field of that
    row gets the value, its other field and the other rows are kept; for an
    index that is no row the handler throws. *)
Theorem updateCoordinate_sets_one_field :
  (forall coordinates i field value coord,
      nth_error coordinates i = Some coord ->
      exists newCoords,
        updateCoordinate coordinates (Z.of_nat i) field value = Some newCoords
        /\ List.length newCoords = List.length coordinates
        /\ nth_error newCoords i
           = Some (match field with
                   | key_latitude =>
                       {| latitude := value; longitude := longitude coord |}
                   | key_longitude =>
                       {| latitude := latitude coord; longitude := value |}
                   end)
        /\ forall j, j <> i -> nth_error newCoords j = nth_error coordinates j)
  /\ (forall coordinates index field value,
         index < 0 \/ Z.of_nat (List.length coordinates) <= index ->
         updateCoordinate coordinates index field value = None).
Proof.
  split.
  - intros coordinates i field value coord Hi.
    unfold updateCoordinate.
    destruct (Z.leb_spec 0 (Z.of_nat i)); [|lia].
    rewrite Nat2Z.id, Hi. eexists. split; [reflexivity|].
    destruct (nth_error_update coordinates i coord (setKey coord field value) Hi)
      as (Hlen & Hnth & Hother).
    split; [exact Hlen|]. split; [|exact Hother].
    rewrite Hnth. destruct field; reflexivity.
  - intros coordinates index field value Hout. unfold updateCoordinate.
    destruct (Z.leb_spec 0 index); [|reflexivity].
    destruct Hout as [Hneg|Hbig]; [lia|].
    assert (E : nth_error coordinates (Z.to_nat index) = None)
      by (apply nth_error_None; lia).
    rewrite E. reflexivity.
Qed.

Lemma updateCoordinate_sets_one_field_witness :
  updateCoordinate [belem; malformed] 1 key_latitude (str "-1,5")
  = Some [belem; {| latitude := str "-1,5"; longitude := str "-47.43" |}]
  /\ updateCoordinate [belem; malformed] 2 key_latitude (str "-1,5") = None.
Proof.
  destruct updateCoordinate_sets_one_field as [Hin Hout]. split.
  - destruct (Hin [belem; malformed] 1%nat key_latitude (str "-1,5") malformed
                eq_refl) as (newCoords & E & _ & Hrow & _).
    change (Z.of_nat 1) with 1 in E. rewrite E. f_equal.
    vm_compute in E. inversion E. reflexivity.
  - apply (Hout [belem; malformed] 2). simpl. lia.
Defined.

Lemma parseStringCoordinate_empty :
  parseStringCoordinate [] = Throw (FormatError []).
Proof. reflexivity. Qed.

Lemma csvRow_imported newCoordinates row index :
  2 < index -> csvRow newCoordinates row index = newCoordinates ++ imported row.
Proof.
  intros Hi. unfold csvRow, imported.
  destruct (Z.ltb_spec 2 index); [|lia].
  destruct (_3 row) as [[|a lat]|], (_6 row) as [[|b lon]|];
    cbn [falsy negb andb nullish];
    rewrite ?parseStringCoordinate_empty;
    repeat match goal with
           | |- context [parseStringCoordinate ?x] =>
               destruct (parseStringCoordinate x)
           end;
    rewrite ?app_nil_r; reflexivity.
Qed.

Lemma csvRow_header newCoordinates row index :
  index <= 2 -> csvRow newCoordinates row index = newCoordinates.
Proof. intros Hi. unfold csvRow. destruct (Z.ltb_spec 2 index); [lia|reflexivity]. Qed.

Lemma forEachFrom_csvRow data : forall index newCoordinates,
  0 <= index ->
  forEachFrom csvRow index data newCoordinates
  = newCoordinates ++ flat_map imported (skipn (Z.to_nat (3 - index)) data).
Proof.
  induction data as [|row data IH]; intros index newCoordinates Hi.
  - rewrite skipn_nil. simpl. rewrite app_nil_r. reflexivity.
  - cbn [forEachFrom]. rewrite IH by lia.
    destruct (Z.ltb_spec 2 index) as [Hlt|Hge].
    + rewrite csvRow_imported by lia.
      replace (Z.to_nat (3 - (index + 1))) with 0%nat by lia.
      replace (Z.to_nat (3 - index)) with 0%nat by lia.
      cbn [skipn flat_map]. rewrite app_assoc. reflexivity.
    + rewrite csvRow_header by lia.
      replace (Z.to_nat (3 - index)) with (S (Z.to_nat (3 - (index + 1)))) by lia.
      reflexivity.
Qed.

Lemma imported_length row : (List.length (imported row) <= 1)%nat.
Proof.
  unfold imported.
  destruct (_3 row) as [lat|], (_6 row) as [lon|]; simpl; try lia.
  destruct (parseStringCoordinate lat), (parseStringCoordinate lon); simpl; lia.
Qed.

Lemma flat_map_imported_length data :
  (List.length (flat_map imported data) <= List.length data)%nat.
Proof.
  induction data as [|row data IH]; [simpl; lia|].
  cbn [flat_map]. rewrite length_app. pose proof (imported_length row).
  simpl. lia.
Qed.

Lemma displayCsvValues_eq data prev :
  displayCsvValues data prev = prev ++ flat_map imported (skipn 3 data).
Proof.
  unfold displayCsvValues, Array_forEach.
  rewrite forEachFrom_csvRow by lia. reflexivity.
Qed.

(** X4: [displayCsvValues]: the coordinates of the form are kept and, for
    each row of the report after its first three, in order, the row's
    coordinate is appended when its columns [_3] and [_6] both hold a text
    that [parseStringCoordinate] accepts; the other rows, and the first
    three, add nothing. *)
Theorem displayCsvValues_appends data prev :
  displayCsvValues data prev = prev ++ flat_map imported (skipn 3 data)
  /\ (List.length (displayCsvValues data prev)
      <= List.length prev + (List.length data - 3))%nat.
Proof.
  split; [apply displayCsvValues_eq|].
  rewrite displayCsvValues_eq, length_app.
  pose proof (flat_map_imported_length (skipn 3 data)) as H.
  rewrite length_skipn in H. lia.
Qed.

Lemma handle_length coordinates e :
  rendered coordinates e = true ->
  (1 <= List.length coordinates)%nat ->
  (1 <= List.length (handle coordinates e))%nat.
Proof.
  intros Hr Hlen. destruct e as [index field value|index| |data]; cbn [handle].
  - destruct (updateCoordinate coordinates (Z.of_nat index) field value)
      as [newCoords|] eqn:E; [|exact Hlen].
    cbn [rendered] in Hr. apply Nat.ltb_lt in Hr.
    destruct (nth_error coordinates index) as [coord|] eqn:Hn.
    + unfold updateCoordinate in E.
      destruct (Z.leb_spec 0 (Z.of_nat index)); [|lia].
      rewrite Nat2Z.id, Hn in E. injection E as E. subst newCoords.
      destruct (nth_error_update coordinates index coord
                  (setKey coord field value) Hn) as [L _].
      cbv zeta in L. simpl skipn in *. lia.
    + apply nth_error_None in Hn. lia.
  - cbn [rendered] in Hr. apply andb_prop in Hr. destruct Hr as [Hi H1].
    apply Nat.ltb_lt in Hi. apply Nat.ltb_lt in H1.
    rewrite (removeCoordinate_row coordinates index Hi).
    rewrite length_app, length_firstn, length_skipn. lia.
  - unfold addCoordinate. rewrite length_app. simpl. lia.
  - rewrite displayCsvValues_eq, length_app. lia.
Qed.

(** X5: the form never runs out of rows: whatever the user does with the
    controls rendered, the coordinates of the form are never empty. *)
Theorem form_never_empty coordinates :
  reachable coordinates -> (1 <= List.length coordinates)%nat.
Proof.
  induction 1 as [|coordinates e _ IH Hr]; [simpl; lia|].
  apply handle_length; assumption.
Qed.

Lemma form_never_empty_witness :
  (1 <= List.length (handle (handle initialCoordinates onClickAdd)
                            (onClickRemove 0)))%nat.
Proof.
  apply form_never_empty.
  apply reachable_event; [apply reachable_event|]; [constructor|reflexivity|reflexivity].
Defined.

(* ===================================================================== *)
(** * From the report to the service                                     *)
(* ===================================================================== *)


(** [Number_toString] on some numbers, as JavaScript prints them. *)
Example Number_toString_examples :
  List.map Number_toString
    [0.1; 0.1 + 0.2; 1e21; 1e-7; 0.000001; -23.21; 100; 4.35;
     123456789012345680000; 5e-324; nan; neg_zero; neg_infinity]%float
  = List.map str
      ["0.1"; "0.30000000000000004"; "1e+21"; "1e-7"; "0.000001"; "-23.21";
       "100"; "4.35"; "123456789012345680000"; "5e-324"; "NaN"; "0";
       "-Infinity"]%string.
Proof. vm_compute. reflexivity. Qed.

(** X6: number to text and back: for every number that is not [NaN],
    [parseCoordinate] reads the text that [toString] writes for it back as
    that very number (as 0 for -0, whose text is [0]); the text of [NaN] is
    not read as a number. *)
Theorem toString_parseCoordinate_round_trip x :
  parseCoordinate (Number_toString x)
  = if isNaN x then None else Some (positiveZero x).
Proof.
  destruct (isNaN x) eqn:Hnan.
  - rewrite (isNaN_nan x Hnan). vm_compute. reflexivity.
  - apply parseCoordinate_toString. exact Hnan.
Qed.

Section ImportedRows.

Variable host : Host.

Lemma batchPromise_well_formed sent t lat lon :
  parseCoordinate (latitude (coordinate t)) = Some lat ->
  parseCoordinate (longitude (coordinate t)) = Some lon ->
  exists features,
    batchPromise host sent t
    = ({| coord := t; result_features := features |},
       (sent ++ [returnSearchParams (latLonToEnvelope host lat lon None)
                                    (mapLayerId t ?? 0)])%list).
Proof.
  intros Hlat Hlon. unfold batchPromise, fetchDepthForEnvelope.
  rewrite Hlat, Hlon.
  destruct (fetch host sent _) as [|ok status [body|]];
    [|destruct ok; cbn [negb]..]; eexists; reflexivity.
Qed.

(** X7: from the report to the service: any row after the first three
    of a report, whatever the rows before and after it, whose latitude and
    longitude texts are parsed to numbers (not [NaN]) adds exactly one
    coordinate to the form, between those of the rows before it and those
    of the rows after it; the scheduler reads that coordinate as the very
    same numbers (0 for -0) and, at whatever layer, sends the request for
    their envelope. *)
Theorem imported_row_is_requested before row after prev lat lon a b :
  (3 <= List.length before)%nat ->
  _3 row = Some lat -> _6 row = Some lon ->
  parseStringCoordinate lat = Return a ->
  parseStringCoordinate lon = Return b ->
  isNaN a = false -> isNaN b = false ->
  exists c,
    imported row = [c]
    /\ displayCsvValues (before ++ row :: after) prev
       = (prev ++ flat_map imported (skipn 3 before) ++ [c]
          ++ flat_map imported after)%list
    /\ parseCoordinate (latitude c) = Some (positiveZero a)
    /\ parseCoordinate (longitude c) = Some (positiveZero b)
    /\ forall sent layer, exists features,
         batchPromise host sent (withLayer c (Some layer))
         = ({| coord := withLayer c (Some layer); result_features := features |},
            (sent ++ [returnSearchParams
                        (latLonToEnvelope host (positiveZero a)
                                          (positiveZero b) None)
                        layer])%list).
Proof.
  intros Hh H3 H6 Ha Hb Hna Hnb.
  assert (Hpa : parseCoordinate (Number_toString a) = Some (positiveZero a)).
  { apply parseCoordinate_toString, Hna. }
  assert (Hpb : parseCoordinate (Number_toString b) = Some (positiveZero b)).
  { apply parseCoordinate_toString, Hnb. }
  assert (Hrow : imported row
                 = [ {| latitude := Number_toString a;
                        longitude := Number_toString b |} ]).
  { unfold imported. rewrite H3, H6, Ha, Hb. reflexivity. }
  exists {| latitude := Number_toString a; longitude := Number_toString b |}.
  split; [exact Hrow|]. split; [|split; [|split]].
  - rewrite displayCsvValues_eq. f_equal.
    rewrite skipn_app.
    replace (3 - List.length before)%nat with 0%nat by lia.
    cbn [skipn]. rewrite flat_map_app. cbn [flat_map]. rewrite Hrow.
    reflexivity.
  - exact Hpa.
  - exact Hpb.
  - intros sent layer.
    apply (batchPromise_well_formed sent (withLayer _ (Some layer)));
      assumption.
Qed.

End ImportedRows.

Lemma imported_row_is_requested_witness :
  exists c,
    imported (reportRow (Some dmsExample) (Some dmsLongitude)) = [c]
    /\ displayCsvValues
         ([reportRow None None; reportRow None None; reportRow None None;
           reportRow (Some dmsWest) (Some dmsLongitude)]
          ++ reportRow (Some dmsExample) (Some dmsLongitude)
             :: [reportRow None None; reportRow (Some dmsExample) (Some dmsWest)])
         []
       = ([] ++ flat_map imported
                  (skipn 3 [reportRow None None; reportRow None None;
                            reportRow None None;
                            reportRow (Some dmsWest) (Some dmsLongitude)])
          ++ [c]
          ++ flat_map imported
               [reportRow None None;
                reportRow (Some dmsExample) (Some dmsWest)])%list
    /\ parseCoordinate (latitude c) = Some (positiveZero (-23.21)%float)
    /\ parseCoordinate (longitude c) = Some (positiveZero (-47.43)%float)
    /\ forall sent layer, exists features,
         batchPromise noDataHost sent (withLayer c (Some layer))
         = ({| coord := withLayer c (Some layer); result_features := features |},
            (sent ++ [returnSearchParams
                        (latLonToEnvelope noDataHost
                           (positiveZero (-23.21)%float)
                           (positiveZero (-47.43)%float) None)
                        layer])%list).
Proof.
  apply (imported_row_is_requested noDataHost
           [reportRow None None; reportRow None None; reportRow None None;
            reportRow (Some dmsWest) (Some dmsLongitude)]
           (reportRow (Some dmsExample) (Some dmsLongitude))
           [reportRow None None; reportRow (Some dmsExample) (Some dmsWest)]
           [] dmsExample dmsLongitude (-23.21)%float (-47.43)%float);
    [cbn [List.length]; lia|reflexivity|reflexivity|vm_compute; reflexivity..].
Defined.

(* ===================================================================== *)
(** * The loop of the scheduler                                          *)
(* ===================================================================== *)


Section SchedulerLoop.

Variable host : Host.

Lemma fold_requeueOrPush_split rs : forall q out,
  fold_left requeueOrPush rs (q, out)
  = (rev (List.map nextLayer (filter retry rs)) ++ q,
     out ++ filter (fun r => negb (retry r)) rs).
Proof.
  induction rs as [|r rs IH]; intros q out.
  - simpl. rewrite app_nil_r. reflexivity.
  - cbn [fold_left filter]. unfold requeueOrPush at 2. fold (retry r).
    destruct (retry r); cbn [negb]; rewrite IH.
    + cbn [List.map rev]. rewrite <- app_assoc. reflexivity.
    + rewrite <- app_assoc. reflexivity.
Qed.

Lemma iteration_eq batchSize st :
  let n := Z.to_nat batchSize in
  let rs := fst (batchPromises host (sent st) (firstn n (queue st))) in
  let q := rev (List.map nextLayer (filter retry rs)) ++ skipn n (queue st) in
  iteration host batchSize st
  = {| queue := q;
       results := results st ++ filter (fun r => negb (retry r)) rs;
       sent := snd (batchPromises host (sent st) (firstn n (queue st)));
       slept := match q with
                | [] => slept st
                | _ :: _ => slept st ++ [BATCH_DELAY]
                end |}.
Proof.
  intros n rs q. unfold iteration. fold n.
  subst rs q.
  destruct (batchPromises host (sent st) (firstn n (queue st))) as [rs sent1].
  cbn [fst snd]. rewrite fold_requeueOrPush_split. reflexivity.
Qed.

Lemma iteration_idle batchSize st :
  queue st = [] -> iteration host batchSize st = st.
Proof.
  intros Hq. rewrite iteration_eq. rewrite Hq, firstn_nil, skipn_nil.
  cbn. rewrite app_nil_r. destruct st; cbn in *. subst. reflexivity.
Qed.

Lemma batchPromises_coord batch : forall sent,
  List.map coord (fst (batchPromises host sent batch)) = batch.
Proof.
  induction batch as [|t batch IH]; intros sent; [reflexivity|].
  cbn [batchPromises].
  pose proof (batchPromise_coord host sent t) as Ht.
  destruct (batchPromise host sent t) as [r sent1]. cbn [fst] in Ht.
  specialize (IH sent1).
  destruct (batchPromises host sent1 batch) as [rs sent2].
  cbn [fst List.map] in *. rewrite Ht, IH. reflexivity.
Qed.

Lemma batchPromises_app l1 l2 : forall sent,
  batchPromises host sent (l1 ++ l2)
  = (fst (batchPromises host sent l1)
     ++ fst (batchPromises host (snd (batchPromises host sent l1)) l2),
     snd (batchPromises host (snd (batchPromises host sent l1)) l2)).
Proof.
  induction l1 as [|t l1 IH]; intros sent.
  - cbn. destruct (batchPromises host sent l2); reflexivity.
  - cbn [app batchPromises].
    destruct (batchPromise host sent t) as [r sent1].
    rewrite (IH sent1).
    destruct (batchPromises host sent1 l1) as [rs sent2]. cbn [fst snd].
    destruct (batchPromises host sent2 l2) as [rs' sent3]. reflexivity.
Qed.

(** What one run of the batch body adds to the requests sent. *)
Lemma batchPromise_sent sent t :
  snd (batchPromise host sent t)
  = sent ++ match parseCoordinate (latitude (coordinate t)),
                  parseCoordinate (longitude (coordinate t)) with
            | Some lat, Some lon =>
                [returnSearchParams (latLonToEnvelope host lat lon None)
                                    (mapLayerId t ?? 0)]
            | _, _ => []
            end.
Proof.
  unfold batchPromise, fetchDepthForEnvelope.
  destruct (parseCoordinate (latitude (coordinate t))) as [lat|];
    [|rewrite app_nil_r; reflexivity].
  destruct (parseCoordinate (longitude (coordinate t))) as [lon|];
    [|rewrite app_nil_r; reflexivity].
  destruct (fetch host sent _) as [|ok status [body|]];
    [|destruct ok; cbn [negb]..]; reflexivity.
Qed.

Lemma batchPromises_sent_length batch : forall sent,
  List.length (snd (batchPromises host sent batch))
  = (List.length sent
     + List.length (filter (fun t => wellFormed (coordinate t)) batch))%nat.
Proof.
  induction batch as [|t batch IH]; intros sent; [simpl; lia|].
  cbn [batchPromises].
  pose proof (batchPromise_sent sent t) as Ht.
  destruct (batchPromise host sent t) as [r sent1]. cbn [snd] in Ht.
  specialize (IH sent1).
  destruct (batchPromises host sent1 batch) as [rs sent2]. cbn [snd] in *.
  rewrite IH, Ht, length_app. cbn [filter]. unfold wellFormed at 2.
  destruct (parseCoordinate (latitude (coordinate t)));
    [destruct (parseCoordinate (longitude (coordinate t)))|]; simpl; lia.
Qed.

Lemma while_after fuel batchSize : forall st st',
  while host fuel batchSize st = Some st' ->
  queue st' = []
  /\ exists n, (n <= fuel)%nat /\ st' = Nat.iter n (iteration host batchSize) st.
Proof.
  induction fuel as [|fuel IH]; intros st st' H.
  - simpl in H. destruct (queue st) eqn:E; [|discriminate].
    inversion H; subst. split; [exact E|]. exists 0%nat. split; [lia|reflexivity].
  - simpl in H. destruct (queue st) eqn:E.
    + inversion H; subst. split; [exact E|]. exists 0%nat. split; [lia|reflexivity].
    + destruct (IH _ _ H) as (Hq & n & Hn & Hst).
      split; [exact Hq|]. exists (S n). split; [lia|].
      rewrite Nat.iter_succ_r. exact Hst.
Qed.

Lemma after_invariant (P : Scheduler -> Prop) batchSize coordinates :
  P (start coordinates) ->
  (forall st, P st -> P (iteration host batchSize st)) ->
  forall n, P (after host batchSize coordinates n).
Proof.
  intros H0 Hstep n. unfold after.
  induction n as [|n IH]; [exact H0|]. cbn [Nat.iter]. apply Hstep, IH.
Qed.

(** ** Pacing *)

Lemma paced_iteration batchSize st :
  paced batchSize st -> paced batchSize (iteration host batchSize st).
Proof.
  intros (H1 & H2 & H3). set (n := Z.to_nat batchSize) in *.
  destruct (queue st) as [|t q] eqn:Hq.
  { rewrite iteration_idle by exact Hq. unfold paced. fold n. rewrite Hq. auto. }
  assert (Hs : (List.length (sent st) <= n * List.length (slept st))%nat)
    by (apply H2; discriminate).
  rewrite iteration_eq. fold n. rewrite Hq.
  set (batch := firstn n (t :: q)).
  set (rs := fst (batchPromises host (sent st) batch)).
  set (q' := rev (List.map nextLayer (filter retry rs)) ++ skipn n (t :: q)).
  assert (Hb : (List.length (snd (batchPromises host (sent st) batch))
                <= List.length (sent st) + n)%nat).
  { rewrite batchPromises_sent_length.
    pose proof (filter_length_le (fun t => wellFormed (coordinate t)) batch).
    assert (List.length batch <= n)%nat by (unfold batch; apply firstn_le_length).
    lia. }
  unfold paced. fold n. cbn [queue sent slept].
  destruct q' as [|t' q''].
  - split; [nia|]. split; [intros []; reflexivity|exact H3].
  - rewrite length_app. cbn [List.length].
    split; [nia|]. split; [intros _; nia|].
    apply Forall_app. split; [exact H3|]. constructor; [reflexivity|constructor].
Qed.

Lemma finished_after coordinates batchSize st :
  finished host coordinates batchSize st ->
  queue (Ghost.erase st) = []
  /\ exists n, Ghost.erase st = after host (batchSize ?? 10) coordinates n.
Proof.
  intros Hfin.
  destruct (Hfin (6 * List.length coordinates)%nat (Nat.le_refl _)) as (_ & Hw & _).
  destruct (while_after _ _ _ _ Hw) as (Hq & n & _ & Hst).
  split; [exact Hq|]. exists n. exact Hst.
Qed.

(** ** The number of requests *)

Lemma lookupsLeft_app q1 q2 :
  lookupsLeft (q1 ++ q2) = (lookupsLeft q1 + lookupsLeft q2)%nat.
Proof. unfold lookupsLeft. rewrite filter_app. apply remaining_app. Qed.

Lemma lookupsLeft_rev q : lookupsLeft (rev q) = lookupsLeft q.
Proof. unfold lookupsLeft. rewrite filter_rev. apply remaining_rev. Qed.

Lemma lookupsLeft_cons t q :
  lookupsLeft (t :: q)
  = ((if wellFormed (coordinate t) then weight t else 0) + lookupsLeft q)%nat.
Proof.
  unfold lookupsLeft. cbn [filter].
  destruct (wellFormed (coordinate t)); [apply remaining_cons|reflexivity].
Qed.

Lemma lookups_batch rs :
  (lookupsLeft (List.map nextLayer (filter retry rs))
   + List.length (filter (fun t => wellFormed (coordinate t)) (List.map coord rs))
   <= lookupsLeft (List.map coord rs))%nat.
Proof.
  induction rs as [|r rs IH]; [simpl; lia|].
  cbn [List.map filter]. rewrite lookupsLeft_cons.
  destruct (retry r) eqn:Hr.
  - cbn [List.map]. rewrite lookupsLeft_cons.
    change (coordinate (nextLayer r)) with (coordinate (coord r)).
    unfold retry in Hr. apply andb_prop in Hr. destruct Hr as [_ Hl].
    apply Z.ltb_lt in Hl.
    assert (Hw : (S (weight (nextLayer r)) <= weight (coord r))%nat).
    { unfold weight, nextLayer. cbn [mapLayerId nullish]. lia. }
    destruct (wellFormed (coordinate (coord r))); cbn [List.length]; lia.
  - assert (Hw : (1 <= weight (coord r))%nat) by (unfold weight; lia).
    destruct (wellFormed (coordinate (coord r))); cbn [List.length]; lia.
Qed.

Lemma lookups_iteration batchSize st :
  (List.length (sent (iteration host batchSize st))
   + lookupsLeft (queue (iteration host batchSize st))
   <= List.length (sent st) + lookupsLeft (queue st))%nat.
Proof.
  rewrite iteration_eq. cbn [queue sent].
  set (n := Z.to_nat batchSize).
  rewrite batchPromises_sent_length.
  rewrite lookupsLeft_app, lookupsLeft_rev.
  pose proof (lookups_batch (fst (batchPromises host (sent st) (firstn n (queue st)))))
    as H.
  rewrite batchPromises_coord in H.
  rewrite <- (firstn_skipn n (queue st)) at 4.
  rewrite lookupsLeft_app. lia.
Qed.

Lemma lookupsLeft_start coordinates :
  lookupsLeft (queue (start coordinates))
  = (6 * List.length (filter wellFormed coordinates))%nat.
Proof.
  unfold start. cbn [queue].
  induction coordinates as [|c cs IH]; [reflexivity|].
  cbn [List.map filter]. rewrite lookupsLeft_cons. cbn [coordinate].
  destruct (wellFormed c); cbn [List.length]; rewrite IH;
    [unfold weight; cbn [mapLayerId nullish]|]; lia.
Qed.

Lemma lookups_after batchSize coordinates n :
  (List.length (sent (after host batchSize coordinates n))
   + lookupsLeft (queue (after host batchSize coordinates n))
   <= 6 * List.length (filter wellFormed coordinates))%nat.
Proof.
  apply (after_invariant
           (fun st => (List.length (sent st) + lookupsLeft (queue st)
                       <= 6 * List.length (filter wellFormed coordinates))%nat)).
  - rewrite lookupsLeft_start. cbn. lia.
  - intros st H. pose proof (lookups_iteration batchSize st). lia.
Qed.

(** ** The requests *)

Lemma requests_batch coordinates batch : forall sent,
  Forall (taskFor coordinates) batch ->
  Forall (requestFor host coordinates) sent ->
  Forall (requestFor host coordinates) (snd (batchPromises host sent batch)).
Proof.
  induction batch as [|t batch IH]; intros sent Hb Hs; [exact Hs|].
  inversion Hb as [|? ? Ht Hb']; subst.
  cbn [batchPromises].
  pose proof (batchPromise_sent sent t) as Hsent.
  destruct (batchPromise host sent t) as [r sent1]. cbn [snd] in Hsent.
  specialize (IH sent1 Hb').
  destruct (batchPromises host sent1 batch) as [rs sent2]. cbn [snd] in *.
  apply IH. rewrite Hsent. apply Forall_app. split; [exact Hs|].
  destruct Ht as (Hin & k & Hk & Hrange).
  destruct (parseCoordinate (latitude (coordinate t))) as [lat|] eqn:Hlat;
    [|constructor].
  destruct (parseCoordinate (longitude (coordinate t))) as [lon|] eqn:Hlon;
    [|constructor].
  constructor; [|constructor].
  exists (coordinate t), lat, lon, k. rewrite Hk. cbn [nullish]. auto.
Qed.

Lemma tasks_requeued coordinates rs :
  Forall (taskFor coordinates) (List.map coord rs) ->
  Forall (taskFor coordinates) (List.map nextLayer (filter retry rs)).
Proof.
  induction rs as [|r rs IH]; intros H; [constructor|].
  inversion H as [|? ? Hr H']; subst. cbn [filter].
  destruct (retry r) eqn:E; [|apply IH, H'].
  cbn [List.map]. constructor; [|apply IH, H'].
  destruct Hr as (Hin & k & Hk & Hrange).
  unfold retry in E. apply andb_prop in E. destruct E as [_ E].
  apply Z.ltb_lt in E. rewrite Hk in E. cbn [nullish] in E.
  split; [exact Hin|]. exists (k + 1). unfold nextLayer. rewrite Hk.
  cbn [mapLayerId nullish]. split; [reflexivity|lia].
Qed.

Lemma requests_iteration coordinates batchSize st :
  Forall (taskFor coordinates) (queue st)
  /\ Forall (requestFor host coordinates) (sent st) ->
  Forall (taskFor coordinates) (queue (iteration host batchSize st))
  /\ Forall (requestFor host coordinates) (sent (iteration host batchSize st)).
Proof.
  intros [Hq Hs]. rewrite iteration_eq. cbn [queue sent].
  set (n := Z.to_nat batchSize).
  rewrite <- (firstn_skipn n (queue st)) in Hq.
  apply Forall_app in Hq. destruct Hq as [Hbatch Hrest].
  split.
  - apply Forall_app. split; [|exact Hrest].
    apply Forall_rev, tasks_requeued. rewrite batchPromises_coord. exact Hbatch.
  - apply requests_batch; assumption.
Qed.

Lemma requests_after coordinates batchSize n :
  Forall (taskFor coordinates) (queue (after host batchSize coordinates n))
  /\ Forall (requestFor host coordinates) (sent (after host batchSize coordinates n)).
Proof.
  apply (after_invariant
           (fun st => Forall (taskFor coordinates) (queue st)
                      /\ Forall (requestFor host coordinates) (sent st))).
  - split; [|constructor]. unfold start. cbn [queue].
    apply Forall_forall. intros t Ht. apply in_map_iff in Ht.
    destruct Ht as (c & <- & Hc). split; [exact Hc|].
    exists 0. cbn. split; [reflexivity|lia].
  - intros st. apply requests_iteration.
Qed.

(** ** One at a time *)

Lemma in_order_iteration coordinates st :
  List.map (fun r => coordinate (coord r)) (results st)
  ++ List.map coordinate (queue st) = coordinates ->
  List.map (fun r => coordinate (coord r)) (results (iteration host 1 st))
  ++ List.map coordinate (queue (iteration host 1 st)) = coordinates.
Proof.
  intros H. destruct (queue st) as [|t q] eqn:Hq.
  { rewrite iteration_idle by exact Hq. rewrite Hq. exact H. }
  rewrite iteration_eq. cbn [queue results]. rewrite Hq.
  change (Z.to_nat 1) with 1%nat. cbn [firstn skipn batchPromises].
  pose proof (batchPromise_coord host (sent st) t) as Ht.
  destruct (batchPromise host (sent st) t) as [r sent1]. cbn [fst snd] in *.
  cbn [filter]. rewrite <- H.
  destruct (retry r); cbn [negb List.map rev app].
  - rewrite app_nil_r. change (coordinate (nextLayer r)) with (coordinate (coord r)).
    rewrite Ht. reflexivity.
  - rewrite map_app, <- app_assoc. cbn [List.map app]. rewrite Ht. reflexivity.
Qed.

(** ** When every coordinate has data on layer 0 *)

Lemma nothing_retried rs :
  Forall (fun r => result_features r <> []) rs ->
  filter retry rs = [] /\ filter (fun r => negb (retry r)) rs = rs.
Proof.
  induction 1 as [|r rs Hr _ [IH1 IH2]]; [split; reflexivity|].
  assert (E : retry r = false).
  { unfold retry. destruct (result_features r); [contradiction|reflexivity]. }
  cbn [filter]. rewrite E. cbn [negb]. rewrite IH1, IH2. split; reflexivity.
Qed.

Lemma delays_step n len :
  (1 <= n)%nat -> (n < len)%nat ->
  ((len - 1) / n = S ((len - n - 1) / n))%nat.
Proof.
  intros Hn Hlen.
  replace (len - 1)%nat with (1 * n + (len - n - 1))%nat by lia.
  rewrite Nat.div_add_l by lia. lia.
Qed.

Lemma straight_iteration batchSize q0 st done :
  0 < batchSize ->
  Forall (fun r => result_features r <> []) (fst (batchPromises host [] q0)) ->
  q0 = done ++ queue st ->
  batchPromises host [] done = (results st, sent st) ->
  (List.length (slept st) + (List.length (queue st) - 1) / Z.to_nat batchSize
   = (List.length q0 - 1) / Z.to_nat batchSize)%nat ->
  exists done',
    q0 = done' ++ queue (iteration host batchSize st)
    /\ batchPromises host [] done'
       = (results (iteration host batchSize st), sent (iteration host batchSize st))
    /\ (List.length (slept (iteration host batchSize st))
        + (List.length (queue (iteration host batchSize st)) - 1) / Z.to_nat batchSize
        = (List.length q0 - 1) / Z.to_nat batchSize)%nat.
Proof.
  intros Hb Hall Hq0 Hdone Hslept.
  set (n := Z.to_nat batchSize) in *.
  assert (Hn : (1 <= n)%nat) by lia.
  rewrite iteration_eq. fold n. cbn [queue results sent slept].
  set (batch := firstn n (queue st)).
  set (rest := skipn n (queue st)).
  assert (Hsplit : queue st = batch ++ rest) by (symmetry; apply firstn_skipn).
  assert (Hrs : Forall (fun r => result_features r <> [])
                       (fst (batchPromises host (sent st) batch))).
  { rewrite Hq0, Hsplit, app_assoc in Hall.
    rewrite batchPromises_app in Hall. cbn [fst] in Hall.
    apply Forall_app in Hall. destruct Hall as [Hall _].
    rewrite batchPromises_app in Hall. cbn [fst] in Hall.
    apply Forall_app in Hall. destruct Hall as [_ Hall].
    rewrite Hdone in Hall. exact Hall. }
  destruct (nothing_retried _ Hrs) as [E1 E2]. rewrite E1, E2.
  cbn [List.map rev app].
  exists (done ++ batch). split; [|split].
  - rewrite <- app_assoc, <- Hsplit. exact Hq0.
  - rewrite batchPromises_app, Hdone. reflexivity.
  - assert (Hlen : List.length rest = (List.length (queue st) - n)%nat)
      by (unfold rest; apply length_skipn).
    destruct rest as [|t rest'] eqn:Hrest.
    + cbn [List.length] in *.
      assert (E : ((List.length (queue st) - 1) / n = 0)%nat)
        by (apply Nat.div_small_iff; lia).
      rewrite E in Hslept. change (0 - 1)%nat with 0%nat.
      rewrite Nat.Div0.div_0_l. exact Hslept.
    + rewrite length_app. rewrite Hlen.
      assert (Hlt : (n < List.length (queue st))%nat) by (cbn [List.length] in Hlen; lia).
      rewrite (delays_step n _ Hn Hlt) in Hslept. cbn [List.length]. lia.
Qed.

(** What a result with features comes from. *)
Lemma batchPromise_features sent t r sent' :
  batchPromise host sent t = (r, sent') ->
  result_features r <> [] ->
  exists lat lon status body,
    parseCoordinate (latitude (coordinate t)) = Some lat
    /\ parseCoordinate (longitude (coordinate t)) = Some lon
    /\ fetch host sent (returnSearchParams (latLonToEnvelope host lat lon None)
                                           (mapLayerId t ?? 0))
       = Response true status (Some body)
    /\ features body = result_features r.
Proof.
  unfold batchPromise, fetchDepthForEnvelope. intros H Hf.
  destruct (parseCoordinate (latitude (coordinate t))) as [lat|];
    [|inversion H; subst; contradiction].
  destruct (parseCoordinate (longitude (coordinate t))) as [lon|];
    [|inversion H; subst; contradiction].
  destruct (fetch host sent _) as [|ok status [body|]] eqn:E;
    [|destruct ok; cbn [negb] in H..]; inversion H; subst;
    try contradiction.
  exists lat, lon, status, body. auto.
Qed.

(** ** The properties *)

(** X8: pacing: after any number of iterations of the loop the requests sent
    fit in one batch more than the delays awaited, and while the queue is
    not empty every batch sent so far has been followed by its delay; every
    delay is [BATCH_DELAY], ten seconds; so it is when [runInBatches]
    returns. *)
Theorem requests_are_paced coordinates batchSize :
  (forall n, paced (batchSize ?? 10) (after host (batchSize ?? 10) coordinates n))
  /\ (0 < batchSize ?? 10 ->
      exists st,
        finished host coordinates batchSize st
        /\ paced (batchSize ?? 10) (Ghost.erase st)).
Proof.
  assert (H : forall n, paced (batchSize ?? 10)
                              (after host (batchSize ?? 10) coordinates n)).
  { apply after_invariant.
    - unfold paced, start. cbn. split; [lia|]. split; [lia|constructor].
    - intros st. apply paced_iteration. }
  split; [exact H|].
  intros Hb. destruct (run_finishes host coordinates batchSize Hb) as (st & Hfin & _).
  exists st. split; [exact Hfin|].
  destruct (finished_after _ _ _ Hfin) as (_ & n & ->). apply H.
Qed.

(** X9: the number of requests: at any time the page has sent at most six
    requests for each coordinate whose latitude and longitude parse, and
    none for the others; so it is when [runInBatches] returns. *)
Theorem request_count_bounded coordinates batchSize :
  (forall n,
      (List.length (sent (after host (batchSize ?? 10)%Z coordinates n))
       <= 6 * List.length (filter wellFormed coordinates))%nat)
  /\ (0 < batchSize ?? 10 ->
      exists st,
        finished host coordinates batchSize st
        /\ (List.length (sent (Ghost.erase st))
            <= 6 * List.length (filter wellFormed coordinates))%nat).
Proof.
  assert (H : forall n,
             (List.length (sent (after host (batchSize ?? 10)%Z coordinates n))
              <= 6 * List.length (filter wellFormed coordinates))%nat).
  { intros n. pose proof (lookups_after (batchSize ?? 10) coordinates n). lia. }
  split; [exact H|].
  intros Hb. destruct (run_finishes host coordinates batchSize Hb) as (st & Hfin & _).
  exists st. split; [exact Hfin|].
  destruct (finished_after _ _ _ Hfin) as (_ & n & ->). apply H.
Qed.

(** X10: the requests: every request the page sends is the query for the
    envelope of one of the input coordinates, read by [parseCoordinate], at
    a layer from 0 to 5; so it is when [runInBatches] returns. *)
Theorem requests_are_for_the_coordinates coordinates batchSize :
  (forall n,
      Forall (requestFor host coordinates)
             (sent (after host (batchSize ?? 10) coordinates n)))
  /\ (0 < batchSize ?? 10 ->
      exists st,
        finished host coordinates batchSize st
        /\ Forall (requestFor host coordinates) (sent (Ghost.erase st))).
Proof.
  assert (H : forall n,
             Forall (requestFor host coordinates)
                    (sent (after host (batchSize ?? 10) coordinates n))).
  { intros n. apply requests_after. }
  split; [exact H|].
  intros Hb. destruct (run_finishes host coordinates batchSize Hb) as (st & Hfin & _).
  exists st. split; [exact Hfin|].
  destruct (finished_after _ _ _ Hfin) as (_ & n & ->). apply H.
Qed.

(** X11: with batches of one the results come in the order of the input,
    whatever the service answers: a coordinate is retried through its layers
    before the next one is taken. *)
Theorem batch_of_one_keeps_order coordinates :
  exists results,
    (forall fuel, (6 * List.length coordinates <= fuel)%nat ->
                  runInBatches host fuel coordinates (Some 1) = Some results)
    /\ List.map (fun r => coordinate (coord r)) results = coordinates.
Proof.
  destruct (run_finishes host coordinates (Some 1) eq_refl) as (st & Hfin & _).
  exists (results (Ghost.erase st)). split.
  - intros fuel Hfuel. apply (Hfin fuel Hfuel).
  - destruct (finished_after _ _ _ Hfin) as (Hq & n & Hn).
    assert (H : List.map (fun r => coordinate (coord r)) (results (Ghost.erase st))
                ++ List.map coordinate (queue (Ghost.erase st)) = coordinates).
    { rewrite Hn.
      apply (after_invariant
               (fun st => List.map (fun r => coordinate (coord r)) (results st)
                          ++ List.map coordinate (queue st) = coordinates)).
      - unfold start. cbn [results queue List.map app].
        rewrite map_map. cbn [coordinate]. apply map_id.
      - intros st'. apply in_order_iteration. }
    rewrite Hq in H. cbn [List.map] in H. rewrite app_nil_r in H. exact H.
Qed.

(** X12: when the service has data on layer 0 for every coordinate, that is,
    when trying each coordinate once, in order, on layer 0 finds features
    for each: [runInBatches] returns exactly those results, in the order of
    the input, having sent exactly those requests, and for N coordinates it
    has awaited (N - 1) / batchSize delays. *)
Theorem data_on_layer_zero coordinates batchSize :
  0 < batchSize ?? 10 ->
  Forall (fun r => result_features r <> [])
         (fst (batchPromises host [] (queue (start coordinates)))) ->
  exists st,
    finished host coordinates batchSize st
    /\ (results (Ghost.erase st), sent (Ghost.erase st))
       = batchPromises host [] (queue (start coordinates))
    /\ List.map (fun r => coordinate (coord r)) (results (Ghost.erase st))
       = coordinates
    /\ List.length (slept (Ghost.erase st))
       = ((List.length coordinates - 1) / Z.to_nat (batchSize ?? 10)%Z)%nat.
Proof.
  intros Hb Hall.
  destruct (run_finishes host coordinates batchSize Hb) as (st & Hfin & _).
  exists st. split; [exact Hfin|].
  destruct (finished_after _ _ _ Hfin) as (Hq & n & Hn).
  set (q0 := queue (start coordinates)) in *.
  assert (H : exists done,
             q0 = done ++ queue (Ghost.erase st)
             /\ batchPromises host [] done
                = (results (Ghost.erase st), sent (Ghost.erase st))
             /\ (List.length (slept (Ghost.erase st))
                 + (List.length (queue (Ghost.erase st)) - 1)
                   / Z.to_nat (batchSize ?? 10)%Z
                 = (List.length q0 - 1) / Z.to_nat (batchSize ?? 10)%Z)%nat).
  { rewrite Hn.
    apply (after_invariant
             (fun st => exists done,
                  q0 = done ++ queue st
                  /\ batchPromises host [] done = (results st, sent st)
                  /\ (List.length (slept st)
                      + (List.length (queue st) - 1) / Z.to_nat (batchSize ?? 10)%Z
                      = (List.length q0 - 1) / Z.to_nat (batchSize ?? 10)%Z)%nat)).
    - exists []. split; [reflexivity|]. split; reflexivity.
    - intros st' (done & H1 & H2 & H3).
      apply (straight_iteration _ q0 st' done Hb Hall H1 H2 H3). }
  destruct H as (done & H1 & H2 & H3).
  rewrite Hq, app_nil_r in H1. subst done.
  assert (Hlen : List.length q0 = List.length coordinates)
    by (unfold q0, start; cbn [queue]; apply length_map).
  split; [symmetry; exact H2|]. split.
  - pose proof (batchPromises_coord q0 []) as Hc. rewrite H2 in Hc. cbn [fst] in Hc.
    rewrite <- (map_map coord coordinate), Hc.
    unfold q0, start. cbn [queue]. rewrite map_map. cbn [coordinate]. apply map_id.
  - rewrite Hq in H3. cbn [List.length] in H3.
    change (0 - 1)%nat with 0%nat in H3. rewrite Nat.Div0.div_0_l in H3.
    rewrite <- Hlen. lia.
Qed.

(** X13: reading a result: every result is for an input coordinate at a
    layer from 0 to 5, and a result without features is at layer 5, after
    six attempts for its coordinate, at the layers 0 to 5, none of which
    found a feature. *)
Theorem empty_result_after_six_layers coordinates batchSize :
  0 < batchSize ?? 10 ->
  exists st,
    finished host coordinates batchSize st
    /\ forall i r, In (i, r) (Ghost.gresults st) ->
         exists c k,
           nth_error coordinates i = Some c /\ (k <= 5)%nat
           /\ coord r = Ghost.task c k
           /\ (result_features r = [] ->
               k = 5%nat
               /\ List.map Ghost.at_task (Ghost.attemptsOf i (Ghost.gtrace st))
                  = List.map (Ghost.task c) (seq 0 6)
               /\ Forall Ghost.empty (Ghost.attemptsOf i (Ghost.gtrace st))).
Proof.
  intros Hb.
  destruct (run_finishes host coordinates batchSize Hb) as (st & Hfin & Hq & Hinv).
  exists st. split; [exact Hfin|].
  intros i r Hin. destruct Hinv as [_ _ Hres Htrace _].
  rewrite Forall_forall in Hres.
  destruct (Hres _ Hin) as (c & k & before & a & Hn & Hat & Hret & Ht & Hr & Hc & Hk & Hf).
  cbn [fst snd] in *.
  exists c, k. split; [exact Hn|]. split; [exact Hk|]. split; [exact Hc|].
  intros He. destruct Hf as [Hf|Hf]; [contradiction|]. subst k.
  split; [reflexivity|]. rewrite Hat. split.
  - apply (retried_tasks c 5 before a Hret Ht).
  - apply Forall_app. split; [apply Hret|].
    constructor; [|constructor]. unfold Ghost.empty. rewrite Hr. exact He.
Qed.

(** X14: no feature is made up: the features of a result are those of the
    body of an [ok] response to the request for the envelope of its
    coordinate at the layer of the result, and that request was the last
    attempt for the coordinate. *)
Theorem features_come_from_the_service coordinates batchSize :
  0 < batchSize ?? 10 ->
  exists st,
    finished host coordinates batchSize st
    /\ forall i r, In (i, r) (Ghost.gresults st) -> result_features r <> [] ->
         exists c k before a lat lon status body,
           nth_error coordinates i = Some c /\ (k <= 5)%nat
           /\ coord r = Ghost.task c k
           /\ Ghost.attemptsOf i (Ghost.gtrace st) = before ++ [a]
           /\ parseCoordinate (latitude c) = Some lat
           /\ parseCoordinate (longitude c) = Some lon
           /\ fetch host (Ghost.at_sent a)
                     (returnSearchParams (latLonToEnvelope host lat lon None)
                                         (Z.of_nat k))
              = Response true status (Some body)
           /\ features body = result_features r.
Proof.
  intros Hb.
  destruct (run_finishes host coordinates batchSize Hb) as (st & Hfin & Hq & Hinv).
  exists st. split; [exact Hfin|].
  intros i r Hin Hne. destruct Hinv as [_ _ Hres Htrace _].
  rewrite Forall_forall in Hres, Htrace.
  destruct (Hres _ Hin) as (c & k & before & a & Hn & Hat & Hret & Ht & Hr & Hc & Hk & Hf).
  cbn [fst snd] in *.
  assert (Ha : In a (Ghost.gtrace st)).
  { apply (attemptsOf_In i a). rewrite Hat. apply in_or_app. right. left. reflexivity. }
  pose proof (Htrace a Ha) as Hrec. unfold Ghost.recorded in Hrec.
  rewrite Hr in Hrec.
  destruct (batchPromise_features _ _ _ _ Hrec Hne)
    as (lat & lon & status & body & Hlat & Hlon & Hfetch & Hfeat).
  rewrite Ht in Hlat, Hlon, Hfetch. cbn [Ghost.task coordinate mapLayerId nullish] in *.
  exists c, k, before, a, lat, lon, status, body. repeat split; assumption.
Qed.

(** X15: the batch size: with a batch size below one [runInBatches] returns,
    at once and with no result, only for an empty input; for any other input
    it never returns, however long it runs. *)
Theorem batch_size_below_one coordinates batchSize fuel :
  batchSize ?? 10 <= 0 ->
  runInBatches host fuel coordinates batchSize
  = match coordinates with
    | [] => Some []
    | _ :: _ => None
    end.
Proof.
  intros Hb. unfold runInBatches. destruct coordinates as [|c cs].
  - destruct fuel; reflexivity.
  - rewrite (while_needs_a_batch host fuel _ Hb); [reflexivity|].
    unfold start. cbn. discriminate.
Qed.

End SchedulerLoop.

Lemma requests_are_paced_witness :
  0 < Some MAX_CONCURRENT_REQUESTS ?? 10
  /\ exists st,
       finished depthHost [belem; malformed] (Some MAX_CONCURRENT_REQUESTS) st
       /\ paced (Some MAX_CONCURRENT_REQUESTS ?? 10) (Ghost.erase st).
Proof.
  split; [reflexivity|].
  apply (proj2 (requests_are_paced depthHost [belem; malformed]
                  (Some MAX_CONCURRENT_REQUESTS))).
  reflexivity.
Defined.

Lemma request_count_bounded_witness :
  0 < Some MAX_CONCURRENT_REQUESTS ?? 10
  /\ exists st,
       finished depthHost [belem; malformed] (Some MAX_CONCURRENT_REQUESTS) st
       /\ (List.length (sent (Ghost.erase st))
           <= 6 * List.length (filter wellFormed [belem; malformed]))%nat.
Proof.
  split; [reflexivity|].
  apply (proj2 (request_count_bounded depthHost [belem; malformed]
                  (Some MAX_CONCURRENT_REQUESTS))).
  reflexivity.
Defined.

Lemma requests_are_for_the_coordinates_witness :
  0 < Some MAX_CONCURRENT_REQUESTS ?? 10
  /\ exists st,
       finished depthHost [belem; malformed] (Some MAX_CONCURRENT_REQUESTS) st
       /\ Forall (requestFor depthHost [belem; malformed]) (sent (Ghost.erase st)).
Proof.
  split; [reflexivity|].
  apply (proj2 (requests_are_for_the_coordinates depthHost [belem; malformed]
                  (Some MAX_CONCURRENT_REQUESTS))).
  reflexivity.
Defined.

Lemma batch_of_one_keeps_order_witness :
  exists results,
    runInBatches depthHost 12 [belem; malformed] (Some 1) = Some results
    /\ List.map (fun r => coordinate (coord r)) results = [belem; malformed].
Proof.
  destruct (batch_of_one_keeps_order depthHost [belem; malformed])
    as (results & Hrun & Hord).
  exists results. split; [apply Hrun; simpl; lia|exact Hord].
Defined.

Lemma data_on_layer_zero_witness :
  exists st,
    finished dataHost [belem; belem; belem] (Some 2) st
    /\ (results (Ghost.erase st), sent (Ghost.erase st))
       = batchPromises dataHost [] (queue (start [belem; belem; belem]))
    /\ List.map (fun r => coordinate (coord r)) (results (Ghost.erase st))
       = [belem; belem; belem]
    /\ List.length (slept (Ghost.erase st)) = 1%nat.
Proof.
  apply (data_on_layer_zero dataHost [belem; belem; belem] (Some 2)).
  - reflexivity.
  - repeat constructor; discriminate.
Defined.

Lemma empty_result_after_six_layers_witness :
  exists st,
    finished noDataHost [belem] (Some MAX_CONCURRENT_REQUESTS) st
    /\ forall i r, In (i, r) (Ghost.gresults st) ->
         exists c k,
           nth_error [belem] i = Some c /\ (k <= 5)%nat
           /\ coord r = Ghost.task c k
           /\ (result_features r = [] ->
               k = 5%nat
               /\ List.map Ghost.at_task (Ghost.attemptsOf i (Ghost.gtrace st))
                  = List.map (Ghost.task c) (seq 0 6)
               /\ Forall Ghost.empty (Ghost.attemptsOf i (Ghost.gtrace st))).
Proof.
  apply (empty_result_after_six_layers noDataHost [belem]
           (Some MAX_CONCURRENT_REQUESTS)).
  reflexivity.
Defined.

Lemma features_come_from_the_service_witness :
  exists st,
    finished depthHost [belem] (Some MAX_CONCURRENT_REQUESTS) st
    /\ forall i r, In (i, r) (Ghost.gresults st) -> result_features r <> [] ->
         exists c k before a lat lon status body,
           nth_error [belem] i = Some c /\ (k <= 5)%nat
           /\ coord r = Ghost.task c k
           /\ Ghost.attemptsOf i (Ghost.gtrace st) = before ++ [a]
           /\ parseCoordinate (latitude c) = Some lat
           /\ parseCoordinate (longitude c) = Some lon
           /\ fetch depthHost (Ghost.at_sent a)
                     (returnSearchParams (latLonToEnvelope depthHost lat lon None)
                                         (Z.of_nat k))
              = Response true status (Some body)
           /\ features body = result_features r.
Proof.
  apply (features_come_from_the_service depthHost [belem]
           (Some MAX_CONCURRENT_REQUESTS)).
  reflexivity.
Defined.

Lemma batch_size_below_one_witness :
  runInBatches noDataHost 1000 [belem] (Some 0) = None
  /\ runInBatches noDataHost 0 [] (Some (-1)) = Some [].
Proof.
  split.
  - apply (batch_size_below_one noDataHost [belem] (Some 0) 1000). simpl. lia.
  - apply (batch_size_below_one noDataHost [] (Some (-1)) 0%nat). simpl. lia.
Defined.

(* ===================================================================== *)
(** * Coordinate texts and the poles                                     *)
(* ===================================================================== *)


Lemma white_not_digit c : isWhiteSpace c = true -> isDigit c = false.
Proof.
  intros H. destruct (isDigit c) eqn:E; [|reflexivity].
  rewrite (digit_not_white c E) in H. discriminate.
Qed.

Lemma whiteSpace_digitless w : whiteSpace w -> digitless w.
Proof.
  unfold whiteSpace, digitless. intros H.
  eapply Forall_impl; [|exact H]. intros c. apply white_not_digit.
Qed.

Lemma trimStart_spec s :
  exists l, whiteSpace l /\ s = l ++ trimStart s
            /\ (trimStart s = []
                \/ exists c s', trimStart s = c :: s' /\ isWhiteSpace c = false).
Proof.
  induction s as [|c s (l & Hl & Hs & Hh)].
  - exists []. split; [constructor|]. split; [reflexivity|left; reflexivity].
  - cbn [trimStart]. destruct (isWhiteSpace c) eqn:E.
    + exists (c :: l). split; [constructor; assumption|].
      split; [cbn; f_equal; exact Hs|exact Hh].
    + exists []. split; [constructor|]. split; [reflexivity|].
      right. exists c, s. split; [reflexivity|exact E].
Qed.

Lemma trimStart_white l s : whiteSpace l -> trimStart (l ++ s) = trimStart s.
Proof.
  induction 1 as [|c l Hc _ IH]; [reflexivity|].
  cbn [app trimStart]. rewrite Hc. exact IH.
Qed.

Lemma trim_white s : whiteSpace s -> trim s = [].
Proof.
  intros H. unfold trim.
  rewrite <- (app_nil_r s), (trimStart_white s [] H). reflexivity.
Qed.

Lemma trim_unique l y r :
  whiteSpace l -> whiteSpace r -> trimmed y -> trim (l ++ y ++ r) = y.
Proof.
  intros Hl Hr [(c & y' & Hy & Hc) (y'' & d & Hy' & Hd)].
  unfold trim, trimEnd. rewrite (trimStart_white l _ Hl).
  assert (E : trimStart (y ++ r) = y ++ r).
  { rewrite Hy. cbn [app]. apply trimStart_keeps, Hc. }
  rewrite E, rev_app_distr.
  rewrite trimStart_white by (apply Forall_rev; exact Hr).
  rewrite Hy', rev_app_distr. cbn [rev app].
  rewrite (trimStart_keeps d _ Hd). cbn [rev].
  rewrite rev_involutive. reflexivity.
Qed.

Lemma trim_spec s :
  exists l r, whiteSpace l /\ whiteSpace r /\ s = l ++ trim s ++ r
              /\ (trim s = [] \/ trimmed (trim s)).
Proof.
  destruct (trimStart_spec s) as (l & Hl & Hs & Hh).
  destruct (trimStart_spec (rev (trimStart s))) as (r & Hr & Hs' & Hh').
  fold (trimEnd (trimStart s)) in *. 
  assert (E : trimStart s = trim s ++ rev r).
  { unfold trim, trimEnd. rewrite <- (rev_involutive (trimStart s)) at 1.
    rewrite Hs' at 1. rewrite rev_app_distr. reflexivity. }
  exists l, (rev r). split; [exact Hl|]. split; [apply Forall_rev; exact Hr|].
  split; [rewrite <- E; exact Hs|].
  destruct (trim s) as [|c t] eqn:Ht; [left; reflexivity|right].
  split.
  - exists c, t. split; [reflexivity|].
    destruct Hh as [Hh|(c' & s' & Hc' & Hw)]; [rewrite Hh in E; discriminate|].
    rewrite Hc' in E. cbn [app] in E. inversion E; subst. exact Hw.
  - unfold trim, trimEnd in Ht.
    destruct Hh' as [Hh'|(d & t' & Hd & Hw)].
    + rewrite Hh' in Ht. discriminate.
    + rewrite Hd in Ht. cbn [rev] in Ht. exists (rev t'), d.
      split; [symmetry; exact Ht|exact Hw].
Qed.

Lemma digitless_app a b : digitless (a ++ b) <-> digitless a /\ digitless b.
Proof. apply Forall_app. Qed.

(** The text trimmed, after a prefix without digits. *)
Lemma trim_digitless_prefix p s :
  digitless p ->
  exists u, digitless u /\ trim (p ++ s) = u ++ trim s.
Proof.
  intros Hp.
  destruct (trim_spec s) as (l & r & Hl & Hr & Hs & Ht).
  destruct Ht as [Ht|Ht].
  - (* nothing but white space in [s] *)
    rewrite Ht. exists (trim (p ++ s)). split; [|symmetry; apply app_nil_r].
    assert (Hall : digitless (p ++ s)).
    { apply digitless_app. split; [exact Hp|].
      rewrite Hs, Ht. cbn [app]. apply digitless_app.
      split; apply whiteSpace_digitless; assumption. }
    destruct (trim_spec (p ++ s)) as (l' & r' & _ & _ & E & _).
    rewrite E in Hall. apply digitless_app in Hall. destruct Hall as [_ Hall].
    apply digitless_app in Hall. apply Hall.
  - set (w := p ++ l).
    assert (Hw : digitless w)
      by (apply digitless_app; split; [exact Hp|apply whiteSpace_digitless, Hl]).
    assert (E : p ++ s = w ++ trim s ++ r).
    { unfold w. rewrite Hs at 1. rewrite <- app_assoc. reflexivity. }
    destruct (trimStart_spec w) as (l' & Hl' & Ew & Hh).
    destruct Hh as [Hh|(c & w' & Hc & Hcw)].
    + exists []. split; [constructor|]. rewrite E, Ew, Hh, app_nil_r.
      apply trim_unique; assumption.
    + exists (trimStart w). split.
      * rewrite Ew in Hw. apply digitless_app in Hw. apply Hw.
      * rewrite E. rewrite Ew at 1. rewrite <- app_assoc.
        rewrite (app_assoc (trimStart w)).
        apply trim_unique; [exact Hl'|exact Hr|].
        destruct Ht as [_ (t' & d & Hd & Hdw)]. split.
        -- rewrite Hc. exists c, (w' ++ trim s). split; [reflexivity|exact Hcw].
        -- exists (trimStart w ++ t'), d. split; [|exact Hdw].
           rewrite Hd at 1. rewrite app_assoc. reflexivity.
Qed.

(** A match of the pattern starts with a digit. *)
Lemma rmatch_coordinateRegex_digit {R} c s capt (k : @continuation R) :
  isDigit c = false -> rmatch coordinateRegex (c :: s) capt k = None.
Proof.
  intros Hc. unfold coordinateRegex.
  rewrite rmatch_seq, rmatch_group. unfold rep. rewrite rmatch_quant_owed.
  cbn [rmatch digit]. rewrite Hc. reflexivity.
Qed.

Lemma rmatch_coordinateRegex_nil {R} capt (k : @continuation R) :
  rmatch coordinateRegex [] capt k = None.
Proof.
  unfold coordinateRegex.
  rewrite rmatch_seq, rmatch_group. unfold rep. rewrite rmatch_quant_owed.
  reflexivity.
Qed.

Lemma exec_digitless_prefix u t :
  digitless u -> exec coordinateRegex (u ++ t) = exec coordinateRegex t.
Proof.
  induction 1 as [|c u Hc _ IH]; [reflexivity|].
  cbn [app]. rewrite exec_eq, rmatch_coordinateRegex_digit by exact Hc. exact IH.
Qed.

Lemma parseStringCoordinate_exec a b :
  exec coordinateRegex (trim a) = exec coordinateRegex (trim b) ->
  returned (parseStringCoordinate a) = returned (parseStringCoordinate b).
Proof.
  intros H. unfold parseStringCoordinate. rewrite H.
  destruct (exec coordinateRegex (trim b)) as [[text m]|]; [|reflexivity].
  destruct (falsy (m 1%nat) || falsy (m 2%nat) || falsy (m 3%nat) || falsy (m 4%nat));
    reflexivity.
Qed.

(** X16: what stands before the first digit of a coordinate text does not
    count: with a prefix that has no digit (a label, white space, a minus
    sign) [parseStringCoordinate] returns the same value, or fails as well;
    in particular a minus sign in front does not negate the value. *)
Theorem text_before_the_digits_is_ignored prefix coordinate :
  digitless prefix ->
  returned (parseStringCoordinate (prefix ++ coordinate))
  = returned (parseStringCoordinate coordinate).
Proof.
  intros Hp. apply parseStringCoordinate_exec.
  destruct (trim_digitless_prefix prefix coordinate Hp) as (u & Hu & ->).
  apply exec_digitless_prefix, Hu.
Qed.

(** After a digit and three more digits no match of the pattern starts:
    the degrees have at most three digits and the degree sign must
    follow. *)
Lemma rmatch_coordinateRegex_fourth_digit {R} d a b c rest capt
    (k : @continuation R) :
  digits [d; a; b; c] ->
  rmatch coordinateRegex (d :: a :: b :: c :: rest) capt k = None.
Proof.
  intros H.
  inversion H as [|? ? Hd H1]; subst. inversion H1 as [|? ? Ha H2]; subst.
  inversion H2 as [|? ? Hb H3]; subst. inversion H3 as [|? ? Hc _]; subst.
  assert (Hsign : forall x t c' (k' : @continuation R),
             isDigit x = true ->
             rmatch (lit degreeSign · star space
                     · RGroup 2 (rep digit 1 2) · opt (lit apostrophe)
                     · opt (RGroup 3 (rep digit 1 2 · opt (lit fullStop · plus digit)))
                     · opt (lit quotationMark)
                     · RGroup 4 (oneOfIgnoreCase (str "NSEW")))%re
                    (x :: t) c' k' = None).
  { intros x t c' k' Hx. rewrite rmatch_seq. apply rmatch_lit_other.
    intros E. subst x. discriminate. }
  unfold coordinateRegex.
  rewrite rmatch_seq, rmatch_group. unfold rep at 1.
  rewrite rmatch_quant_owed, (rmatch_char _ _ _ _ _ Hd).
  rewrite rmatch_quant_more, (rmatch_char _ _ _ _ _ Ha).
  lengths_differ.
  rewrite rmatch_quant_more, (rmatch_char _ _ _ _ _ Hb).
  lengths_differ.
  rewrite rmatch_quant_zero.
  rewrite (Hsign c) by exact Hc.
  rewrite (Hsign b) by exact Hb.
  apply (Hsign a). exact Ha.
Qed.

Lemma startsWithThreeDigits_app p s :
  digits p -> startsWithThreeDigits s -> startsWithThreeDigits (p ++ s).
Proof.
  intros Hp (a & b & c & rest & -> & Habc).
  inversion Habc as [|? ? Ha H1]; subst. inversion H1 as [|? ? Hb H2]; subst.
  inversion H2 as [|? ? Hc _]; subst.
  destruct Hp as [|x p Hx Hp]; [exists a, b, c, rest; auto|].
  destruct Hp as [|y p Hy Hp];
    [exists x, a, b, (c :: rest); split; [reflexivity|repeat constructor; assumption]|].
  destruct Hp as [|z p Hz Hp];
    [exists x, y, a, (b :: c :: rest); split; [reflexivity|repeat constructor; assumption]|].
  exists x, y, z, (p ++ a :: b :: c :: rest).
  split; [reflexivity|repeat constructor; assumption].
Qed.

Lemma exec_digits_prefix p : forall s,
  digits p -> startsWithThreeDigits s ->
  exec coordinateRegex (p ++ s) = exec coordinateRegex s.
Proof.
  induction p as [|d p IH]; intros s Hp Hs; [reflexivity|].
  inversion Hp as [|? ? Hd Hp']; subst.
  pose proof (startsWithThreeDigits_app p s Hp' Hs) as (a & b & c & rest & E & Habc).
  cbn [app]. rewrite exec_eq. rewrite E at 1.
  rewrite rmatch_coordinateRegex_fourth_digit by (constructor; assumption).
  apply IH; assumption.
Qed.

(** The text trimmed, when it starts with three digits and is put after
    digits. *)
Lemma trim_digits_prefix p s :
  digits p -> startsWithThreeDigits s ->
  trim (p ++ s) = p ++ trim s /\ startsWithThreeDigits (trim s).
Proof.
  intros Hp (a & b & c & rest & Es & Habc).
  inversion Habc as [|? ? Ha H1]; subst. inversion H1 as [|? ? Hb H2]; subst.
  inversion H2 as [|? ? Hc _]; subst.
  pose proof (digit_not_white a Ha) as Wa.
  pose proof (digit_not_white b Hb) as Wb.
  pose proof (digit_not_white c Hc) as Wc.
  destruct (trim_spec (a :: b :: c :: rest)) as (l & r & Hl & Hr & E & Ht).
  assert (l = []) as ->.
  { destruct Hl as [|x l Hx _]; [reflexivity|].
    cbn [app] in E. inversion E; subst. congruence. }
  cbn [app] in E.
  assert (H3 : exists t, trim (a :: b :: c :: rest) = a :: b :: c :: t).
  { destruct (trim (a :: b :: c :: rest)) as [|x [|y [|z t]]]; cbn [app] in E.
    - rewrite <- E in Hr. inversion Hr; subst. congruence.
    - inversion E; subst. inversion Hr; subst. congruence.
    - inversion E as [[E1 E2 E3]]; subst. inversion Hr; subst. congruence.
    - inversion E; subst. exists t. reflexivity. }
  destruct H3 as (t & H3).
  split; [|rewrite H3; exists a, b, c, t; auto].
  destruct Ht as [Ht|Ht]; [rewrite H3 in Ht; discriminate|].
  rewrite E at 1.
  destruct p as [|d p]; [cbn [app]; apply (trim_unique [] _ r); auto; constructor|].
  rewrite app_assoc.
  apply (trim_unique [] _ r); [constructor|exact Hr|].
  inversion Hp as [|? ? Hd _]; subst.
  destruct Ht as [_ (t' & x & Hx & Hxw)]. split.
  - exists d, (p ++ trim (a :: b :: c :: rest)).
    split; [reflexivity|apply digit_not_white, Hd].
  - exists ((d :: p) ++ t'), x. split; [|exact Hxw].
    rewrite Hx at 1. rewrite app_assoc. reflexivity.
Qed.

(** X17: degrees of more than three digits: when the text starts with more
    than three digits, [parseStringCoordinate] drops the leading ones
    without an error and reads the text from its last three leading digits
    on. *)
Theorem leading_digits_are_dropped extra coordinate :
  digits extra -> startsWithThreeDigits coordinate ->
  returned (parseStringCoordinate (extra ++ coordinate))
  = returned (parseStringCoordinate coordinate).
Proof.
  intros Hp Hs. apply parseStringCoordinate_exec.
  destruct (trim_digits_prefix extra coordinate Hp Hs) as [-> Ht].
  apply exec_digits_prefix; assumption.
Qed.

Lemma leading_digits_are_dropped_witness :
  returned (parseStringCoordinate (str "1" ++ dmsThreeDigits)) = Some 234.21%float
  /\ returned (parseStringCoordinate (str "1" ++ dmsThreeDigits))
     = returned (parseStringCoordinate dmsThreeDigits).
Proof.
  split; [vm_compute; reflexivity|].
  apply (leading_digits_are_dropped (str "1") dmsThreeDigits).
  - repeat constructor.
  - exists 50%N, 51%N, 52%N,
      ([degreeSign] ++ str "12'30.5" ++ [quotationMark] ++ str "N").
    split; [reflexivity|repeat constructor].
Defined.

Lemma text_before_the_digits_is_ignored_witness :
  returned (parseStringCoordinate (str "-" ++ dmsNorth)) = Some 23.21%float
  /\ returned (parseStringCoordinate (str "-" ++ dmsNorth))
     = returned (parseStringCoordinate dmsNorth).
Proof.
  split; [vm_compute; reflexivity|].
  apply (text_before_the_digits_is_ignored (str "-") dmsNorth).
  repeat constructor.
Defined.

(** X18: the South Pole: on a host whose tangent of zero is zero and whose
    logarithm of zero is minus infinity, as ECMAScript has them, the
    envelope of latitude -90 has no height, whatever the longitude: its
    [ymin] and [ymax] are both minus infinity. *)
Theorem south_pole_has_no_height host longitude :
  Math_tan host 0%float = 0%float -> Math_log host 0%float = neg_infinity ->
  ymin (latLonToEnvelope host (-90)%float longitude None) = neg_infinity
  /\ ymax (latLonToEnvelope host (-90)%float longitude None) = neg_infinity.
Proof.
  intros Ht Hl.
  unfold latLonToEnvelope, returnEnvelope, calcYValue. cbn [ymin ymax nullish].
  change (Math_PI / 4 + -90 * Math_PI / 180 / 2)%float with 0%float.
  rewrite Ht, Hl. split; reflexivity.
Qed.

Lemma south_pole_has_no_height_witness :
  ymin (latLonToEnvelope poleHost (-90)%float (-47.43)%float None) = neg_infinity
  /\ ymax (latLonToEnvelope poleHost (-90)%float (-47.43)%float None) = neg_infinity.
Proof.
  apply (south_pole_has_no_height poleHost (-47.43)%float); reflexivity.
Defined.
